(** * Todo utilities: a shallow embedding and its verified properties

    The development embeds the todo utility module: the storage adapter
    ([loadTodos], [saveTodos]), the record operations ([addTodo],
    [updateTodo], [toggleTodo], [deleteTodo], [deleteTodos],
    [clearCompleted], [toggleAllTodos], [duplicateTodo],
    [batchUpdateTodos]), the queries ([filterTodos], [filterByCategory],
    [filterByPriority], [searchTodos], [sortTodos], [getTodoStats],
    [getCategories], [getTags]) and the export and import of a list
    ([exportTodos], [importTodos]); and it proves the properties that the
    specification of the module states about them, and further ones.

    JavaScript data is dynamically typed, so records are embedded as finite
    maps from property names to values of a small universe of JavaScript
    values.  Effects (the storage, the clock, the uuid source, the console
    and file downloads) are threaded through an explicit world in a
    state-and-exception monad.

    - [JS]: values, strings, dates.  What [Date.parse] gives a string
      whose time value the language does not fix is a parameter ([Host]);
      every theorem holds for every implementation.
    - [Eff]: the world, the monad and the primitive effects.
    - [Binary64]: the arithmetic of [Math.round((a / b) * 100)].
    - [TodoUtils]: the functions of the module, in the order of the source.
    - [Notions], [Samples]: what the statements speak of, and sample data.
    - Properties: one theorem per specified property, with the lemmas it
      rests on, an instance, and a refutation where the property fails. *)

From Stdlib Require Import ZArith List String Ascii Bool Lia Permutation Sorted.
From Stdlib Require Import Uint63 Floats.PrimFloat Floats.FloatOps Floats.SpecFloat.
From stdpp Require Import gmap strings list fin_maps pretty.
Import ListNotations.

Local Open Scope string_scope.
Set Warnings "-register-all".

(** ** JavaScript values *)

Module JS.

(** Numbers that occur as data are integers (doubles are exact up to
    [2^53]); [NaN] only arises from date conversion and is handled where
    it arises.  Objects are finite maps from property names to values (own
    properties; insertion order is not observed by any operation embedded
    here). *)
Inductive value :=
| VUndefined
| VNull
| VBool (b : bool)
| VNum (n : Z)
| VStr (s : string)
| VArr (elems : list value)
| VObj (props : gmap string value).

Abbreviation obj := (gmap string value).

(** [o.k]: an absent property reads as [undefined]. *)
Definition get (o : obj) (k : string) : value :=
  match o !! k with
  | Some v => v
  | None => VUndefined
  end.

(** [{...a, ...b}]: properties of [b] win. *)
Definition spread (a b : obj) : obj := b ∪ a.

(** ToBoolean. *)
Definition truthy (v : value) : bool :=
  match v with
  | VUndefined | VNull => false
  | VBool b => b
  | VNum n => negb (n =? 0)%Z
  | VStr s => negb (String.eqb s "")
  | VArr _ | VObj _ => true
  end.

(** [a === b].  Arrays and objects are compared by reference in JavaScript;
    the embedding has no references, and two separately built aggregates
    are never identical, so aggregates compare unequal. *)
Definition strict_eq (a b : value) : bool :=
  match a, b with
  | VUndefined, VUndefined => true
  | VNull, VNull => true
  | VBool x, VBool y => Bool.eqb x y
  | VNum x, VNum y => (x =? y)%Z
  | VStr x, VStr y => String.eqb x y
  | _, _ => false
  end.

(** [ids.includes(x)] (SameValueZero coincides with [===] on this universe). *)
Definition includes (l : list value) (x : value) : bool :=
  existsb (fun y => strict_eq y x) l.

(** Strings are sequences of code units; the embedding covers the code
    units below 256 (Latin-1), one [ascii] each. *)
Definition code (c : ascii) : nat := nat_of_ascii c.

(** WhiteSpace and LineTerminator code units below 256: TAB, LF, VT, FF, CR,
    SP and NBSP. *)
Definition is_space (c : ascii) : bool :=
  let n := code c in
  ((9 <=? n)%nat && (n <=? 13)%nat) || (n =? 32)%nat || (n =? 160)%nat.

Fixpoint trimStart (s : string) : string :=
  match s with
  | EmptyString => EmptyString
  | String c s' => if is_space c then trimStart s' else s
  end.

Fixpoint trimEnd (s : string) : string :=
  match s with
  | EmptyString => EmptyString
  | String c s' =>
      let r := trimEnd s' in
      if is_space c && String.eqb r "" then EmptyString else String c r
  end.

(** [s.trim()]. *)
Definition trim (s : string) : string := trimEnd (trimStart s).

(** [s.toLowerCase()] on Latin-1: A-Z and the accented capitals
    (192-222 except the multiplication sign 215) move up by 32. *)
Definition lower_char (c : ascii) : ascii :=
  let n := code c in
  if ((65 <=? n)%nat && (n <=? 90)%nat)
     || ((192 <=? n)%nat && (n <=? 222)%nat && negb (n =? 215)%nat)
  then ascii_of_nat (n + 32) else c.

Fixpoint toLowerCase (s : string) : string :=
  match s with
  | EmptyString => EmptyString
  | String c s' => String (lower_char c) (toLowerCase s')
  end.

(** [a < b] on strings: lexicographic on code units. *)
Fixpoint str_ltb (a b : string) : bool :=
  match a, b with
  | _, EmptyString => false
  | EmptyString, String _ _ => true
  | String x a', String y b' =>
      if (code x <? code y)%nat then true
      else if (code y <? code x)%nat then false
      else str_ltb a' b'
  end.

(** ToString, as used for template literals and computed property names. *)
Fixpoint ToString (v : value) : string :=
  match v with
  | VUndefined => "undefined"
  | VNull => "null"
  | VBool true => "true"
  | VBool false => "false"
  | VNum n => pretty n
  | VStr s => s
  | VArr l =>
      String.concat ","
        (map (fun x => match x with
                       | VUndefined | VNull => ""
                       | _ => ToString x
                       end) l)
  | VObj _ => "[object Object]"
  end.

(** What [JSON.parse(JSON.stringify(v))] returns for a value nested in an
    array or object: properties whose value is [undefined] are dropped,
    [undefined] array elements become [null]. *)
Fixpoint jsonify (v : value) : value :=
  match v with
  | VArr l =>
      VArr (map (fun x => match x with
                          | VUndefined => VNull
                          | _ => jsonify x
                          end) l)
  | VObj o =>
      VObj (omap (fun x => match x with
                           | VUndefined => None
                           | _ => Some (jsonify x)
                           end) o)
  | _ => v
  end.

(** A string handed to [JSON.parse] is represented by what it denotes: the
    JSON document, or nothing ([Malformed]) with the raw characters kept. *)
Inductive text :=
| Malformed (s : string)
| Json (v : value).

(** ToBoolean of a string that holds a text: only the empty string is falsy. *)
Definition text_truthy (t : text) : bool :=
  match t with
  | Malformed s => negb (String.eqb s "")
  | Json _ => true
  end.

(** *** Dates

    A [Date] is its time value: milliseconds since the epoch, [None] for an
    invalid date (whose [getTime()] is [NaN]). *)

(** Proleptic Gregorian calendar, days since 1970-01-01. *)
Definition days_from_civil (y m d : Z) : Z :=
  let y' := if (m <=? 2)%Z then (y - 1)%Z else y in
  let era := (y' / 400)%Z in
  let yoe := (y' - era * 400)%Z in
  let mp := if (m <=? 2)%Z then (m + 9)%Z else (m - 3)%Z in
  let doy := ((153 * mp + 2) / 5 + d - 1)%Z in
  let doe := (yoe * 365 + yoe / 4 - yoe / 100 + doy)%Z in
  (era * 146097 + doe - 719468)%Z.

Definition civil_from_days (z : Z) : Z * Z * Z :=
  let z := (z + 719468)%Z in
  let era := (z / 146097)%Z in
  let doe := (z - era * 146097)%Z in
  let yoe := ((doe - doe / 1460 + doe / 36524 - doe / 146096) / 365)%Z in
  let doy := (doe - (365 * yoe + yoe / 4 - yoe / 100))%Z in
  let mp := ((5 * doy + 2) / 153)%Z in
  let d := (doy - (153 * mp + 2) / 5 + 1)%Z in
  let m := if (mp <? 10)%Z then (mp + 3)%Z else (mp - 9)%Z in
  let y := (yoe + era * 400)%Z in
  (if (m <=? 2)%Z then (y + 1)%Z else y, m, d).

Definition is_leap (y : Z) : bool :=
  ((y mod 4 =? 0)%Z && negb (y mod 100 =? 0)%Z) || (y mod 400 =? 0)%Z.

Definition days_in_month (y m : Z) : Z :=
  if (m =? 2)%Z then (if is_leap y then 29 else 28)%Z
  else if ((m =? 4) || (m =? 6) || (m =? 9) || (m =? 11))%Z then 30%Z
  else 31%Z.

(** Decimal digits of a non-negative number, zero-padded to [w] places. *)
Definition pad (w : nat) (n : Z) : string :=
  let s := pretty (Z.to_N n) in
  String.string_of_list_ascii (repeat "0"%char (w - String.length s)) ++ s.

(** [d.toISOString()]: [YYYY-MM-DDTHH:mm:ss.sssZ], with the expanded
    six-digit signed year outside 0..9999. *)
Definition toISOString (t : Z) : string :=
  let day := (t / 86400000)%Z in
  let ms := (t mod 86400000)%Z in
  let '(y, m, d) := civil_from_days day in
  let year :=
    if ((0 <=? y) && (y <=? 9999))%Z then pad 4 y
    else if (y <? 0)%Z then "-" ++ pad 6 (- y) else "+" ++ pad 6 y in
  year ++ "-" ++ pad 2 m ++ "-" ++ pad 2 d ++ "T"
    ++ pad 2 (ms / 3600000) ++ ":" ++ pad 2 (ms / 60000 mod 60) ++ ":"
    ++ pad 2 (ms / 1000 mod 60) ++ "." ++ pad 3 (ms mod 1000) ++ "Z".

Definition digit (c : ascii) : option Z :=
  let n := code c in
  if ((48 <=? n) && (n <=? 57))%nat then Some (Z.of_nat (n - 48)) else None.

(** Exactly [n] decimal digits at the start of [s], read as a number, and
    what follows them. *)
Fixpoint digits (n : nat) (acc : Z) (s : string) : option (Z * string) :=
  match n with
  | O => Some (acc, s)
  | S n' =>
      match s with
      | String c s' =>
          match digit c with
          | Some d => digits n' (acc * 10 + d) s'
          | None => None
          end
      | EmptyString => None
      end
  end.

(** The Date Time String Format of the language:
    [YYYY], [YYYY-MM] or [YYYY-MM-DD], alone or followed by [THH:mm],
    [THH:mm:ss] or [THH:mm:ss.sss] and then by [Z] or an offset [+HH:mm]
    or [-HH:mm]; the year has four digits, or a sign and six. *)

(** The year; [-000000] is not a year. *)
Definition iso_year (s : string) : option (Z * string) :=
  match s with
  | String "+" s' => digits 6 0 s'
  | String "-" s' =>
      match digits 6 0 s' with
      | Some (y, rest) => if (y =? 0)%Z then None else Some ((- y)%Z, rest)
      | None => None
      end
  | _ => digits 4 0 s
  end.

(** [-MM] and [-DD] after the year; a month or day that is not written
    is the first. *)
Definition iso_month_day (s : string) : option (Z * Z * string) :=
  match s with
  | String "-" s1 =>
      match digits 2 0 s1 with
      | Some (m, String "-" s2) =>
          match digits 2 0 s2 with
          | Some (d, rest) => Some (m, d, rest)
          | None => None
          end
      | Some (m, rest) => Some (m, 1%Z, rest)
      | None => None
      end
  | _ => Some (1%Z, 1%Z, s)
  end.

(** [:ss] and [.sss] after the minutes; seconds and milliseconds that are
    not written are zero. *)
Definition iso_seconds (s : string) : option (Z * Z * string) :=
  match s with
  | String ":" s1 =>
      match digits 2 0 s1 with
      | Some (se, String "." s2) =>
          match digits 3 0 s2 with
          | Some (ms, rest) => Some (se, ms, rest)
          | None => None
          end
      | Some (se, rest) => Some (se, 0%Z, rest)
      | None => None
      end
  | _ => Some (0%Z, 0%Z, s)
  end.

(** The offset that ends a date-time, in milliseconds east of UTC. *)
Definition iso_offset (s : string) : option Z :=
  match s with
  | String "Z" EmptyString => Some 0%Z
  | String sign s1 =>
      match digits 2 0 s1 with
      | Some (h, String ":" s2) =>
          match digits 2 0 s2 with
          | Some (mi, EmptyString) =>
              if ((h <=? 23) && (mi <=? 59))%Z then
                if Ascii.eqb sign "+" then Some (h * 3600000 + mi * 60000)%Z
                else if Ascii.eqb sign "-"
                then Some (- (h * 3600000 + mi * 60000))%Z
                else None
              else None
          | _ => None
          end
      | _ => None
      end
  | EmptyString => None
  end.

(** [THH:mm...] up to the end of the string: the millisecond of the day,
    in UTC. *)
Definition iso_time (s : string) : option Z :=
  match digits 2 0 s with
  | Some (h, String ":" s1) =>
      match digits 2 0 s1 with
      | Some (mi, s2) =>
          match iso_seconds s2 with
          | Some (se, ms, s3) =>
              match iso_offset s3 with
              | Some offset =>
                  if ((h <=? 23) && (mi <=? 59) && (se <=? 59))%Z
                  then Some (h * 3600000 + mi * 60000 + se * 1000 + ms
                             - offset)%Z
                  else None
              | None => None
              end
          | None => None
          end
      | None => None
      end
  | _ => None
  end.

(** A time value is within 8.64e15 milliseconds of the epoch. *)
Definition time_clip (t : Z) : option Z :=
  if (Z.abs t <=? 8640000000000000)%Z then Some t else None.

(** The time value of a string for which the language fixes it: a string
    in the format whose fields are in bounds, whose day exists in its
    month, and that is a date alone (read as UTC) or a date and time
    that end in [Z] or an offset.  [None] means that the language does
    not fix the value: for a date and time without an offset (read as
    local time), for the hour 24, for a day past the end of its month or
    a time out of range (on which implementations differ), and for a
    string that is not in the format (which an implementation may read
    in its own ways). *)
Definition iso_parse (s : string) : option Z :=
  match iso_year s with
  | Some (y, s1) =>
      match iso_month_day s1 with
      | Some (m, d, s2) =>
          if ((1 <=? m) && (m <=? 12) && (1 <=? d)
              && (d <=? days_in_month y m))%Z
          then
            let day := days_from_civil y m d in
            match s2 with
            | EmptyString => time_clip (day * 86400000)
            | String "T" s3 =>
                match iso_time s3 with
                | Some t => time_clip (day * 86400000 + t)
                | None => None
                end
            | _ => None
            end
          else None
      | None => None
      end
  | None => None
  end.

(** What the implementation does where the language leaves [Date.parse]
    to it: the time value it gives a string whose value the language does
    not fix, [None] where it gives [NaN]. *)
Class Host := host_parse : string -> option Z.

(** [Date.parse(s)]. *)
Definition Date_parse `{host : Host} (s : string) : option Z :=
  match iso_parse s with
  | Some t => Some t
  | None => host_parse s
  end.

(** [new Date(v).getTime()]. *)
Definition Date_getTime `{host : Host} (v : value) : option Z :=
  match v with
  | VUndefined => None
  | VNull => Some 0%Z
  | VBool b => Some (if b then 1 else 0)%Z
  | VNum n => time_clip n
  | VStr s => Date_parse s
  | VArr _ | VObj _ => Date_parse (ToString v)
  end.

End JS.

(** ** The world and the effect monad *)

Module Eff.
Import JS.

(** Thrown values. *)
Inductive error :=
| Error (msg : string)
| TypeError (msg : string)
| SyntaxError (msg : string)
| DOMException (name : string).

Inductive result (A : Type) :=
| Ok (a : A)
| Throw (e : error).
Arguments Ok {A} a.
Arguments Throw {A} e.

(** What the module touches outside its arguments: the [localStorage]
    items (with whether reading and writing them succeeds at all), the
    clock as the sequence of its readings, the uuid library as the sequence
    of the identifiers it hands out, the console, and the files offered for
    download. *)
Record world := World {
  ls_readable : bool;
  ls_writable : bool;
  ls_items : gmap string text;
  clock : nat -> Z;
  ticks : nat;
  uuid_source : nat -> string;
  uuid_drawn : nat;
  console : list string;
  downloads : list (string * text)
}.

Definition set_items (f : gmap string text -> gmap string text) (w : world) :=
  World (ls_readable w) (ls_writable w) (f (ls_items w)) (clock w) (ticks w)
        (uuid_source w) (uuid_drawn w) (console w) (downloads w).

Definition set_ticks (n : nat) (w : world) :=
  World (ls_readable w) (ls_writable w) (ls_items w) (clock w) n
        (uuid_source w) (uuid_drawn w) (console w) (downloads w).

Definition set_drawn (n : nat) (w : world) :=
  World (ls_readable w) (ls_writable w) (ls_items w) (clock w) (ticks w)
        (uuid_source w) n (console w) (downloads w).

Definition set_console (l : list string) (w : world) :=
  World (ls_readable w) (ls_writable w) (ls_items w) (clock w) (ticks w)
        (uuid_source w) (uuid_drawn w) l (downloads w).

Definition set_downloads (l : list (string * text)) (w : world) :=
  World (ls_readable w) (ls_writable w) (ls_items w) (clock w) (ticks w)
        (uuid_source w) (uuid_drawn w) (console w) l.

(** A computation reads and changes the world and returns or throws. *)
Definition M (A : Type) : Type := world -> result A * world.

Definition ret {A} (a : A) : M A := fun w => (Ok a, w).

Definition throw {A} (e : error) : M A := fun w => (Throw e, w).

Definition bind {A B} (m : M A) (k : A -> M B) : M B :=
  fun w =>
    match m w with
    | (Ok a, w') => k a w'
    | (Throw e, w') => (Throw e, w')
    end.

(** [try { body } catch (error) { handler }]. *)
Definition try_catch {A} (body : M A) (handler : error -> M A) : M A :=
  fun w =>
    match body w with
    | (Ok a, w') => (Ok a, w')
    | (Throw e, w') => handler e w'
    end.

Notation "'let*' x ':=' m 'in' k" := (bind m (fun x => k))
  (at level 10, x name, m at level 100, k at level 200).
Notation "m ';;' k" := (bind m (fun _ => k))
  (at level 100, k at level 200, right associativity).

(** [array.map(f)] with an effectful callback, left to right. *)
Fixpoint mapM {A B} (f : A -> M B) (l : list A) : M (list B) :=
  match l with
  | [] => ret []
  | x :: l' =>
      let* y := f x in
      let* ys := mapM f l' in
      ret (y :: ys)
  end.

(** [array.filter(p)] with an effectful callback, left to right. *)
Fixpoint filterM {A} (p : A -> M bool) (l : list A) : M (list A) :=
  match l with
  | [] => ret []
  | x :: l' =>
      let* keep := p x in
      let* ys := filterM p l' in
      ret (if keep then x :: ys else ys)
  end.

(** [new Date()]: the next reading of the clock. *)
Definition Date_now : M Z :=
  fun w => (Ok (clock w (ticks w)), set_ticks (S (ticks w)) w).

(** [new Date().toISOString()]. *)
Definition now_iso : M value :=
  let* t := Date_now in ret (VStr (toISOString t)).

(** [uuidv4()]: the next identifier of the source. *)
Definition uuidv4 : M value :=
  fun w => (Ok (VStr (uuid_source w (uuid_drawn w))),
            set_drawn (S (uuid_drawn w)) w).

Definition localStorage_getItem (key : string) : M (option text) :=
  fun w =>
    if ls_readable w then (Ok (ls_items w !! key), w)
    else (Throw (DOMException "SecurityError"), w).

Definition localStorage_setItem (key : string) (t : text) : M unit :=
  fun w =>
    if ls_writable w then (Ok tt, set_items (insert key t) w)
    else (Throw (DOMException "QuotaExceededError"), w).

Definition console_error (msg : string) : M unit :=
  fun w => (Ok tt, set_console (console w ++ [msg]) w).

(** [JSON.stringify(v)] of an array or object. *)
Definition JSON_stringify (v : value) : text := Json (jsonify v).

Definition JSON_parse (t : text) : M value :=
  match t with
  | Json v => ret v
  | Malformed _ => throw (SyntaxError "Unexpected token")
  end.

(** [v.trim()]: a method of strings only. *)
Definition call_trim (v : value) : M string :=
  match v with
  | VStr s => ret (trim s)
  | VUndefined | VNull =>
      throw (TypeError "Cannot read properties of undefined (reading 'trim')")
  | _ => throw (TypeError "trim is not a function")
  end.

(** [v.k] on an arbitrary value: reading a property of [undefined] or
    [null] throws; the names read below are never array indices or
    [length], so only objects have them. *)
Definition get_prop (v : value) (k : string) : M value :=
  match v with
  | VUndefined | VNull =>
      throw (TypeError "Cannot read properties of undefined")
  | VObj o => ret (get o k)
  | _ => ret VUndefined
  end.

(** The own enumerable properties that [{...v}] copies. *)
Definition props_of (v : value) : obj :=
  match v with
  | VObj o => o
  | VArr l => list_to_map (imap (fun i x => (pretty i, x)) l)
  | VStr s =>
      list_to_map (imap (fun i c => (pretty i, VStr (String c EmptyString)))
                        (String.list_ascii_of_string s))
  | _ => ∅
  end.

(** A parameter default: used when the argument is [undefined]. *)
Definition default_arg (v d : value) : value :=
  match v with
  | VUndefined => d
  | _ => v
  end.

End Eff.

(** ** Number arithmetic

    JavaScript numbers are IEEE 754 binary64 values.  The only arithmetic
    the module does on non-integers is a quotient of two counts, its
    product with 100 and [Math.round].  A positive finite double is
    [m * 2^e] with [2^52 <= m < 2^53]; the operations below compute the
    correctly rounded results (round to nearest, ties to even) for positive
    operands in the normal range, which is where counts of array elements
    and their quotients lie; subnormal numbers and overflow are not
    represented. *)

Module Binary64.

Local Open Scope Z_scope.

(** A non-negative double: [mant * 2^expo]. *)
Record double := Double { mant : Z; expo : Z }.

(** [floor(log2(p/q))] for positive [p] and [q]. *)
Definition floor_log2 (p q : Z) : Z :=
  let d := Z.log2 p - Z.log2 q in
  let reaches :=
    if 0 <=? d then q * 2 ^ d <=? p else q <=? p * 2 ^ (- d) in
  if reaches then d else d - 1.

(** The integer nearest to [num/den], ties to the even one. *)
Definition nearest_even (num den : Z) : Z :=
  let quo := num / den in
  let rest := num mod den in
  if 2 * rest <? den then quo
  else if den <? 2 * rest then quo + 1
  else if Z.even quo then quo else quo + 1.

(** The double nearest to [p/q], for [0 <= p] and [0 < q]. *)
Definition round64 (p q : Z) : double :=
  if p <=? 0 then Double 0 0
  else
    let e := floor_log2 p q - 52 in
    if 0 <=? e then Double (nearest_even p (q * 2 ^ e)) e
    else Double (nearest_even (p * 2 ^ (- e)) q) e.

(** [a / b] for two counts (integers below [2^53], which are doubles). *)
Definition div_counts (a b : Z) : double := round64 a b.

(** [x * n] for a double [x] and a count [n]. *)
Definition mul_count (x : double) (n : Z) : double :=
  if 0 <=? expo x then round64 (mant x * n * 2 ^ expo x) 1
  else round64 (mant x * n) (2 ^ (- expo x)).

(** [Math.round(x)]: the nearest integer, ties towards positive infinity,
    that is [floor(x + 1/2)] computed exactly. *)
Definition Math_round (x : double) : Z :=
  if 0 <=? expo x then mant x * 2 ^ expo x
  else (2 * mant x + 2 ^ (- expo x)) / 2 ^ (1 - expo x).

(** [round(100 * a / b)] in exact arithmetic, ties towards positive
    infinity. *)
Definition exact_percentage (a b : Z) : Z := (200 * a + b) / (2 * b).

(** The same computation on the primitive binary64 numbers of the kernel,
    against which the definitions above are tested. *)
Definition float_of_count (n : Z) : float :=
  PrimFloat.of_uint63 (Uint63.of_Z n).

Definition primitive_percentage (a b : Z) : float :=
  PrimFloat.mul (PrimFloat.div (float_of_count a) (float_of_count b))
                (float_of_count 100).

Definition double_of_float (f : float) : option double :=
  match Prim2SF f with
  | S754_zero _ => Some (Double 0 0)
  | S754_finite false m e => Some (Double (Zpos m) e)
  | _ => None
  end.

(** Two doubles denote the same number. *)
Definition same_number (x y : double) : bool :=
  let e := Z.min (expo x) (expo y) in
  mant x * 2 ^ (expo x - e) =? mant y * 2 ^ (expo y - e).

Definition agrees_with_primitive (a b : Z) : bool :=
  match double_of_float (primitive_percentage a b) with
  | Some x => same_number x (mul_count (div_counts a b) 100)
  | None => false
  end.

End Binary64.

(** ** The todo utility module *)

Module TodoUtils.
Import JS Eff.

Definition TODOS_STORAGE_KEY : string := "glassmorphic-todos".

(** [createTodo(text, category = 'general', priority = 'medium')]: the
    properties are evaluated in the order they are written. *)
Definition createTodo (text category priority : value) : M obj :=
  let category := default_arg category (VStr "general") in
  let priority := default_arg priority (VStr "medium") in
  let* id := uuidv4 in
  let* trimmed := call_trim text in
  let* createdAt := now_iso in
  let* updatedAt := now_iso in
  ret (<["description" := VStr ""]>
       (<["tags" := VArr []]>
       (<["dueDate" := VNull]>
       (<["updatedAt" := updatedAt]>
       (<["createdAt" := createdAt]>
       (<["priority" := priority]>
       (<["category" := category]>
       (<["completed" := VBool false]>
       (<["text" := VStr trimmed]>
       (<["id" := id]> ∅)))))))))).

(** The callback of [loadTodos]: a stored entry merged over a default
    record, with the two timestamps filled in when missing. *)
Definition normalizeStored (todo : value) : M obj :=
  let* defaults := createTodo (VStr "") VUndefined VUndefined in
  let merged := spread defaults (props_of todo) in
  let* stored_created := get_prop todo "createdAt" in
  let* createdAt :=
    if truthy stored_created then ret stored_created else now_iso in
  let* stored_updated := get_prop todo "updatedAt" in
  let* updatedAt :=
    if truthy stored_updated then ret stored_updated else now_iso in
  ret (<["updatedAt" := updatedAt]> (<["createdAt" := createdAt]> merged)).

(** [todos.map(f)] on a parsed value: only arrays have [map]. *)
Definition map_value {B} (todos : value) (f : value -> M B) : M (list B) :=
  match todos with
  | VArr l => mapM f l
  | VUndefined | VNull =>
      throw (TypeError "Cannot read properties of null (reading 'map')")
  | _ => throw (TypeError "todos.map is not a function")
  end.

Definition loadTodos : M (list obj) :=
  try_catch
    (let* stored := localStorage_getItem TODOS_STORAGE_KEY in
     match stored with
     | None => ret []
     | Some t =>
         if negb (text_truthy t) then ret []
         else
           let* todos := JSON_parse t in
           map_value todos normalizeStored
     end)
    (fun error =>
       console_error "Error loading todos from localStorage:";;
       ret []).

Definition as_array (todos : list obj) : value := VArr (map VObj todos).

Definition saveTodos (todos : list obj) : M bool :=
  try_catch
    (localStorage_setItem TODOS_STORAGE_KEY (JSON_stringify (as_array todos));;
     ret true)
    (fun error =>
       console_error "Error saving todos to localStorage:";;
       ret false).

(** [addTodo(todos, text, category = 'general', priority = 'medium')]. *)
Definition addTodo (todos : list obj) (text category priority : value)
  : M (list obj) :=
  let category := default_arg category (VStr "general") in
  let priority := default_arg priority (VStr "medium") in
  let* empty :=
    if negb (truthy text) then ret true
    else let* trimmed := call_trim text in
         ret (negb (truthy (VStr trimmed))) in
  if empty : bool then throw (Error "Todo text cannot be empty")
  else
    let* newTodo := createTodo text category priority in
    let updatedTodos := newTodo :: todos in
    saveTodos updatedTodos;;
    ret updatedTodos.

(** The record that [updateTodo] builds for a matching entry. *)
Definition updated (todo updates : obj) : M obj :=
  let* updatedAt := now_iso in
  let* text :=
    if truthy (get updates "text")
    then let* trimmed := call_trim (get updates "text") in
         ret (VStr trimmed)
    else ret (get todo "text") in
  ret (<["text" := text]> (<["updatedAt" := updatedAt]> (spread todo updates))).

Definition updateTodo (todos : list obj) (id : value) (updates : obj)
  : M (list obj) :=
  let* updatedTodos :=
    mapM (fun todo =>
            if strict_eq (get todo "id") id then updated todo updates
            else ret todo) todos in
  saveTodos updatedTodos;;
  ret updatedTodos.

(** [todos.find(todo => todo.id === id)]. *)
Definition find_by_id (todos : list obj) (id : value) : option obj :=
  List.find (fun todo => strict_eq (get todo "id") id) todos.

(** [!todos.find(...)?.completed]. *)
Definition toggled_completed (todos : list obj) (id : value) : value :=
  let completed :=
    match find_by_id todos id with
    | Some todo => get todo "completed"
    | None => VUndefined
    end in
  VBool (negb (truthy completed)).

Definition toggleTodo (todos : list obj) (id : value) : M (list obj) :=
  updateTodo todos id (<["completed" := toggled_completed todos id]> ∅).

Definition deleteTodo (todos : list obj) (id : value) : M (list obj) :=
  let updatedTodos :=
    List.filter (fun todo => negb (strict_eq (get todo "id") id)) todos in
  saveTodos updatedTodos;;
  ret updatedTodos.

Definition deleteTodos (todos : list obj) (ids : list value) : M (list obj) :=
  let updatedTodos :=
    List.filter (fun todo => negb (includes ids (get todo "id"))) todos in
  saveTodos updatedTodos;;
  ret updatedTodos.

Definition clearCompleted (todos : list obj) : M (list obj) :=
  let updatedTodos :=
    List.filter (fun todo => negb (truthy (get todo "completed"))) todos in
  saveTodos updatedTodos;;
  ret updatedTodos.

(** [toggleAllTodos(todos, completed = true)]. *)
Definition toggleAllTodos (todos : list obj) (completed : value)
  : M (list obj) :=
  let completed := default_arg completed (VBool true) in
  let* updatedTodos :=
    mapM (fun todo =>
            let* updatedAt := now_iso in
            ret (<["updatedAt" := updatedAt]>
                 (<["completed" := completed]> todo))) todos in
  saveTodos updatedTodos;;
  ret updatedTodos.

(** [filterTodos(todos, filter)]: a [switch] compares with [===]. *)
Definition filterTodos (todos : list obj) (filter : value) : list obj :=
  if strict_eq filter (VStr "active") then
    List.filter (fun todo => negb (truthy (get todo "completed"))) todos
  else if strict_eq filter (VStr "completed") then
    List.filter (fun todo => truthy (get todo "completed")) todos
  else todos.

(** [filterByCategory(todos, category)]. *)
Definition filterByCategory (todos : list obj) (category : value)
  : list obj :=
  if negb (truthy category) || strict_eq category (VStr "all") then todos
  else List.filter (fun todo => strict_eq (get todo "category") category) todos.

(** [filterByPriority(todos, priority)]. *)
Definition filterByPriority (todos : list obj) (priority : value)
  : list obj :=
  if negb (truthy priority) || strict_eq priority (VStr "all") then todos
  else List.filter (fun todo => strict_eq (get todo "priority") priority) todos.

(** [p] is a prefix of [s]. *)
Fixpoint str_prefix (p s : string) : bool :=
  match p, s with
  | EmptyString, _ => true
  | String a p', String b s' => Ascii.eqb a b && str_prefix p' s'
  | String _ _, EmptyString => false
  end.

(** [hay.includes(needle)]. *)
Fixpoint str_includes (needle hay : string) : bool :=
  str_prefix needle hay
  || match hay with
     | EmptyString => false
     | String _ hay' => str_includes needle hay'
     end.

(** [v.toLowerCase().includes(term)]. *)
Definition lower_includes (v : value) (term : string) : result bool :=
  match v with
  | VStr s => Ok (str_includes term (toLowerCase s))
  | VUndefined | VNull =>
      Throw (TypeError
               "Cannot read properties of undefined (reading 'toLowerCase')")
  | _ => Throw (TypeError "toLowerCase is not a function")
  end.

(** [tags.some(tag => tag.toLowerCase().includes(term))] on the elements of
    an array: the first match ends the search. *)
Fixpoint some_includes (tags : list value) (term : string) : result bool :=
  match tags with
  | [] => Ok false
  | tag :: tags' =>
      match lower_includes tag term with
      | Ok true => Ok true
      | Ok false => some_includes tags' term
      | Throw e => Throw e
      end
  end.

(** [todo.tags.some(...)]: only arrays have [some]. *)
Definition tags_include (tags : value) (term : string) : result bool :=
  match tags with
  | VArr l => some_includes l term
  | VUndefined | VNull =>
      Throw (TypeError "Cannot read properties of undefined (reading 'some')")
  | _ => Throw (TypeError "todo.tags.some is not a function")
  end.

(** [a || b] where [b] is only evaluated when [a] is false. *)
Definition or_lazy (a : result bool) (b : result bool) : result bool :=
  match a with
  | Ok true => Ok true
  | Ok false => b
  | Throw e => Throw e
  end.

(** The callback of the filter of [searchTodos]. *)
Definition matches_term (term : string) (todo : obj) : result bool :=
  or_lazy (lower_includes (get todo "text") term)
    (or_lazy (lower_includes (get todo "description") term)
       (or_lazy (lower_includes (get todo "category") term)
          (tags_include (get todo "tags") term))).

(** [array.filter(p)] with a callback that can throw. *)
Fixpoint filter_result {A} (p : A -> result bool) (l : list A)
  : result (list A) :=
  match l with
  | [] => Ok []
  | x :: l' =>
      match p x with
      | Throw e => Throw e
      | Ok keep =>
          match filter_result p l' with
          | Throw e => Throw e
          | Ok ys => Ok (if keep then x :: ys else ys)
          end
      end
  end.

(** [searchTodos(todos, searchTerm)]: the term is lowered, not trimmed. *)
Definition searchTodos (todos : list obj) (searchTerm : value)
  : result (list obj) :=
  match searchTerm with
  | VStr s =>
      if negb (truthy (VStr (trim s))) then Ok todos
      else filter_result (matches_term (toLowerCase s)) todos
  | VUndefined | VNull =>
      Throw (TypeError "Cannot read properties of undefined (reading 'trim')")
  | _ => Throw (TypeError "trim is not a function")
  end.

Definition duplicateTodo (todos : list obj) (id : value) : M (list obj) :=
  match find_by_id todos id with
  | None => throw (Error "Todo not found")
  | Some todoToDuplicate =>
      let* newId := uuidv4 in
      let text := VStr (ToString (get todoToDuplicate "text") ++ " (Copy)") in
      let* createdAt := now_iso in
      let* updatedAt := now_iso in
      let duplicatedTodo :=
        <["updatedAt" := updatedAt]>
        (<["createdAt" := createdAt]>
        (<["completed" := VBool false]>
        (<["text" := text]>
        (<["id" := newId]> todoToDuplicate)))) in
      let updatedTodos := duplicatedTodo :: todos in
      saveTodos updatedTodos;;
      ret updatedTodos
  end.

Definition batchUpdateTodos (todos : list obj) (ids : list value)
    (updates : obj) : M (list obj) :=
  let* updatedTodos :=
    mapM (fun todo =>
            if includes ids (get todo "id") then
              let* updatedAt := now_iso in
              ret (<["updatedAt" := updatedAt]> (spread todo updates))
            else ret todo) todos in
  saveTodos updatedTodos;;
  ret updatedTodos.

(** *** Sorting *)

(** The values a comparator of [sortTodos] compares: a number ([None] is
    [NaN]) or a string. *)
Inductive key :=
| KNum (n : option Z)
| KStr (s : string).

(** [a < b] on keys.  Two strings compare by code units, two numbers
    numerically with every comparison against [NaN] false.  A string only
    meets a number when an inherited member is compared with a rank (see
    [priority_rank]); the string then converts to [NaN]. *)
Definition key_ltb (a b : key) : bool :=
  match a, b with
  | KNum (Some x), KNum (Some y) => (x <? y)%Z
  | KStr x, KStr y => str_ltb x y
  | _, _ => false
  end.

(** [v.toLowerCase()]: a method of strings only. *)
Definition call_toLowerCase (v : value) : result string :=
  match v with
  | VStr s => Ok (toLowerCase s)
  | VUndefined | VNull =>
      Throw (TypeError
               "Cannot read properties of undefined (reading 'toLowerCase')")
  | _ => Throw (TypeError "toLowerCase is not a function")
  end.

(** What a name that is not an own property of an object literal reads as
    through [Object.prototype], given as the string the member converts to
    in a comparison or concatenation. *)
Definition inherited_member (name : string) : option string :=
  if String.eqb name "__proto__" then Some "[object Object]"
  else if String.eqb name "constructor"
  then Some "function Object() { [native code] }"
  else if existsb (String.eqb name)
            ["toString"; "toLocaleString"; "valueOf"; "hasOwnProperty";
             "isPrototypeOf"; "propertyIsEnumerable"; "__defineGetter__";
             "__defineSetter__"; "__lookupGetter__"; "__lookupSetter__"]
  then Some ("function " ++ name ++ "() { [native code] }")
  else None.

(** [priorityOrder[p] || 0] with
    [priorityOrder = { high: 3, medium: 2, low: 1 }]. *)
Definition priority_rank (p : value) : key :=
  let name := ToString p in
  if String.eqb name "high" then KNum (Some 3%Z)
  else if String.eqb name "medium" then KNum (Some 2%Z)
  else if String.eqb name "low" then KNum (Some 1%Z)
  else match inherited_member name with
       | Some member => KStr member
       | None => KNum (Some 0%Z)
       end.

(** The [switch (sortBy)] of the comparator, for one of its two records. *)
Definition sort_key `{host : Host} (sortBy : value) (a : obj) : result key :=
  if strict_eq sortBy (VStr "text") then
    match call_toLowerCase (get a "text") with
    | Ok s => Ok (KStr s)
    | Throw e => Throw e
    end
  else if strict_eq sortBy (VStr "priority") then
    Ok (priority_rank (get a "priority"))
  else if strict_eq sortBy (VStr "category") then
    match call_toLowerCase (get a "category") with
    | Ok s => Ok (KStr s)
    | Throw e => Throw e
    end
  else if strict_eq sortBy (VStr "completed") then
    Ok (KNum (Some (if truthy (get a "completed") then 1 else 0)%Z))
  else if strict_eq sortBy (VStr "dueDate") then
    Ok (KNum (if truthy (get a "dueDate")
              then Date_getTime (get a "dueDate") else Some 0%Z))
  else if strict_eq sortBy (VStr "updatedAt") then
    Ok (KNum (Date_getTime (get a "updatedAt")))
  else
    Ok (KNum (Date_getTime (get a "createdAt"))).

(** The last statement of the comparator. *)
Definition compare_keys (order : value) (aValue bValue : key) : Z :=
  if strict_eq order (VStr "asc") then
    if key_ltb bValue aValue then 1%Z
    else if key_ltb aValue bValue then (-1)%Z else 0%Z
  else
    if key_ltb aValue bValue then 1%Z
    else if key_ltb bValue aValue then (-1)%Z else 0%Z.

(** The comparator [(a, b) => ...] of [sortTodos]. *)
Definition comparator `{host : Host} (sortBy order : value) (a b : obj)
  : result Z :=
  match sort_key sortBy a with
  | Throw e => Throw e
  | Ok aValue =>
      match sort_key sortBy b with
      | Throw e => Throw e
      | Ok bValue => Ok (compare_keys order aValue bValue)
      end
  end.

(** [Array.prototype.sort(cmp)].  The language requires the sort to be
    stable; for a comparator that is a consistent ordering the result is
    then determined, and the insertion sort below computes it.  The order
    of the result under an inconsistent comparator is left to the
    implementation; the theorems about sorting assume comparable keys. *)
Fixpoint sort_insert {A} (cmp : A -> A -> result Z) (x : A) (l : list A)
  : result (list A) :=
  match l with
  | [] => Ok [x]
  | y :: l' =>
      match cmp x y with
      | Throw e => Throw e
      | Ok c =>
          if (0 <? c)%Z then
            match sort_insert cmp x l' with
            | Ok r => Ok (y :: r)
            | Throw e => Throw e
            end
          else Ok (x :: l)
      end
  end.

Fixpoint Array_sort {A} (cmp : A -> A -> result Z) (l : list A)
  : result (list A) :=
  match l with
  | [] => Ok []
  | x :: l' =>
      match Array_sort cmp l' with
      | Ok sorted => sort_insert cmp x sorted
      | Throw e => Throw e
      end
  end.

(** [sortTodos(todos, sortBy = 'createdAt', order = 'desc')]. *)
Definition sortTodos `{host : Host} (todos : list obj) (sortBy order : value)
  : result (list obj) :=
  let sortBy := default_arg sortBy (VStr "createdAt") in
  let order := default_arg order (VStr "desc") in
  Array_sort (comparator sortBy order) todos.

(** *** Statistics *)

(** [(current || 0) + 1]: addition on a number, concatenation otherwise. *)
Definition increment (current : value) : value :=
  if truthy current then
    match current with
    | VNum n => VNum (n + 1)
    | VBool _ => VNum 2
    | v => VStr (ToString v ++ "1")
    end
  else VNum 1.

(** One step of [acc[name] = (acc[name] || 0) + 1] on an accumulator that
    started as [{}].  A name that is not yet an own property reads through
    [Object.prototype]; assigning a string to [__proto__] has no effect. *)
Definition count_step (acc : obj) (name : string) : obj :=
  match acc !! name with
  | Some current => <[name := increment current]> acc
  | None =>
      match inherited_member name with
      | Some member =>
          if String.eqb name "__proto__" then acc
          else <[name := VStr (member ++ "1")]> acc
      | None => <[name := VNum 1]> acc
      end
  end.

(** [todos.reduce((acc, todo) => { acc[todo[field]] = ...; return acc }, {})]. *)
Definition count_by (field : string) (todos : list obj) : obj :=
  fold_left (fun acc todo => count_step acc (ToString (get todo field)))
            todos ∅.

Record stats := Stats {
  total : Z;
  completed : Z;
  active : Z;
  overdue : Z;
  completionRate : Z;
  byCategory : obj;
  byPriority : obj
}.

(** [todo.dueDate && !todo.completed && new Date(todo.dueDate) < new Date()]. *)
Definition is_overdue `{host : Host} (todo : obj) : M bool :=
  if truthy (get todo "dueDate") && negb (truthy (get todo "completed")) then
    let due := Date_getTime (get todo "dueDate") in
    let* now := Date_now in
    ret (match due with
         | Some d => (d <? now)%Z
         | None => false
         end)
  else ret false.

(** [total > 0 ? Math.round((completed / total) * 100) : 0]. *)
Definition completion_rate (completed total : Z) : Z :=
  if (0 <? total)%Z then
    Binary64.Math_round
      (Binary64.mul_count (Binary64.div_counts completed total) 100)
  else 0%Z.

Definition getTodoStats `{host : Host} (todos : list obj) : M stats :=
  let total := Z.of_nat (length todos) in
  let completed :=
    Z.of_nat (length (List.filter (fun todo => truthy (get todo "completed"))
                                  todos)) in
  let active := (total - completed)%Z in
  let* overdue_todos := filterM is_overdue todos in
  let overdue := Z.of_nat (length overdue_todos) in
  let byCategory := count_by "category" todos in
  let byPriority := count_by "priority" todos in
  ret (Stats total completed active overdue
             (completion_rate completed total) byCategory byPriority).

(** *** Distinct values *)

(** [[...new Set(values)]]: the first occurrence of every value, in order
    (a set compares like [===] on this universe). *)
Fixpoint distinct_from (seen values : list value) : list value :=
  match values with
  | [] => []
  | x :: values' =>
      if includes seen x then distinct_from seen values'
      else x :: distinct_from (x :: seen) values'
  end.

Definition distinct (values : list value) : list value :=
  distinct_from [] values.

(** The comparison of [array.sort()] without a comparator: [undefined]
    goes last, other values compare as strings. *)
Definition default_compare (x y : value) : result Z :=
  Ok (match x, y with
      | VUndefined, VUndefined => 0
      | VUndefined, _ => 1
      | _, VUndefined => -1
      | _, _ =>
          if str_ltb (ToString x) (ToString y) then -1
          else if str_ltb (ToString y) (ToString x) then 1 else 0
      end)%Z.

(** [getCategories(todos)]. *)
Definition getCategories (todos : list obj) : result (list value) :=
  Array_sort default_compare
             (distinct (map (fun todo => get todo "category") todos)).

(** What [flatMap] adds for one callback result: the elements of an array,
    or the value itself. *)
Definition flat_one (v : value) : list value :=
  match v with
  | VArr l => l
  | _ => [v]
  end.

(** [getTags(todos)]. *)
Definition getTags (todos : list obj) : result (list value) :=
  Array_sort default_compare
             (distinct (flat_map (fun todo => flat_one (get todo "tags")) todos)).

(** *** Export and import *)

(** [s.split('T')[0]]. *)
Fixpoint before_T (s : string) : string :=
  match s with
  | EmptyString => EmptyString
  | String c s' =>
      if Ascii.eqb c "T" then EmptyString else String c (before_T s')
  end.

(** [exportTodos(todos)]: the serialized list is offered as a download
    named after the day.  The calls into the document are taken to
    succeed. *)
Definition exportTodos (todos : list obj) : M bool :=
  try_catch
    (let dataStr := JSON_stringify (as_array todos) in
     let* t := Date_now in
     let name := "todos-" ++ before_T (toISOString t) ++ ".json" in
     (fun w => (Ok tt, set_downloads (downloads w ++ [(name, dataStr)]) w));;
     ret true)
    (fun error =>
       console_error "Error exporting todos:";;
       ret false).

(** [todo && typeof todo === 'object' && todo.text]: the entries the
    filter of [importTodos] keeps are the objects with a truthy [text]
    (arrays and [null] are objects without one). *)
Definition importable (todo : value) : option obj :=
  match todo with
  | VObj o => if truthy (get o "text") then Some o else None
  | _ => None
  end.

(** The callback that normalizes an entry kept by the filter. *)
Definition normalizeImported (todo : obj) : M obj :=
  let* defaults :=
    createTodo (get todo "text") (get todo "category") (get todo "priority") in
  let merged := spread defaults todo in
  let* id := if truthy (get todo "id") then ret (get todo "id") else uuidv4 in
  let* createdAt :=
    if truthy (get todo "createdAt") then ret (get todo "createdAt")
    else now_iso in
  let* updatedAt := now_iso in
  ret (<["updatedAt" := updatedAt]>
       (<["createdAt" := createdAt]>
       (<["id" := id]> merged))).

(** The outcome of reading a file as text. *)
Inductive file :=
| Unreadable
| Content (t : text).

(** [importTodos(file)]: the promise resolves ([Ok]) or rejects ([Throw])
    once the read has finished. *)
Definition importTodos (f : file) : M (list obj) :=
  match f with
  | Unreadable => throw (Error "Error reading file")
  | Content t =>
      try_catch
        (let* importedTodos := JSON_parse t in
         match importedTodos with
         | VArr entries => mapM normalizeImported (omap importable entries)
         | _ => throw (Error "Invalid file format: expected array of todos")
         end)
        (fun error => throw (Error "Invalid JSON file or file format"))
  end.

End TodoUtils.

(** ** Notions used in the statements *)

Module Notions.
Import JS Eff TodoUtils.

(** The world after [saveTodos(todos)]: the slot holds the serialized
    list, or, when the write fails, the console holds the report. *)
Definition saved (todos : list obj) (w : world) : world :=
  if ls_writable w then
    set_items (insert TODOS_STORAGE_KEY (JSON_stringify (as_array todos))) w
  else set_console (console w ++ ["Error saving todos to localStorage:"]) w.

(** A list has no record with the given id. *)
Definition absent (id : value) (todos : list obj) : Prop :=
  Forall (fun todo => strict_eq (get todo "id") id = false) todos.

(** The ids of a list, in order. *)
Definition ids_of (todos : list obj) : list value :=
  map (fun todo => get todo "id") todos.

(** The record [createTodo] builds from a string in a given world. *)
Definition created (s : string) (category priority : value) (w : world)
  : obj :=
  <["description" := VStr ""]>
  (<["tags" := VArr []]>
  (<["dueDate" := VNull]>
  (<["updatedAt" := VStr (toISOString (clock w (S (ticks w))))]>
  (<["createdAt" := VStr (toISOString (clock w (ticks w)))]>
  (<["priority" := default_arg priority (VStr "medium")]>
  (<["category" := default_arg category (VStr "general")]>
  (<["completed" := VBool false]>
  (<["text" := VStr (trim s)]>
  (<["id" := VStr (uuid_source w (uuid_drawn w))]> ∅))))))))).

(** The world after [createTodo]: one uuid drawn, the clock read twice. *)
Definition after_create (w : world) : world :=
  set_ticks (S (S (ticks w))) (set_drawn (S (uuid_drawn w)) w).

(** The stored payload cannot be used: the storage cannot be read, holds
    nothing under the key, or holds a string that is not JSON. *)
Definition unusable (w : world) : Prop :=
  ls_readable w = false
  \/ ls_items w !! TODOS_STORAGE_KEY = None
  \/ exists s, ls_items w !! TODOS_STORAGE_KEY = Some (Malformed s).

(** The mutation operations, as data. *)
Inductive mutation :=
| Create (text category priority : value)
| Update (id : value) (updates : obj)
| ToggleCompleted (id : value)
| Delete (id : value)
| DeleteMany (ids : list value)
| ClearCompleted
| ToggleAll (completed : value)
| Duplicate (id : value)
| BatchUpdate (ids : list value) (updates : obj).

Definition apply_mutation (m : mutation) (todos : list obj) : M (list obj) :=
  match m with
  | Create text category priority => addTodo todos text category priority
  | Update id updates => updateTodo todos id updates
  | ToggleCompleted id => toggleTodo todos id
  | Delete id => deleteTodo todos id
  | DeleteMany ids => deleteTodos todos ids
  | ClearCompleted => clearCompleted todos
  | ToggleAll completed => toggleAllTodos todos completed
  | Duplicate id => duplicateTodo todos id
  | BatchUpdate ids updates => batchUpdateTodos todos ids updates
  end.

(** The operations that rewrite records where they stand. *)
Definition in_place (m : mutation) : bool :=
  match m with
  | Update _ _ | ToggleCompleted _ | ToggleAll _ | BatchUpdate _ _ => true
  | _ => false
  end.

(** The fields given to an update do not name [id]. *)
Definition leaves_id (m : mutation) : Prop :=
  match m with
  | Update _ updates | BatchUpdate _ updates => updates !! "id" = None
  | _ => True
  end.

(** The id that the uuid source hands out next is not in use. *)
Definition next_uuid_unused (m : mutation) (todos : list obj) (w : world)
  : Prop :=
  match m with
  | Create _ _ _ | Duplicate _ =>
      ~ In (VStr (uuid_source w (uuid_drawn w))) (ids_of todos)
  | _ => True
  end.

(** The arguments with which an operation returns rather than throws. *)
Definition accepted (m : mutation) (todos : list obj) : Prop :=
  match m with
  | Create text _ _ => exists s, text = VStr s /\ trim s <> ""
  | Update _ updates =>
      truthy (get updates "text") = false
      \/ exists s, get updates "text" = VStr s
  | Duplicate id => find_by_id todos id <> None
  | _ => True
  end.

(** The text that [updateTodo] gives a matching record when the fields
    carry the string [s] as text. *)
Definition updated_text (todo : obj) (s : string) : value :=
  if String.eqb s "" then get todo "text" else VStr (trim s).

(** How [updateTodo] relates a record to the one at the same place of the
    result, when the clock is [clk] and is read from reading [lo] up to,
    but not including, reading [hi]. *)
Definition text_updated (id : value) (s : string) (clk : nat -> Z)
    (lo hi : nat) (todo todo' : obj) : Prop :=
  if strict_eq (get todo "id") id then
    get todo' "text" = updated_text todo s
    /\ exists n, (lo <= n)%nat /\ (n < hi)%nat
                 /\ get todo' "updatedAt" = VStr (toISOString (clk n))
  else todo' = todo.

(** The uuid source never hands out the same id twice. *)
Definition never_repeats (w : world) : Prop :=
  forall m n, uuid_source w m = uuid_source w n -> m = n.

(** Every id of the list was handed out by the uuid source. *)
Definition issued (w : world) (todos : list obj) : Prop :=
  Forall (fun todo => exists n, (n < uuid_drawn w)%nat
                                /\ get todo "id" = VStr (uuid_source w n))
         todos.

(** The values that a JSON text carries unchanged. *)
Definition primitive (v : value) : bool :=
  match v with
  | VNull | VBool _ | VNum _ | VStr _ => true
  | VUndefined | VArr _ | VObj _ => false
  end.

Definition is_string (v : value) : bool :=
  match v with
  | VStr _ => true
  | _ => false
  end.

(** A well-formed record: a non-empty text, a category, a priority, a
    non-empty [createdAt], an [updatedAt], a due date that is a string or
    [null], and an id that is not an array or an object (it may be
    missing, or falsy). *)
Definition well_formed (todo : obj) : bool :=
  is_string (get todo "text") && truthy (get todo "text")
  && match get todo "id" with
     | VArr _ | VObj _ => false
     | _ => true
     end
  && is_string (get todo "category")
  && is_string (get todo "priority")
  && is_string (get todo "createdAt") && truthy (get todo "createdAt")
  && is_string (get todo "updatedAt")
  && match get todo "dueDate" with
     | VNull | VStr _ => true
     | _ => false
     end.

(** The object that [JSON.parse(JSON.stringify(todo))] returns. *)
Definition json_obj (todo : obj) : obj :=
  omap (fun x => match x with
                 | VUndefined => None
                 | _ => Some (jsonify x)
                 end) todo.

(** The payload that [exportTodos] offers for download, and its name. *)
Definition exported (todos : list obj) : text :=
  JSON_stringify (as_array todos).

Definition export_name (w : world) : string :=
  "todos-" ++ before_T (toISOString (clock w (ticks w))) ++ ".json".

(** Two worlds differ at most in how far the clock and the uuid source
    have been read: the storage, the console and the downloads are the
    same. *)
Definition same_storage (w w' : world) : Prop :=
  ls_readable w' = ls_readable w
  /\ ls_writable w' = ls_writable w
  /\ ls_items w' = ls_items w
  /\ console w' = console w
  /\ downloads w' = downloads w
  /\ clock w' = clock w
  /\ uuid_source w' = uuid_source w.

(** From one world to the other nothing happened but readings of the
    clock and draws from the uuid source. *)
Definition advances (w w' : world) : Prop :=
  same_storage w w'
  /\ (ticks w <= ticks w')%nat
  /\ (uuid_drawn w <= uuid_drawn w')%nat.

(** How a record relates to the one at the same place after an export and
    an import that runs from world [w] to world [w']: the text, the
    category, the priority, [createdAt] and the due date are the same;
    the id is the same when it is truthy, and otherwise an identifier
    drawn from the uuid source during the import; every other property
    is as JSON carries it; [updatedAt] is a reading of the clock taken
    during the import. *)
Definition round_trip (w w' : world) (todo todo' : obj) : Prop :=
  (forall k,
      In k ["text"; "category"; "priority"; "createdAt"; "dueDate"] ->
      get todo' k = get todo k)
  /\ (if truthy (get todo "id") then get todo' "id" = get todo "id"
      else exists n, (uuid_drawn w <= n)%nat /\ (n < uuid_drawn w')%nat
                     /\ get todo' "id" = VStr (uuid_source w n))
  /\ (forall k v,
         k <> "id" -> k <> "updatedAt" ->
         todo !! k = Some v -> v <> VUndefined ->
         get todo' k = jsonify v)
  /\ exists n, (ticks w <= n)%nat /\ (n < ticks w')%nat
               /\ get todo' "updatedAt" = VStr (toISOString (clock w n)).

(** The values of one property along a returned list. *)
Definition column (k : string) (r : result (list obj)) : option (list value) :=
  match r with
  | Ok l => Some (map (fun todo => get todo k) l)
  | Throw _ => None
  end.

(** What a computation returned, if it returned. *)
Definition returned {A} (outcome : result A * world) : option A :=
  match fst outcome with
  | Ok a => Some a
  | Throw _ => None
  end.

(** The number of completed records of a list. *)
Definition count_completed (todos : list obj) : Z :=
  Z.of_nat (length (List.filter (fun todo => truthy (get todo "completed"))
                                todos)).

(** *** Sorting *)

(** The key of a record under [sortBy], with the default of [sortTodos]. *)
Definition key_of `{host : Host} (sortBy : value) (todo : obj) : result key :=
  sort_key (default_arg sortBy (VStr "createdAt")) todo.

(** The comparator of [sortTodos] with the defaults applied. *)
Definition compare_todos `{host : Host} (sortBy order : value) (a b : obj)
  : result Z :=
  comparator (default_arg sortBy (VStr "createdAt"))
             (default_arg order (VStr "desc")) a b.

Definition is_valid_date `{host : Host} (v : value) : bool :=
  match Date_getTime v with
  | Some _ => true
  | None => false
  end.

(** The property that [sortBy] reads has a value that the comparator can
    order: a string for the text and the category, a priority that does
    not name a member inherited from [Object.prototype], a valid date for
    the timestamps and for a due date that is set. *)
Definition sortable `{host : Host} (sortBy : value) (todo : obj) : bool :=
  let sortBy := default_arg sortBy (VStr "createdAt") in
  if strict_eq sortBy (VStr "text") then is_string (get todo "text")
  else if strict_eq sortBy (VStr "priority") then
    match inherited_member (ToString (get todo "priority")) with
    | Some _ => false
    | None => true
    end
  else if strict_eq sortBy (VStr "category") then
    is_string (get todo "category")
  else if strict_eq sortBy (VStr "completed") then true
  else if strict_eq sortBy (VStr "dueDate") then
    negb (truthy (get todo "dueDate")) || is_valid_date (get todo "dueDate")
  else if strict_eq sortBy (VStr "updatedAt") then
    is_valid_date (get todo "updatedAt")
  else is_valid_date (get todo "createdAt").

(** The comparator does not place [a] after [b]. *)
Definition not_after `{host : Host} (sortBy order : value) (a b : obj) : Prop :=
  exists c, compare_todos sortBy order a b = Ok c /\ (c <= 0)%Z.

(** The comparator places [a] after [b]. *)
Definition placed_after `{host : Host} (sortBy order : value) (a b : obj)
  : bool :=
  match compare_todos sortBy order a b with
  | Ok c => (0 <? c)%Z
  | Throw _ => false
  end.

(** The keys of [a] and [b] compare equal. *)
Definition tie `{host : Host} (sortBy order : value) (a b : obj) : Prop :=
  compare_todos sortBy order a b = Ok 0%Z.

Definition key_eqb (a b : key) : bool :=
  match a, b with
  | KNum (Some x), KNum (Some y) => (x =? y)%Z
  | KNum None, KNum None => true
  | KStr x, KStr y => String.eqb x y
  | _, _ => false
  end.

(** The record has the key [k]. *)
Definition has_key `{host : Host} (sortBy : value) (k : key) (todo : obj)
  : bool :=
  match key_of sortBy todo with
  | Ok k' => key_eqb k' k
  | Throw _ => false
  end.

(** The kind of a key: a number other than [NaN], or a string. *)
Definition kind_of (k : key) : option bool :=
  match k with
  | KNum (Some _) => Some true
  | KNum None => None
  | KStr _ => Some false
  end.

(** The record has a key of the given kind. *)
Definition keyed `{host : Host} (sortBy : value) (kind : bool) (todo : obj)
  : Prop :=
  exists k, key_of sortBy todo = Ok k /\ kind_of k = Some kind.

(** Insertion sort with a comparator that always returns: each element
    goes past the elements that it is placed after. *)
Fixpoint insert_by {A} (after : A -> A -> bool) (x : A) (l : list A)
  : list A :=
  match l with
  | [] => [x]
  | y :: l' => if after x y then y :: insert_by after x l' else x :: l
  end.

Fixpoint sort_by {A} (after : A -> A -> bool) (l : list A) : list A :=
  match l with
  | [] => []
  | x :: l' => insert_by after x (sort_by after l')
  end.

(** *** Further notions *)

(** How a [map] that rebuilds the selected records with a fresh timestamp
    relates a record to the one at the same place of the result: a
    selected record is rebuilt with a reading of the clock [clk] taken
    from reading [lo] up to, but not including, reading [hi]; any other
    record is returned as it is. *)
Definition stamped (selected : obj -> bool) (rebuild : obj -> value -> obj)
    (clk : nat -> Z) (lo hi : nat) (todo todo' : obj) : Prop :=
  if selected todo then
    exists n, (lo <= n)%nat /\ (n < hi)%nat
              /\ todo' = rebuild todo (VStr (toISOString (clk n)))
  else todo' = todo.

(** The text that [updateTodo] gives a matching record. *)
Definition text_after_update (updates todo : obj) : value :=
  match get updates "text" with
  | VStr s => if String.eqb s "" then get todo "text" else VStr (trim s)
  | _ => get todo "text"
  end.

(** The record that [updateTodo] builds from a matching record and the
    time of the update. *)
Definition update_of (updates todo : obj) (updatedAt : value) : obj :=
  <["text" := text_after_update updates todo]>
  (<["updatedAt" := updatedAt]> (spread todo updates)).

(** The record that [batchUpdateTodos] builds. *)
Definition batch_update_of (updates todo : obj) (updatedAt : value) : obj :=
  <["updatedAt" := updatedAt]> (spread todo updates).

(** The record that [toggleAllTodos] builds. *)
Definition completed_set (completed : value) (todo : obj) (updatedAt : value)
  : obj :=
  <["updatedAt" := updatedAt]> (<["completed" := completed]> todo).

(** The record has the given id. *)
Definition has_id (id : value) (todo : obj) : bool :=
  strict_eq (get todo "id") id.

(** The effects of a computation are confined to the clock and the uuid
    source. *)
Definition confined {A} (m : M A) : Prop :=
  forall w r w', m w = (r, w') -> same_storage w w'.

(** The properties an imported or stored entry gets when it lacks them. *)
Definition record_defaults : obj :=
  <["description" := VStr ""]>
  (<["tags" := VArr []]>
  (<["dueDate" := VNull]>
  (<["priority" := VStr "medium"]>
  (<["category" := VStr "general"]>
  (<["completed" := VBool false]> ∅))))).

(** How the record that [importTodos] builds relates to the entry [o] it
    is built from, the import running from world [w] to world [w']. *)
Definition imported_from (w w' : world) (o todo : obj) : Prop :=
  (forall k, ~ In k ["id"; "createdAt"; "updatedAt"] ->
             todo !! k = match o !! k with
                         | Some v => Some v
                         | None => record_defaults !! k
                         end)
  /\ (if truthy (get o "id") then get todo "id" = get o "id"
      else exists n, (uuid_drawn w <= n)%nat /\ (n < uuid_drawn w')%nat
                     /\ get todo "id" = VStr (uuid_source w n))
  /\ (if truthy (get o "createdAt")
      then get todo "createdAt" = get o "createdAt"
      else exists n, (ticks w <= n)%nat /\ (n < ticks w')%nat
                     /\ get todo "createdAt" = VStr (toISOString (clock w n)))
  /\ exists n, (ticks w <= n)%nat /\ (n < ticks w')%nat
               /\ get todo "updatedAt" = VStr (toISOString (clock w n)).






(** [a] comes strictly before [b] in the order of [array.sort()]. *)
Definition ascending (a b : value) : Prop :=
  str_ltb (ToString a) (ToString b) = true.

(** The tags of the record are an array of strings. *)
Definition string_tags (todo : obj) : bool :=
  match get todo "tags" with
  | VArr tags => forallb is_string tags
  | _ => false
  end.

(** The number of records whose property [field] names [name]. *)
Definition count_named (field name : string) (todos : list obj) : nat :=
  length (List.filter
            (fun todo => String.eqb (ToString (get todo field)) name) todos).

(** How a tally shows a count: no property for none. *)
Definition counted (n : nat) : option value :=
  match n with
  | O => None
  | S _ => Some (VNum (Z.of_nat n))
  end.

(** The record is overdue at the time [now]: it has a due date, is not
    completed and its due date is a date before [now]. *)
Definition overdue_at `{host : Host} (now : Z) (todo : obj) : bool :=
  truthy (get todo "dueDate") && negb (truthy (get todo "completed"))
  && match Date_getTime (get todo "dueDate") with
     | Some due => (due <? now)%Z
     | None => false
     end.

Definition count_overdue `{host : Host} (now : Z) (todos : list obj) : Z :=
  Z.of_nat (length (List.filter (overdue_at now) todos)).

(** The properties of a record that [createTodo] builds. *)
Definition record_keys : list string :=
  ["id"; "text"; "completed"; "category"; "priority"; "createdAt";
   "updatedAt"; "dueDate"; "tags"; "description"].

(** The storage keeps the record as it is: it has the properties of a
    record that [createTodo] builds, truthy timestamps, and is the object
    that [JSON.parse(JSON.stringify(todo))] returns. *)
Definition kept_by_storage (todo : obj) : Prop :=
  json_obj todo = todo
  /\ (forall k, In k record_keys -> todo !! k <> None)
  /\ truthy (get todo "createdAt") = true
  /\ truthy (get todo "updatedAt") = true.

(** How the record that [loadTodos] builds relates to the stored object
    [o] it is built from, the load running from world [w] to world [w']. *)
Definition loaded_from (w w' : world) (o todo : obj) : Prop :=
  (forall k, ~ In k ["id"; "text"; "createdAt"; "updatedAt"] ->
             todo !! k = match o !! k with
                         | Some v => Some v
                         | None => record_defaults !! k
                         end)
  /\ get todo "text" = match o !! "text" with
                       | Some v => v
                       | None => VStr ""
                       end
  /\ match o !! "id" with
     | Some v => get todo "id" = v
     | None => exists n, (uuid_drawn w <= n)%nat /\ (n < uuid_drawn w')%nat
                         /\ get todo "id" = VStr (uuid_source w n)
     end
  /\ (if truthy (get o "createdAt")
      then get todo "createdAt" = get o "createdAt"
      else exists n, (ticks w <= n)%nat /\ (n < ticks w')%nat
                     /\ get todo "createdAt" = VStr (toISOString (clock w n)))
  /\ (if truthy (get o "updatedAt")
      then get todo "updatedAt" = get o "updatedAt"
      else exists n, (ticks w <= n)%nat /\ (n < ticks w')%nat
                     /\ get todo "updatedAt" = VStr (toISOString (clock w n))).

End Notions.

(** ** Sample data *)

Module Samples.
Import JS Eff TodoUtils.

(** A world with working storage, a clock that starts on 2024-01-01 and
    advances a second per reading, and a uuid source that counts. *)
Definition world0 : world :=
  World true true ∅
        (fun n => (1704067200000 + 1000 * Z.of_nat n)%Z) 0
        (fun n => "uuid-" ++ pretty n) 0 [] [].


(** An implementation that reads no string but those whose time value the
    language fixes. *)
Definition plain_host : Host := fun _ => None.

Definition record (id text category priority : string) (completed : bool)
  : obj :=
  <["description" := VStr ""]>
  (<["tags" := VArr []]>
  (<["dueDate" := VNull]>
  (<["updatedAt" := VStr "2023-12-31T08:00:00.000Z"]>
  (<["createdAt" := VStr "2023-12-31T08:00:00.000Z"]>
  (<["priority" := VStr priority]>
  (<["category" := VStr category]>
  (<["completed" := VBool completed]>
  (<["text" := VStr text]>
  (<["id" := VStr id]> ∅))))))))).

Definition milk : obj := record "a" "Buy milk" "shopping" "low" false.
Definition rent : obj := record "b" "Pay rent" "personal" "high" true.
Definition mum : obj := record "c" "Call mum" "personal" "medium" false.

End Samples.

(** * Properties *)

Import JS Eff TodoUtils Notions Samples.

(** Unfolds the primitive effects and runs them. *)
Tactic Notation "run_effects" :=
  cbv beta iota delta [bind ret throw uuidv4 now_iso Date_now].
Tactic Notation "run_effects" "in" hyp(H) :=
  cbv beta iota delta [bind ret throw uuidv4 now_iso Date_now] in H.

(** Equations between closed terms are checked by evaluation. *)
Ltac by_evaluation :=
  match goal with
  | |- ?l = ?r => vm_cast_no_check (@eq_refl _ r)
  end.

(** ** The embedding on concrete values *)

Example toISOString_epoch : JS.toISOString 0 = "1970-01-01T00:00:00.000Z".
Proof. reflexivity. Qed.

Example toISOString_2024 :
  JS.toISOString 1709210096789 = "2024-02-29T12:34:56.789Z".
Proof. by_evaluation. Qed.

(** Strings whose time value the language fixes, for every
    implementation: the output of [toISOString], a date alone, a date and
    time without milliseconds or seconds, and one with an offset. *)
Example Date_parse_2024 `{host : Host} :
  Date_parse "2024-02-29T12:34:56.789Z" = Some 1709210096789%Z.
Proof. by_evaluation. Qed.

Example Date_parse_day `{host : Host} :
  Date_parse "2024-03-01" = Some 1709251200000%Z.
Proof. by_evaluation. Qed.

Example Date_parse_seconds `{host : Host} :
  Date_parse "2020-01-01T00:00:00Z" = Some 1577836800000%Z.
Proof. by_evaluation. Qed.

Example Date_parse_minutes `{host : Host} :
  Date_parse "2020-01-01T00:00Z" = Some 1577836800000%Z.
Proof. by_evaluation. Qed.

Example Date_parse_offset `{host : Host} :
  Date_parse "2020-01-01T01:30:00+01:30" = Some 1577836800000%Z.
Proof. by_evaluation. Qed.

Example Date_parse_month `{host : Host} :
  Date_parse "2020-01" = Some 1577836800000%Z
  /\ Date_parse "2020" = Some 1577836800000%Z
  /\ Date_parse "+002020-01-01" = Some 1577836800000%Z.
Proof. repeat split; by_evaluation. Qed.

(** Strings whose time value is the implementation's: a date and time
    without an offset (local time), a day that its month does not have,
    and a string that is not in the format. *)
Example Date_parse_host `{host : Host} :
  Date_parse "2020-01-01T00:00" = host_parse "2020-01-01T00:00"
  /\ Date_parse "2021-02-30" = host_parse "2021-02-30"
  /\ Date_parse "tomorrow" = host_parse "tomorrow".
Proof. repeat split; reflexivity. Qed.

Example trim_both_ends : JS.trim "  Buy  milk  " = "Buy  milk".
Proof. reflexivity. Qed.

Example trim_blank : JS.trim "   " = "".
Proof. reflexivity. Qed.

Example toLowerCase_mixed : JS.toLowerCase "Buy MILK" = "buy milk".
Proof. reflexivity. Qed.

(** 23/40 is 0.575; the nearest double is [0x1.2666666666666p-1], and its
    product with 100 rounds to the double just below 57.5. *)
Example div_counts_23_40 :
  Binary64.div_counts 23 40 = Binary64.Double 5179139571476070 (-53).
Proof. by_evaluation. Qed.

Example mul_count_23_40 :
  Binary64.mul_count (Binary64.div_counts 23 40) 100
  = Binary64.Double 8092405580431359 (-47).
Proof. by_evaluation. Qed.

(** On every quotient of counts up to 150, and on some large ones, the
    operations agree with the primitive binary64 arithmetic. *)
Example binary64_agrees_with_primitive :
  forallb (fun b => forallb (fun a => Binary64.agrees_with_primitive
                                        (Z.of_nat a) (Z.of_nat b))
                            (seq 0 (S b)))
          (seq 1 150)
  = true
  /\ forallb (fun '(a, b) => Binary64.agrees_with_primitive a b)
             [(1, 4294967295); (4294967294, 4294967295);
              (2147483647, 4294967295); (123456789, 987654321);
              (29, 200); (1, 3); (1, 1); (0, 7)]%Z
     = true.
Proof. split; by_evaluation. Qed.

Example Math_round_half : Binary64.Math_round (Binary64.Double 5 (-1)) = 3%Z.
Proof. reflexivity. Qed.


(** ** Basic facts about values *)

Lemma strict_eq_VStr (v : value) (s : string) :
  strict_eq v (VStr s) = true <-> v = VStr s.
Proof.
  destruct v; simpl; split; intros H; try discriminate.
  - apply String.eqb_eq in H. now subst.
  - inversion H. apply String.eqb_refl.
Qed.

Lemma strict_eq_VStr_false (v : value) (s : string) :
  v <> VStr s -> strict_eq v (VStr s) = false.
Proof.
  intros H. destruct (strict_eq v (VStr s)) eqn:E; [|reflexivity].
  apply strict_eq_VStr in E. contradiction.
Qed.

Lemma strict_eq_eq (a b : value) : strict_eq a b = true -> a = b.
Proof.
  destruct a, b; simpl; intros H; try discriminate; try reflexivity.
  - apply Bool.eqb_prop in H. now subst.
  - apply Z.eqb_eq in H. now subst.
  - apply String.eqb_eq in H. now subst.
Qed.

(** ** The storage write of every mutation *)

Lemma saveTodos_spec (todos : list obj) (w : world) :
  saveTodos todos w = (Ok (ls_writable w), saved todos w).
Proof.
  unfold saveTodos, saved, try_catch, bind, localStorage_setItem, ret,
    console_error.
  destruct (ls_writable w); reflexivity.
Qed.

Lemma save_then_return (todos : list obj) (w : world) :
  (saveTodos todos;; ret todos) w = (Ok todos, saved todos w).
Proof. unfold bind. rewrite saveTodos_spec. reflexivity. Qed.

Lemma bind_Ok {A B} (m : M A) (k : A -> M B) (w : world) (a : A)
    (w' : world) :
  m w = (Ok a, w') -> bind m k w = k a w'.
Proof. intros H. unfold bind. now rewrite H. Qed.

(** A [map] whose callback returns each entry as it is. *)
Lemma mapM_pass_through (f : obj -> M obj) (todos : list obj) (w : world) :
  (forall todo, In todo todos -> f todo = ret todo) ->
  mapM f todos w = (Ok todos, w).
Proof.
  revert w. induction todos as [|todo todos IH]; intros w H; simpl.
  - reflexivity.
  - unfold bind. rewrite (H todo) by now left. unfold ret at 1.
    rewrite IH by (intros; apply H; now right). reflexivity.
Qed.

Lemma filter_keeps_all {A} (p : A -> bool) (l : list A) :
  (forall x, In x l -> p x = true) -> List.filter p l = l.
Proof.
  induction l as [|x l IH]; intros H; simpl; [reflexivity|].
  rewrite (H x) by now left. f_equal. apply IH. intros; apply H; now right.
Qed.

(** ** Filtering by status *)

(** C10: for every list and every status value other than ["active"] and
    ["completed"], [filterTodos] returns the list itself, in content and
    order; ["all"], the empty string and an unrecognized string are
    instances. *)
Theorem filterTodos_other_status (todos : list obj) (status : value) :
  status <> VStr "active" ->
  status <> VStr "completed" ->
  filterTodos todos status = todos.
Proof.
  intros Ha Hc. unfold filterTodos.
  rewrite (strict_eq_VStr_false _ _ Ha), (strict_eq_VStr_false _ _ Hc).
  reflexivity.
Qed.

Lemma filterTodos_other_status_witness :
  filterTodos [milk; rent] (VStr "all") = [milk; rent].
Proof. apply filterTodos_other_status; discriminate. Defined.

Example filterTodos_active : filterTodos [milk; rent; mum] (VStr "active") = [milk; mum].
Proof. by_evaluation. Qed.

(** ** Operations on an id that is absent *)

Lemma updateTodo_absent (todos : list obj) (id : value) (updates : obj)
    (w : world) :
  absent id todos ->
  updateTodo todos id updates w = (Ok todos, saved todos w).
Proof.
  intros H. unfold updateTodo, bind at 1.
  rewrite mapM_pass_through.
  - apply save_then_return.
  - intros todo Hin. unfold absent in H. rewrite List.Forall_forall in H.
    now rewrite (H todo Hin).
Qed.

(** C6: for every list and every id that no record of it has, [deleteTodo],
    [updateTodo] and [toggleTodo] each return the list as it was, after
    writing that same list to storage. *)
Theorem absent_id_is_no_op (todos : list obj) (id : value) (updates : obj)
    (w : world) :
  absent id todos ->
  deleteTodo todos id w = (Ok todos, saved todos w)
  /\ updateTodo todos id updates w = (Ok todos, saved todos w)
  /\ toggleTodo todos id w = (Ok todos, saved todos w).
Proof.
  intros H. split; [|split].
  - unfold deleteTodo. rewrite filter_keeps_all.
    + apply save_then_return.
    + intros todo Hin. unfold absent in H. rewrite List.Forall_forall in H.
      now rewrite (H todo Hin).
  - now apply updateTodo_absent.
  - unfold toggleTodo. now apply updateTodo_absent.
Qed.

Lemma absent_id_is_no_op_witness :
  deleteTodo [milk; rent] (VStr "z") world0
    = (Ok [milk; rent], saved [milk; rent] world0)
  /\ updateTodo [milk; rent] (VStr "z") (<["text" := VStr "Other"]> ∅) world0
    = (Ok [milk; rent], saved [milk; rent] world0)
  /\ toggleTodo [milk; rent] (VStr "z") world0
    = (Ok [milk; rent], saved [milk; rent] world0).
Proof.
  apply absent_id_is_no_op. repeat constructor.
Defined.

(** The scenario of the specification: toggling a record that is present
    flips [completed] and takes a new [updatedAt]. *)
Example toggleTodo_present :
  column "completed" (fst (toggleTodo [milk] (VStr "a") world0))
  = Some [VBool true]
  /\ column "updatedAt" (fst (toggleTodo [milk] (VStr "a") world0))
     = Some [VStr "2024-01-01T00:00:00.000Z"].
Proof. split; by_evaluation. Qed.

(** ** Creating a record *)

Lemma createTodo_spec (s : string) (category priority : value) (w : world) :
  createTodo (VStr s) category priority w
  = (Ok (created s category priority w), after_create w).
Proof. reflexivity. Qed.

Lemma default_arg_idem (v d : value) :
  default_arg (default_arg v d) d = default_arg v d.
Proof. destruct v; try reflexivity. simpl. destruct d; reflexivity. Qed.

Lemma addTodo_blank (todos : list obj) (s : string) (category priority : value)
    (w : world) :
  trim s = "" ->
  addTodo todos (VStr s) category priority w
  = (Throw (Error "Todo text cannot be empty"), w).
Proof.
  intros H. unfold addTodo.
  rewrite (bind_Ok _ _ w true w); [reflexivity|].
  cbn [truthy]. destruct (String.eqb s ""); cbn [negb]; [reflexivity|].
  unfold bind, call_trim, ret. rewrite H. reflexivity.
Qed.

Lemma addTodo_nonblank (todos : list obj) (s : string)
    (category priority : value) (w : world) :
  trim s <> "" ->
  addTodo todos (VStr s) category priority w
  = (Ok (created s category priority w :: todos),
     saved (created s category priority w :: todos) (after_create w)).
Proof.
  intros H. unfold addTodo.
  assert (Hs : String.eqb s "" = false).
  { apply String.eqb_neq. intros ->. now apply H. }
  assert (Ht : String.eqb (trim s) "" = false) by now apply String.eqb_neq.
  rewrite (bind_Ok _ _ w false w).
  2:{ cbn [truthy]. rewrite Hs. cbn [negb].
      unfold bind, call_trim, ret. cbn [truthy]. rewrite Ht. reflexivity. }
  cbn beta iota.
  rewrite (bind_Ok _ _ _ _ _ (createTodo_spec _ _ _ _)).
  rewrite save_then_return. unfold created.
  rewrite !default_arg_idem. reflexivity.
Qed.

(** C4: [addTodo] throws the validation error exactly when the text is
    empty after trimming, the empty string and a string of blanks
    included; the world is then as it was (nothing is written), and
    otherwise the call returns a list. *)
Theorem addTodo_validation (todos : list obj) (s : string)
    (category priority : value) (w : world) :
  (trim s = "" <->
   addTodo todos (VStr s) category priority w
   = (Throw (Error "Todo text cannot be empty"), w))
  /\ (trim s <> "" <->
      exists updatedTodos w',
        addTodo todos (VStr s) category priority w = (Ok updatedTodos, w'))
  /\ addTodo todos (VStr "") category priority w
     = (Throw (Error "Todo text cannot be empty"), w)
  /\ addTodo todos (VStr "   ") category priority w
     = (Throw (Error "Todo text cannot be empty"), w).
Proof.
  assert (D : {trim s = ""} + {trim s <> ""}) by apply string_dec.
  split; [|split; [|split]].
  - split; [apply addTodo_blank|].
    intros H. destruct D as [E|E]; [assumption|].
    rewrite (addTodo_nonblank _ _ _ _ _ E) in H. discriminate.
  - split.
    + intros H. rewrite (addTodo_nonblank _ _ _ _ _ H). eauto.
    + intros [l [w' H]] E. rewrite (addTodo_blank _ _ _ _ _ E) in H.
      discriminate.
  - now apply addTodo_blank.
  - now apply addTodo_blank.
Qed.

Lemma addTodo_validation_witness :
  addTodo [milk] (VStr "  ") VUndefined VUndefined world0
  = (Throw (Error "Todo text cannot be empty"), world0).
Proof.
  apply (proj1 (addTodo_validation [milk] "  " VUndefined VUndefined world0)).
  reflexivity.
Defined.




(** The uuid source hands out an identifier that is not an id of the list
    along the lists that [addTodo] builds, when the source never repeats
    an identifier. *)
Lemma issued_next_unused (w : world) (todos : list obj) :
  never_repeats w -> issued w todos ->
  Forall (fun todo => get todo "id" <> VStr (uuid_source w (uuid_drawn w)))
         todos.
Proof.
  intros Hinj H. eapply List.Forall_impl; [|exact H]. cbn.
  intros todo [n [Hn ->]] E. inversion E as [E'].
  apply Hinj in E'. lia.
Qed.

Lemma addTodo_keeps_issued (todos : list obj) (s : string)
    (category priority : value) (w : world) :
  trim s <> "" -> issued w todos ->
  exists updatedTodos w',
    addTodo todos (VStr s) category priority w = (Ok updatedTodos, w')
    /\ uuid_source w' = uuid_source w
    /\ issued w' updatedTodos.
Proof.
  intros Hs H. rewrite (addTodo_nonblank _ _ _ _ _ Hs).
  eexists _, _. split; [reflexivity|].
  assert (Hsrc : forall l w0, uuid_source (saved l w0) = uuid_source w0
                              /\ uuid_drawn (saved l w0) = uuid_drawn w0).
  { intros l w0. unfold saved. destruct (ls_writable w0); split; reflexivity. }
  destruct (Hsrc (created s category priority w :: todos) (after_create w))
    as [E1 E2].
  split; [exact E1|].
  unfold issued. rewrite E1, E2. cbn [after_create set_ticks set_drawn
    uuid_source uuid_drawn]. constructor.
  - exists (uuid_drawn w). split; [lia|reflexivity].
  - eapply List.Forall_impl; [|exact H]. cbn.
    intros todo [n [Hn E]]. exists n. split; [lia|assumption].
Qed.

(** ** Loading *)

Lemma loadTodos_returns (w : world) :
  exists todos w', loadTodos w = (Ok todos, w').
Proof.
  unfold loadTodos, try_catch.
  match goal with |- context [match ?b w with _ => _ end] =>
    destruct (b w) as [[todos|e] w'] end.
  - eauto.
  - unfold bind, console_error, ret. eauto.
Qed.

(** C9: [loadTodos] never throws, whatever the storage holds; when the
    storage cannot be read, holds nothing under the key or holds a string
    that is not JSON, it returns the empty list. *)
Theorem loadTodos_fails_soft (w : world) :
  (exists todos w', loadTodos w = (Ok todos, w'))
  /\ (unusable w -> exists w', loadTodos w = (Ok [], w')).
Proof.
  split; [apply loadTodos_returns|].
  unfold loadTodos, try_catch, bind at 1, localStorage_getItem.
  intros [H|[H|[s H]]].
  - rewrite H. unfold bind, console_error, ret. eauto.
  - destruct (ls_readable w); [rewrite H|];
      unfold bind, console_error, ret; eauto.
  - destruct (ls_readable w); [rewrite H|];
      unfold bind, console_error, ret; [|eauto].
    simpl. destruct (String.eqb s ""); simpl; eauto.
Qed.

Lemma loadTodos_fails_soft_witness :
  exists w',
    loadTodos
      (set_items (insert TODOS_STORAGE_KEY (Malformed "[{oops")) world0)
    = (Ok [], w').
Proof.
  apply (proj2 (loadTodos_fails_soft _)).
  right. right. exists "[{oops". reflexivity.
Defined.

(** A stored value that is not an array, and an array with a [null]
    entry, make the callback throw inside the [try]. *)
Example loadTodos_not_an_array :
  fst (loadTodos (set_items (insert TODOS_STORAGE_KEY (Json (VNum 5))) world0))
  = Ok [].
Proof. reflexivity. Qed.

Example loadTodos_null_entry :
  fst (loadTodos
         (set_items (insert TODOS_STORAGE_KEY (Json (VArr [VNull]))) world0))
  = Ok [].
Proof. reflexivity. Qed.

(** A record stored under an older schema gains the default fields. *)
Example loadTodos_normalizes :
  fst (loadTodos
         (set_items
            (insert TODOS_STORAGE_KEY
               (Json (VArr [VObj (<["text" := VStr "Old"]>
                                  (<["id" := VNum 7]> ∅))])))
            world0))
  = Ok [<["id" := VNum 7]>
        (<["text" := VStr "Old"]>
         (<["createdAt" := VStr "2024-01-01T00:00:02.000Z"]>
          (<["updatedAt" := VStr "2024-01-01T00:00:03.000Z"]>
           (created "" VUndefined VUndefined world0))))].
Proof. by_evaluation. Qed.

(** ** Reading properties of built records *)

Lemma get_insert_eq (o : obj) (k : string) (v : value) :
  get (<[k := v]> o) k = v.
Proof. unfold get. now rewrite lookup_insert_eq. Qed.

Lemma get_insert_ne (o : obj) (k k' : string) (v : value) :
  k <> k' -> get (<[k := v]> o) k' = get o k'.
Proof. intros H. unfold get. now rewrite lookup_insert_ne. Qed.

Lemma get_spread_absent (todo updates : obj) (k : string) :
  updates !! k = None -> get (spread todo updates) k = get todo k.
Proof.
  intros H. unfold get, spread. now rewrite lookup_union_r.
Qed.

Lemma get_spread_present (todo updates : obj) (k : string) (v : value) :
  updates !! k = Some v -> get (spread todo updates) k = v.
Proof.
  intros H. unfold get, spread.
  now rewrite (lookup_union_Some_l _ _ _ _ H).
Qed.

(** ** Updating a record *)

Lemma updated_string_text (todo updates : obj) (s : string) (w : world) :
  get updates "text" = VStr s ->
  updated todo updates w
  = (Ok (<["text" := updated_text todo s]>
         (<["updatedAt" := VStr (toISOString (clock w (ticks w)))]>
          (spread todo updates))),
     set_ticks (S (ticks w)) w).
Proof.
  intros H. unfold updated, updated_text, bind, now_iso, Date_now, ret.
  rewrite H. cbn [truthy call_trim]. unfold ret.
  destruct (String.eqb s ""); reflexivity.
Qed.

Lemma text_updated_weaken (id : value) (s : string) (clk : nat -> Z)
    (lo lo' hi : nat) (todo todo' : obj) :
  (lo <= lo')%nat ->
  text_updated id s clk lo' hi todo todo' ->
  text_updated id s clk lo hi todo todo'.
Proof.
  unfold text_updated. intros Hlo. destruct (strict_eq _ _); [|auto].
  intros [Ht [n [H1 [H2 H3]]]]. split; [assumption|].
  exists n. repeat split; [lia|assumption|assumption].
Qed.

Lemma mapM_updated (todos : list obj) (id : value) (updates : obj)
    (s : string) (w : world) :
  get updates "text" = VStr s ->
  exists updatedTodos w',
    mapM (fun todo =>
            if strict_eq (get todo "id") id then updated todo updates
            else ret todo) todos w
    = (Ok updatedTodos, w')
    /\ clock w' = clock w /\ (ticks w <= ticks w')%nat
    /\ ls_writable w' = ls_writable w
    /\ Forall2 (text_updated id s (clock w) (ticks w) (ticks w'))
               todos updatedTodos.
Proof.
  intros Htext. revert w.
  induction todos as [|todo todos IH]; intros w.
  - exists [], w. repeat split; auto.
  - cbn [mapM]. destruct (strict_eq (get todo "id") id) eqn:E.
    + rewrite (bind_Ok _ _ _ _ _ (updated_string_text _ _ _ _ Htext)).
      destruct (IH (set_ticks (S (ticks w)) w))
        as [l [w' [Hl [Hc [Ht [Hw HF]]]]]].
      rewrite (bind_Ok _ _ _ _ _ Hl). unfold ret.
      eexists _, w'. split; [reflexivity|].
      cbn in Hc, Ht, Hw. repeat split; [assumption|lia|assumption|].
      constructor.
      * unfold text_updated. rewrite E. split.
        -- now rewrite get_insert_eq.
        -- exists (ticks w). repeat split; [lia|lia|].
           rewrite get_insert_ne by discriminate. now rewrite get_insert_eq.
      * eapply Forall2_impl; [exact HF|]. intros a b Hab. cbn in Hab.
        eapply text_updated_weaken; [|exact Hab]. lia.
    + unfold bind at 1, ret at 1.
      destruct (IH w) as [l [w' [Hl [Hc [Ht [Hw HF]]]]]].
      rewrite (bind_Ok _ _ _ _ _ Hl). unfold ret.
      eexists _, w'. split; [reflexivity|].
      repeat split; try assumption.
      constructor; [|assumption].
      unfold text_updated. now rewrite E.
Qed.

(** C5, as the code has it: for every list, id and fields whose text is a
    string, [updateTodo] returns a list that agrees with the input at
    every place whose record has another id; a record with the id gets
    the trimmed text, or keeps its own text when the given text is the
    empty string, and gets as [updatedAt] a reading of the clock taken
    during the call. *)
Theorem updateTodo_text (todos : list obj) (id : value) (updates : obj)
    (s : string) (w : world) :
  get updates "text" = VStr s ->
  exists updatedTodos w',
    updateTodo todos id updates w = (Ok updatedTodos, w')
    /\ Forall2 (text_updated id s (clock w) (ticks w) (ticks w'))
               todos updatedTodos.
Proof.
  intros Htext.
  destruct (mapM_updated todos id updates s w Htext)
    as [l [w' [Hl [Hc [Ht [Hw HF]]]]]].
  exists l, (saved l w'). unfold updateTodo.
  rewrite (bind_Ok _ _ _ _ _ Hl). rewrite save_then_return.
  split; [reflexivity|].
  replace (ticks (saved l w')) with (ticks w'); [assumption|].
  unfold saved. destruct (ls_writable w'); reflexivity.
Qed.

Lemma updateTodo_text_witness :
  exists updatedTodos w',
    updateTodo [milk; rent] (VStr "a") (<["text" := VStr " Buy oat milk "]> ∅)
               world0
    = (Ok updatedTodos, w')
    /\ Forall2 (text_updated (VStr "a") " Buy oat milk " (clock world0)
                             (ticks world0) (ticks w'))
               [milk; rent] updatedTodos.
Proof.
  apply updateTodo_text. reflexivity.
Defined.

Example updateTodo_trims :
  fst (updateTodo [milk; rent] (VStr "a")
                  (<["text" := VStr " Buy oat milk "]> ∅) world0)
  = Ok [<["text" := VStr "Buy oat milk"]>
        (<["updatedAt" := VStr "2024-01-01T00:00:00.000Z"]> milk); rent].
Proof. by_evaluation. Qed.

(** C5 as stated fails on the empty string: the fields contain a text, the
    record with the id keeps ["Buy milk"], which is not the given text
    trimmed. *)
Lemma updateTodo_empty_text_kept :
  let updates : obj := <["text" := VStr ""]> ∅ in
  let todo' := <["updatedAt" := VStr "2024-01-01T00:00:00.000Z"]> milk in
  get updates "text" = VStr ""
  /\ fst (updateTodo [milk] (VStr "a") updates world0) = Ok [todo']
  /\ get todo' "text" = VStr "Buy milk"
  /\ get todo' "text" <> VStr (trim "").
Proof.
  cbv zeta. split; [reflexivity|].
  split; [by_evaluation|].
  split; [by_evaluation|].
  vm_compute. discriminate.
Qed.

(** ** Ids under the mutation operations *)

Lemma In_ids_of_filter (p : obj -> bool) (todos : list obj) (v : value) :
  In v (ids_of (List.filter p todos)) -> In v (ids_of todos).
Proof.
  unfold ids_of. rewrite !in_map_iff. intros [todo [E H]].
  apply filter_In in H. exists todo. tauto.
Qed.

Lemma NoDup_ids_of_filter (p : obj -> bool) (todos : list obj) :
  List.NoDup (ids_of todos) -> List.NoDup (ids_of (List.filter p todos)).
Proof.
  induction todos as [|todo todos IH]; intros H; cbn.
  - constructor.
  - inversion H as [|x l Hnotin Hrest]; subst.
    destruct (p todo); cbn.
    + constructor; [|now apply IH].
      intros Hin. apply Hnotin. eapply In_ids_of_filter. exact Hin.
    + now apply IH.
Qed.

(** A [map] whose callback keeps the id keeps the ids. *)
Lemma mapM_keeps_ids (f : obj -> M obj) (todos : list obj) :
  (forall todo w r w', f todo w = (Ok r, w') -> get r "id" = get todo "id") ->
  forall w updatedTodos w',
    mapM f todos w = (Ok updatedTodos, w') ->
    ids_of updatedTodos = ids_of todos.
Proof.
  intros Hf. induction todos as [|todo todos IH]; intros w l w' H.
  - cbn in H. inversion H. reflexivity.
  - cbn [mapM] in H. unfold bind at 1 in H.
    destruct (f todo w) as [[r|e] w1] eqn:E1; [|discriminate].
    unfold bind at 1 in H.
    destruct (mapM f todos w1) as [[rs|e] w2] eqn:E2; [|discriminate].
    inversion H; subst. cbn. f_equal.
    + eapply Hf. exact E1.
    + eapply IH. exact E2.
Qed.

(** A [map] whose callback returns on every record returns. *)
Lemma mapM_returns (f : obj -> M obj) (todos : list obj) :
  (forall todo, In todo todos -> forall w, exists r w', f todo w = (Ok r, w')) ->
  forall w, exists updatedTodos w', mapM f todos w = (Ok updatedTodos, w').
Proof.
  induction todos as [|todo todos IH]; intros Hf w.
  - cbn. unfold ret. eauto.
  - cbn [mapM]. destruct (Hf todo (or_introl eq_refl) w) as [r [w1 E1]].
    rewrite (bind_Ok _ _ _ _ _ E1).
    destruct (IH (fun t Ht => Hf t (or_intror Ht)) w1) as [rs [w2 E2]].
    rewrite (bind_Ok _ _ _ _ _ E2). unfold ret. eauto.
Qed.

Lemma updated_keeps_id (todo updates : obj) (w : world) (r : obj)
    (w' : world) :
  updates !! "id" = None ->
  updated todo updates w = (Ok r, w') ->
  get r "id" = get todo "id".
Proof.
  intros Hid H.
  unfold updated, bind, now_iso, Date_now, ret, call_trim, throw in H.
  destruct (truthy (get updates "text"));
    [destruct (get updates "text")|]; inversion H; subst;
    rewrite !get_insert_ne by discriminate; now apply get_spread_absent.
Qed.

Lemma updated_returns (todo updates : obj) (w : world) :
  truthy (get updates "text") = false \/ (exists s, get updates "text" = VStr s) ->
  exists r w', updated todo updates w = (Ok r, w').
Proof.
  intros [H|[s H]].
  - unfold updated, bind, now_iso, Date_now, ret. rewrite H. eauto.
  - rewrite (updated_string_text _ _ _ _ H). eauto.
Qed.

Lemma returns_after_save (m : M (list obj)) (w : world) :
  (exists l w', m w = (Ok l, w')) ->
  exists l w', (let* updatedTodos := m in
                saveTodos updatedTodos;; ret updatedTodos) w = (Ok l, w').
Proof.
  intros [l [w' H]]. rewrite (bind_Ok _ _ _ _ _ H), save_then_return. eauto.
Qed.

Lemma result_after_save (m : M (list obj)) (w : world) (l : list obj)
    (w' : world) :
  (let* updatedTodos := m in
   saveTodos updatedTodos;; ret updatedTodos) w = (Ok l, w') ->
  exists w1, m w = (Ok l, w1).
Proof.
  unfold bind at 1. destruct (m w) as [[r|e] w1]; [|discriminate].
  rewrite save_then_return. intros H. inversion H; subst. eauto.
Qed.

Lemma mutation_returns (m : mutation) (todos : list obj) (w : world) :
  accepted m todos ->
  exists updatedTodos w', apply_mutation m todos w = (Ok updatedTodos, w').
Proof.
  destruct m; cbn [apply_mutation accepted]; intros Hacc.
  - destruct Hacc as [s [-> Hs]]. rewrite (addTodo_nonblank _ _ _ _ _ Hs). eauto.
  - apply returns_after_save. apply mapM_returns. intros todo _ w0.
    destruct (strict_eq _ _); [now apply updated_returns|]. unfold ret. eauto.
  - apply returns_after_save. apply mapM_returns. intros todo _ w0.
    destruct (strict_eq _ _); [|unfold ret; eauto].
    apply updated_returns. left. reflexivity.
  - unfold deleteTodo. rewrite save_then_return. eauto.
  - unfold deleteTodos. rewrite save_then_return. eauto.
  - unfold clearCompleted. rewrite save_then_return. eauto.
  - apply returns_after_save. apply mapM_returns. intros todo _ w0.
    unfold bind, now_iso, Date_now, ret. eauto.
  - unfold duplicateTodo. destruct (find_by_id todos id); [|contradiction].
    run_effects. rewrite saveTodos_spec. eauto.
  - apply returns_after_save. apply mapM_returns. intros todo _ w0.
    destruct (includes _ _); unfold bind, now_iso, Date_now, ret; eauto.
Qed.

Lemma apply_mutation_ids (m : mutation) (todos : list obj)
    (w : world) (updatedTodos : list obj) (w' : world) :
  List.NoDup (ids_of todos) ->
  leaves_id m ->
  next_uuid_unused m todos w ->
  apply_mutation m todos w = (Ok updatedTodos, w') ->
  List.NoDup (ids_of updatedTodos)
  /\ (in_place m = true -> ids_of updatedTodos = ids_of todos).
Proof.
  intros Hnd Hleave Hfresh H.
  destruct m as [txt category priority|id updates|id|id|ids| |completed|id
                |ids updates];
    cbn [apply_mutation leaves_id next_uuid_unused in_place] in *.
  - (* create *)
    split; [|discriminate].
    unfold addTodo, bind at 1 in H.
    match type of H with context [match ?c w with _ => _ end] =>
      destruct (c w) as [[[|]|e] w1] eqn:E end; try discriminate.
    assert (w1 = w) as ->.
    { destruct (negb (truthy txt)); unfold ret in E; [now inversion E|].
      unfold bind, call_trim, ret, throw in E.
      destruct txt; now inversion E. }
    unfold bind at 1 in H.
    destruct (createTodo txt _ _ w) as [[newTodo|e] w2] eqn:E2;
      [|discriminate].
    rewrite save_then_return in H. inversion H; subst.
    assert (get newTodo "id" = VStr (uuid_source w (uuid_drawn w))) as Hid.
    { unfold createTodo, bind, uuidv4, now_iso, Date_now, ret in E2.
      destruct (call_trim txt _) as [[t|e] w3]; inversion E2; subst.
      reflexivity. }
    cbn. constructor; [now rewrite Hid|assumption].
  - (* update *)
    unfold updateTodo in H. apply result_after_save in H as [w1 H].
    assert (ids_of updatedTodos = ids_of todos) as E.
    { eapply mapM_keeps_ids; [|exact H]. intros todo w0 r w0'. cbn.
      destruct (strict_eq _ _).
      - now apply updated_keeps_id.
      - unfold ret. intros E; now inversion E. }
    rewrite E. auto.
  - (* toggle *)
    unfold toggleTodo, updateTodo in H. apply result_after_save in H as [w1 H].
    assert (ids_of updatedTodos = ids_of todos) as E.
    { eapply mapM_keeps_ids; [|exact H]. intros todo w0 r w0'. cbn.
      destruct (strict_eq _ _).
      - apply updated_keeps_id. reflexivity.
      - unfold ret. intros E; now inversion E. }
    rewrite E. auto.
  - (* delete *)
    unfold deleteTodo in H. rewrite save_then_return in H. inversion H; subst.
    split; [now apply NoDup_ids_of_filter|discriminate].
  - unfold deleteTodos in H. rewrite save_then_return in H. inversion H; subst.
    split; [now apply NoDup_ids_of_filter|discriminate].
  - unfold clearCompleted in H. rewrite save_then_return in H.
    inversion H; subst.
    split; [now apply NoDup_ids_of_filter|discriminate].
  - (* toggle all *)
    unfold toggleAllTodos in H. apply result_after_save in H as [w1 H].
    assert (ids_of updatedTodos = ids_of todos) as E.
    { eapply mapM_keeps_ids; [|exact H]. intros todo w0 r w0'. cbn.
      unfold bind, now_iso, Date_now, ret. intros E; inversion E; subst.
      now rewrite !get_insert_ne by discriminate. }
    rewrite E. auto.
  - (* duplicate *)
    split; [|discriminate].
    unfold duplicateTodo in H.
    destruct (find_by_id todos id) as [todo|]; [|discriminate].
    run_effects in H. rewrite saveTodos_spec in H. inversion H; subst.
    cbn. constructor; [|assumption].
    rewrite !get_insert_ne by discriminate. now rewrite get_insert_eq.
  - (* batch update *)
    unfold batchUpdateTodos in H. apply result_after_save in H as [w1 H].
    assert (ids_of updatedTodos = ids_of todos) as E.
    { eapply mapM_keeps_ids; [|exact H]. intros todo w0 r w0'. cbn.
      destruct (includes _ _).
      - unfold bind, now_iso, Date_now, ret. intros E; inversion E; subst.
        rewrite get_insert_ne by discriminate. now apply get_spread_absent.
      - unfold ret. intros E; now inversion E. }
    rewrite E. auto.
Qed.

(** C1, as the code has it: from a list with pairwise distinct ids, every
    mutation operation that returns, returns a list with pairwise distinct
    ids, and the operations that rewrite records in place return the same
    ids in the same places, provided that the fields handed to
    [updateTodo] and [batchUpdateTodos] have no [id] property and that the
    uuid source hands [addTodo] and [duplicateTodo] an id that is not in
    use.  Each operation returns on the arguments it accepts. *)
Theorem mutations_keep_ids_distinct (m : mutation) (todos : list obj)
    (w : world) :
  List.NoDup (ids_of todos) ->
  leaves_id m ->
  next_uuid_unused m todos w ->
  (accepted m todos ->
   exists updatedTodos w', apply_mutation m todos w = (Ok updatedTodos, w'))
  /\ (forall updatedTodos w',
        apply_mutation m todos w = (Ok updatedTodos, w') ->
        List.NoDup (ids_of updatedTodos)
        /\ (in_place m = true -> ids_of updatedTodos = ids_of todos)).
Proof.
  intros Hnd Hleave Hfresh. split.
  - now apply mutation_returns.
  - intros l w' H. now apply (apply_mutation_ids m todos w l w').
Qed.

Lemma sample_ids_distinct : List.NoDup (ids_of [milk; rent; mum]).
Proof.
  cbn. repeat constructor; cbn; intuition discriminate.
Qed.

Lemma mutations_keep_ids_distinct_witness :
  (accepted (BatchUpdate [VStr "a"; VStr "c"] (<["priority" := VStr "high"]> ∅))
            [milk; rent; mum] ->
   exists updatedTodos w',
     apply_mutation
       (BatchUpdate [VStr "a"; VStr "c"] (<["priority" := VStr "high"]> ∅))
       [milk; rent; mum] world0 = (Ok updatedTodos, w'))
  /\ (forall updatedTodos w',
        apply_mutation
          (BatchUpdate [VStr "a"; VStr "c"] (<["priority" := VStr "high"]> ∅))
          [milk; rent; mum] world0 = (Ok updatedTodos, w') ->
        List.NoDup (ids_of updatedTodos)
        /\ (in_place
              (BatchUpdate [VStr "a"; VStr "c"]
                           (<["priority" := VStr "high"]> ∅)) = true ->
            ids_of updatedTodos = ids_of [milk; rent; mum])).
Proof.
  apply mutations_keep_ids_distinct.
  - apply sample_ids_distinct.
  - reflexivity.
  - exact I.
Defined.

(** C1 as stated fails: the fields of an update may carry an [id], which
    replaces the id of the matched record.  The list below has distinct
    ids; after the update two records have the id ["b"], and the matched
    record no longer has the id ["a"]. *)
Lemma updateTodo_overwrites_id :
  let updatedTodos :=
    [<["id" := VStr "b"]>
     (<["updatedAt" := VStr "2024-01-01T00:00:00.000Z"]> milk); rent] in
  List.NoDup (ids_of [milk; rent])
  /\ fst (apply_mutation (Update (VStr "a") (<["id" := VStr "b"]> ∅))
                         [milk; rent] world0)
     = Ok updatedTodos
  /\ ids_of updatedTodos = [VStr "b"; VStr "b"]
  /\ ~ List.NoDup (ids_of updatedTodos)
  /\ ids_of updatedTodos <> ids_of [milk; rent].
Proof.
  cbv zeta. split.
  - cbn. repeat constructor; cbn; intuition discriminate.
  - split; [by_evaluation|].
    split; [by_evaluation|]. split.
    + vm_compute. intros H. inversion H as [|x l Hnotin _]; subst.
      apply Hnotin. left. reflexivity.
    + vm_compute. discriminate.
Qed.

Example batchUpdate_overwrites_ids :
  option_map ids_of
    (match fst (batchUpdateTodos [milk; rent; mum] [VStr "a"; VStr "c"]
                                 (<["id" := VStr "x"]> ∅) world0) with
     | Ok l => Some l
     | Throw _ => None
     end)
  = Some [VStr "x"; VStr "b"; VStr "x"].
Proof. by_evaluation. Qed.

(** ** Worlds that differ in the clock and the uuid source *)

Lemma same_storage_refl (w : world) : same_storage w w.
Proof. unfold same_storage. tauto. Qed.

Lemma same_storage_trans (w1 w2 w3 : world) :
  same_storage w1 w2 -> same_storage w2 w3 -> same_storage w1 w3.
Proof.
  unfold same_storage. intros H1 H2.
  destruct H1 as (?&?&?&?&?&?&?), H2 as (?&?&?&?&?&?&?).
  repeat split; congruence.
Qed.

Lemma same_storage_ticks (w : world) (n : nat) : same_storage w (set_ticks n w).
Proof. unfold same_storage. cbn. tauto. Qed.

Lemma same_storage_drawn (w : world) (n : nat) : same_storage w (set_drawn n w).
Proof. unfold same_storage. cbn. tauto. Qed.

Lemma advances_refl (w : world) : advances w w.
Proof. unfold advances. split; [apply same_storage_refl|lia]. Qed.

Lemma advances_trans (w1 w2 w3 : world) :
  advances w1 w2 -> advances w2 w3 -> advances w1 w3.
Proof.
  intros [S1 [T1 D1]] [S2 [T2 D2]].
  split; [eapply same_storage_trans; eassumption|lia].
Qed.

Lemma advances_clock (w w' : world) : advances w w' -> clock w' = clock w.
Proof. intros [S _]. unfold same_storage in S. tauto. Qed.

Lemma advances_source (w w' : world) :
  advances w w' -> uuid_source w' = uuid_source w.
Proof. intros [S _]. unfold same_storage in S. tauto. Qed.

(** A [map] whose callback returns for every entry, and whose results are
    described by a relation indexed by the worlds before and after. *)
Lemma mapM_between {A B} (R : world -> world -> A -> B -> Prop)
    (f : A -> M B) (l : list A) (w : world) :
  (forall a w0, In a l ->
     exists b w1, f a w0 = (Ok b, w1) /\ advances w0 w1 /\ R w0 w1 a b) ->
  (forall w0 w1 w2 w3 a b,
     advances w0 w1 -> advances w1 w2 -> advances w2 w3 ->
     R w1 w2 a b -> R w0 w3 a b) ->
  exists l' w',
    mapM f l w = (Ok l', w') /\ advances w w' /\ Forall2 (R w w') l l'.
Proof.
  intros Hf Hmono. revert w.
  induction l as [|a l IH]; intros w.
  - exists [], w. split; [reflexivity|]. split; [apply advances_refl|constructor].
  - destruct (Hf a w (or_introl eq_refl)) as [b [w1 [Hb [A1 R1]]]].
    destruct (IH (fun a' w0 Hin => Hf a' w0 (or_intror Hin)) w1)
      as [l' [w2 [Hl [A2 F2]]]].
    exists (b :: l'), w2. cbn [mapM].
    rewrite (bind_Ok _ _ _ _ _ Hb), (bind_Ok _ _ _ _ _ Hl).
    split; [reflexivity|]. split; [eapply advances_trans; eassumption|].
    constructor.
    + apply (Hmono w w w1 w2); [apply advances_refl|assumption|assumption|].
      exact R1.
    + eapply Forall2_impl; [exact F2|]. cbn. intros x y Hxy.
      apply (Hmono w w1 w2 w2);
        [assumption|assumption|apply advances_refl|exact Hxy].
Qed.

(** The same for a [map] over the images of a list. *)
Lemma mapM_map_between {A B C} (g : A -> B)
    (R : world -> world -> A -> C -> Prop)
    (f : B -> M C) (l : list A) (w : world) :
  (forall a w0, In a l ->
     exists c w1, f (g a) w0 = (Ok c, w1) /\ advances w0 w1 /\ R w0 w1 a c) ->
  (forall w0 w1 w2 w3 a c,
     advances w0 w1 -> advances w1 w2 -> advances w2 w3 ->
     R w1 w2 a c -> R w0 w3 a c) ->
  exists l' w',
    mapM f (map g l) w = (Ok l', w') /\ advances w w' /\ Forall2 (R w w') l l'.
Proof.
  intros Hf Hmono. revert w.
  induction l as [|a l IH]; intros w.
  - exists [], w. split; [reflexivity|]. split; [apply advances_refl|constructor].
  - destruct (Hf a w (or_introl eq_refl)) as [c [w1 [Hc [A1 R1]]]].
    destruct (IH (fun a' w0 Hin => Hf a' w0 (or_intror Hin)) w1)
      as [l' [w2 [Hl [A2 F2]]]].
    exists (c :: l'), w2. cbn [map mapM].
    rewrite (bind_Ok _ _ _ _ _ Hc), (bind_Ok _ _ _ _ _ Hl).
    split; [reflexivity|]. split; [eapply advances_trans; eassumption|].
    constructor.
    + apply (Hmono w w w1 w2); [apply advances_refl|assumption|assumption|].
      exact R1.
    + eapply Forall2_impl; [exact F2|]. cbn. intros x y Hxy.
      apply (Hmono w w1 w2 w2);
        [assumption|assumption|apply advances_refl|exact Hxy].
Qed.

(** ** Export and import *)

Lemma jsonify_VObj (o : obj) : jsonify (VObj o) = VObj (json_obj o).
Proof. reflexivity. Qed.

Lemma get_json_obj (o : obj) (k : string) :
  get (json_obj o) k = jsonify (get o k).
Proof.
  unfold get, json_obj. rewrite lookup_omap.
  destruct (o !! k) as [v|]; [|reflexivity].
  destruct v; reflexivity.
Qed.

Lemma lookup_json_obj (o : obj) (k : string) (v : value) :
  o !! k = Some v -> v <> VUndefined -> json_obj o !! k = Some (jsonify v).
Proof.
  intros H Hv. unfold json_obj. rewrite lookup_omap, H.
  destruct v; try reflexivity. contradiction.
Qed.

Lemma jsonify_primitive (v : value) : primitive v = true -> jsonify v = v.
Proof. destruct v; try discriminate; reflexivity. Qed.

Lemma is_string_primitive (v : value) : is_string v = true -> primitive v = true.
Proof. destruct v; try discriminate; reflexivity. Qed.

Lemma get_lookup (o : obj) (k : string) :
  get o k <> VUndefined -> o !! k = Some (get o k).
Proof. unfold get. destruct (o !! k); [reflexivity|contradiction]. Qed.

Lemma primitive_defined (v : value) : primitive v = true -> v <> VUndefined.
Proof. destruct v; try discriminate; intros _ H; discriminate. Qed.

(** The fields that a well-formed record is required to have. *)
Lemma well_formed_fields (todo : obj) (k : string) :
  well_formed todo = true ->
  In k ["text"; "category"; "priority"; "createdAt"; "dueDate"] ->
  primitive (get todo k) = true.
Proof.
  unfold well_formed. rewrite !andb_true_iff.
  intros [[[[[[[[H1 _] _] H3] H4] H5] _] _] H6] Hk.
  cbn in Hk.
  destruct Hk as [<-|[<-|[<-|[<-|[<-|[]]]]]];
    auto using is_string_primitive.
  destruct (get todo "dueDate"); try discriminate; reflexivity.
Qed.

Lemma well_formed_text (todo : obj) :
  well_formed todo = true ->
  exists s, get todo "text" = VStr s /\ truthy (VStr s) = true.
Proof.
  unfold well_formed. rewrite !andb_true_iff.
  intros [[[[[[[[H1 H2] _] _] _] _] _] _] _].
  destruct (get todo "text"); try discriminate. eauto.
Qed.

Lemma well_formed_createdAt (todo : obj) :
  well_formed todo = true -> truthy (get todo "createdAt") = true.
Proof.
  unfold well_formed. rewrite !andb_true_iff. tauto.
Qed.

(** JSON carries the id of a well-formed record as it is. *)
Lemma well_formed_id (todo : obj) :
  well_formed todo = true -> jsonify (get todo "id") = get todo "id".
Proof.
  unfold well_formed. rewrite !andb_true_iff.
  intros [[[[[[[_ H] _] _] _] _] _] _].
  destruct (get todo "id"); try discriminate; reflexivity.
Qed.

Lemma importable_exported (todo : obj) :
  well_formed todo = true ->
  importable (jsonify (VObj todo)) = Some (json_obj todo).
Proof.
  intros H. rewrite jsonify_VObj. cbn [importable].
  rewrite get_json_obj.
  destruct (well_formed_text todo H) as [s [Hs Ht]].
  rewrite Hs. cbn [jsonify]. now rewrite Ht.
Qed.

Lemma importable_all_exported (todos : list obj) :
  Forall (fun todo => well_formed todo = true) todos ->
  omap importable
       (map (fun x => match x with
                      | VUndefined => VNull
                      | _ => jsonify x
                      end) (map VObj todos))
  = map json_obj todos.
Proof.
  induction 1 as [|todo todos H _ IH]; [reflexivity|].
  cbn [map omap list_omap].
  change (match VObj todo with VUndefined => VNull | _ => jsonify (VObj todo) end)
    with (jsonify (VObj todo)).
  rewrite (importable_exported todo H). f_equal. exact IH.
Qed.

(** The record that the import builds from an exported well-formed
    record, whatever id and [updatedAt] it is given. *)
Lemma imported_record_round_trip (todo : obj) (s : string) (w0 w w' : world)
    (id updatedAt : value) :
  well_formed todo = true ->
  (if truthy (get todo "id") then id = get todo "id"
   else exists n, (uuid_drawn w <= n)%nat /\ (n < uuid_drawn w')%nat
                  /\ id = VStr (uuid_source w n)) ->
  (exists n, (ticks w <= n)%nat /\ (n < ticks w')%nat
             /\ updatedAt = VStr (toISOString (clock w n))) ->
  round_trip w w' todo
    (<["updatedAt" := updatedAt]>
     (<["createdAt" := get todo "createdAt"]>
      (<["id" := id]>
       (spread (created s (get (json_obj todo) "category")
                        (get (json_obj todo) "priority") w0)
               (json_obj todo))))).
Proof.
  intros H Hid Hu.
  assert (General : forall k v,
             k <> "id" -> k <> "updatedAt" ->
             todo !! k = Some v -> v <> VUndefined ->
             get (<["updatedAt" := updatedAt]>
                  (<["createdAt" := get todo "createdAt"]>
                   (<["id" := id]>
                    (spread (created s (get (json_obj todo) "category")
                                     (get (json_obj todo) "priority") w0)
                            (json_obj todo))))) k = jsonify v).
  { intros k v Hki Hku Hv Hdef.
    assert (Hget : get todo k = v) by (unfold get; now rewrite Hv).
    rewrite get_insert_ne by congruence.
    destruct (string_dec k "createdAt") as [->|Hkc].
    { rewrite get_insert_eq, Hget. symmetry. apply jsonify_primitive.
      rewrite <- Hget. apply well_formed_fields; cbn; auto 10. }
    rewrite !get_insert_ne by congruence.
    apply get_spread_present. now apply lookup_json_obj. }
  split; [|split; [|split]].
  - intros k Hk.
    pose proof (well_formed_fields todo k H Hk) as P.
    rewrite (General k (get todo k)).
    + now apply jsonify_primitive.
    + cbn in Hk. intuition (subst; discriminate).
    + cbn in Hk. intuition (subst; discriminate).
    + apply get_lookup. now apply primitive_defined.
    + now apply primitive_defined.
  - rewrite !get_insert_ne, get_insert_eq by discriminate.
    destruct (truthy (get todo "id")); exact Hid.
  - exact General.
  - destruct Hu as [n [Hn1 [Hn2 ->]]]. exists n.
    split; [exact Hn1|]. split; [exact Hn2|]. apply get_insert_eq.
Qed.

(** Importing one exported well-formed record: a uuid is drawn for the
    defaults and another one for a falsy id, and the clock is read three
    times, the third reading becoming [updatedAt]. *)
Lemma normalizeImported_exported (todo : obj) (w : world) :
  well_formed todo = true ->
  exists todo' w',
    normalizeImported (json_obj todo) w = (Ok todo', w')
    /\ advances w w' /\ round_trip w w' todo todo'.
Proof.
  intros H. destruct (well_formed_text todo H) as [s [Hs _]].
  pose proof (well_formed_createdAt todo H) as Hc.
  pose proof (well_formed_id todo H) as Pid.
  assert (Pc : jsonify (get todo "createdAt") = get todo "createdAt").
  { apply jsonify_primitive. apply well_formed_fields; cbn; auto 10. }
  unfold normalizeImported.
  assert (Et : get (json_obj todo) "text" = VStr s).
  { rewrite get_json_obj, Hs. reflexivity. }
  rewrite Et.
  rewrite (bind_Ok _ _ _ _ _ (createTodo_spec _ _ _ _)).
  rewrite !get_json_obj with (k := "id"), Pid.
  rewrite !get_json_obj with (k := "createdAt"), Pc, Hc.
  destruct (truthy (get todo "id")) eqn:Hid; run_effects; cbv zeta;
    (eexists _, _; split; [reflexivity|]);
    (split; [split; [unfold same_storage; cbn; tauto|cbn; lia]|]);
    apply (imported_record_round_trip todo s w); try exact H;
    rewrite ?Hid; cbn [ticks uuid_drawn after_create set_ticks set_drawn
                        clock uuid_source].
  - reflexivity.
  - exists (S (S (ticks w))). repeat split; lia.
  - exists (S (uuid_drawn w)). repeat split; lia.
  - exists (S (S (ticks w))). repeat split; lia.
Qed.

Lemma round_trip_widen (w0 w1 w2 w3 : world) (todo todo' : obj) :
  advances w0 w1 -> advances w1 w2 -> advances w2 w3 ->
  round_trip w1 w2 todo todo' -> round_trip w0 w3 todo todo'.
Proof.
  intros A1 A2 A3 [Hk [Hid [Hj Hu]]].
  pose proof (advances_clock _ _ A1) as Ec.
  pose proof (advances_source _ _ A1) as Es.
  destruct A1 as [_ [T1 D1]], A2 as [_ [T2 D2]], A3 as [_ [T3 D3]].
  split; [exact Hk|]. split; [|split; [exact Hj|]].
  - destruct (truthy (get todo "id")); [exact Hid|].
    destruct Hid as [n [? [? E]]]. exists n. rewrite <- Es.
    repeat split; [lia|lia|exact E].
  - destruct Hu as [n [? [? E]]]. exists n. rewrite <- Ec.
    repeat split; [lia|lia|exact E].
Qed.

Lemma exportTodos_spec (todos : list obj) (w : world) :
  exportTodos todos w
  = (Ok true,
     set_downloads (downloads w ++ [(export_name w, exported todos)])
                   (set_ticks (S (ticks w)) w)).
Proof. reflexivity. Qed.

(** C2, as the code has it: for every list of well-formed records,
    [exportTodos] offers the serialized list for download, and importing
    that payload returns a list of the same length whose record at each
    place has the text, category, priority, [createdAt] and [dueDate] of
    the original (and every other property but the id and [updatedAt], as
    JSON carries it).  The record keeps its id when the id is truthy; a
    record whose id is missing or falsy ([0], the empty string, [false],
    [null]) gets an identifier drawn from the uuid source.  [updatedAt]
    is not kept: it is a reading of the clock taken during the import. *)
Theorem import_export_round_trip (todos : list obj) (w w2 : world) :
  Forall (fun todo => well_formed todo = true) todos ->
  exportTodos todos w
  = (Ok true,
     set_downloads (downloads w ++ [(export_name w, exported todos)])
                   (set_ticks (S (ticks w)) w))
  /\ exists imported w',
      importTodos (Content (exported todos)) w2 = (Ok imported, w')
      /\ Forall2 (round_trip w2 w') todos imported.
Proof.
  intros H. split; [apply exportTodos_spec|].
  destruct (mapM_map_between json_obj round_trip normalizeImported todos w2)
    as [l [w' [Hl [_ HF]]]].
  - intros todo w0 Hin. apply normalizeImported_exported.
    rewrite List.Forall_forall in H. now apply H.
  - intros w0 w1 w3 w4 todo todo'. apply round_trip_widen.
  - exists l, w'. split; [|assumption].
    unfold importTodos, exported, JSON_stringify, as_array, try_catch.
    cbn [jsonify JSON_parse]. unfold bind at 1, ret at 1.
    rewrite (importable_all_exported todos H), Hl. reflexivity.
Qed.

Lemma import_export_round_trip_witness :
  exportTodos [milk; <["id" := VNum 0]> rent] world0
  = (Ok true,
     set_downloads (downloads world0
                      ++ [(export_name world0,
                           exported [milk; <["id" := VNum 0]> rent])])
                   (set_ticks (S (ticks world0)) world0))
  /\ exists imported w',
      importTodos (Content (exported [milk; <["id" := VNum 0]> rent])) world0
      = (Ok imported, w')
      /\ Forall2 (round_trip world0 w')
                 [milk; <["id" := VNum 0]> rent] imported.
Proof.
  apply import_export_round_trip.
  repeat constructor.
Defined.

Example export_name_world0 : export_name world0 = "todos-2024-01-01.json".
Proof. by_evaluation. Qed.

(** C2 as stated fails on [updatedAt]: the record is well-formed, and the
    import gives it the time of the import instead of the time it had. *)
Lemma import_restamps_updatedAt :
  let todo' := <["updatedAt" := VStr "2024-01-01T00:00:02.000Z"]> milk in
  well_formed milk = true
  /\ fst (importTodos (Content (exported [milk])) world0) = Ok [todo']
  /\ get milk "updatedAt" = VStr "2023-12-31T08:00:00.000Z"
  /\ get todo' "updatedAt" <> get milk "updatedAt".
Proof.
  cbv zeta. split; [reflexivity|].
  split; [by_evaluation|].
  split; [reflexivity|].
  vm_compute. discriminate.
Qed.

(** It fails on the id as well when the id is falsy: the record is
    well-formed, its id is [0], and the import gives it the second
    identifier that it draws. *)
Example import_replaces_falsy_id :
  well_formed (<["id" := VNum 0]> milk) = true
  /\ column "id" (fst (importTodos
                         (Content (exported [<["id" := VNum 0]> milk])) world0))
     = Some [VStr "uuid-1"].
Proof.
  split; [reflexivity|by_evaluation].
Qed.

(** ** Bounds of the binary64 operations *)

Section Binary64Bounds.
Import Binary64.
Local Open Scope Z_scope.

Lemma pow2_pos (n : Z) : 0 <= n -> 0 < 2 ^ n.
Proof. intros H. apply Z.pow_pos_nonneg; lia. Qed.

(** A ratio below [2^(n+1)] has a logarithm of at most [n]. *)
Lemma floor_log2_le (p q n : Z) :
  0 < p -> 0 < q -> 0 <= n -> p < 2 ^ (n + 1) * q -> floor_log2 p q <= n.
Proof.
  intros Hp Hq Hn Hlt. unfold floor_log2.
  set (d := Z.log2 p - Z.log2 q).
  assert (Key : forall j, 0 <= j -> q * 2 ^ j <= p -> j <= n).
  { intros j Hj Hle. destruct (Z_le_gt_dec j n) as [|Hgt]; [assumption|].
    exfalso.
    assert (2 ^ (n + 1) <= 2 ^ j) by (apply Z.pow_le_mono_r; lia).
    nia. }
  destruct (Z_le_gt_dec d n) as [Hd|Hd].
  { destruct (if 0 <=? d then _ else _); lia. }
  assert ((0 <=? d) = true) as -> by (apply Z.leb_le; lia).
  destruct (q * 2 ^ d <=? p) eqn:E.
  - apply Z.leb_le in E. apply Key in E; lia.
  - enough (d - 1 <= n) by lia. apply Key; [lia|].
    destruct (Z.log2_spec p Hp) as [Lp _].
    destruct (Z.log2_spec q Hq) as [_ Uq].
    assert (Z.log2 p = Z.log2 q + 1 + (d - 1)) as E2 by (unfold d; lia).
    pose proof (Z.log2_nonneg q).
    rewrite E2 in Lp. rewrite Z.pow_add_r in Lp by lia.
    replace (Z.succ (Z.log2 q)) with (Z.log2 q + 1) in Uq by lia.
    pose proof (pow2_pos (d - 1) ltac:(lia)). nia.
Qed.

Lemma nearest_even_bounds (num den N : Z) :
  0 <= num -> 0 < den -> num <= N * den ->
  0 <= nearest_even num den <= N.
Proof.
  intros Hnum Hden Hle. unfold nearest_even.
  pose proof (Z.div_mod num den ltac:(lia)) as Hdm.
  pose proof (Z.mod_pos_bound num den Hden) as Hmod.
  assert (0 <= num / den) by (apply Z.div_pos; lia).
  assert (num / den <= N).
  { apply Z.div_le_upper_bound; [assumption|]. lia. }
  destruct (Z.eq_dec (num / den) N) as [E|E].
  - assert (num mod den = 0) by nia.
    assert ((2 * (num mod den) <? den) = true) as -> by (apply Z.ltb_lt; lia).
    lia.
  - destruct (2 * (num mod den) <? den); [lia|].
    destruct (den <? 2 * (num mod den)); [lia|].
    destruct (Z.even (num / den)); lia.
Qed.

(** The double nearest to a ratio of at most [N] is at most [N]. *)
Lemma round64_bounds (p q N : Z) :
  0 <= p -> 0 < q -> 0 < N < 2 ^ 53 -> p <= N * q ->
  expo (round64 p q) <= 0
  /\ 0 <= mant (round64 p q) <= N * 2 ^ (- expo (round64 p q)).
Proof.
  intros Hp Hq HN Hle. unfold round64.
  destruct (p <=? 0) eqn:E0; cbn [expo mant]; [lia|].
  apply Z.leb_gt in E0.
  assert (Hk : floor_log2 p q <= 52).
  { apply floor_log2_le; try lia. change (52 + 1) with 53. nia. }
  destruct (0 <=? floor_log2 p q - 52) eqn:E; cbn [expo mant].
  - apply Z.leb_le in E.
    assert (floor_log2 p q - 52 = 0) as -> by lia.
    change (- 0) with 0. change (2 ^ 0) with 1. rewrite !Z.mul_1_r.
    split; [lia|]. apply nearest_even_bounds; lia.
  - apply Z.leb_gt in E. split; [lia|].
    pose proof (pow2_pos (- (floor_log2 p q - 52)) ltac:(lia)).
    apply nearest_even_bounds; nia.
Qed.

Lemma Math_round_bounds (x : double) (N : Z) :
  0 <= N -> expo x <= 0 -> 0 <= mant x <= N * 2 ^ (- expo x) ->
  0 <= Math_round x <= N.
Proof.
  intros HN He Hm. unfold Math_round.
  destruct (0 <=? expo x) eqn:E.
  - apply Z.leb_le in E. assert (expo x = 0) as E0 by lia.
    rewrite E0 in *. change (2 ^ 0) with 1. change (2 ^ (- 0)) with 1 in Hm.
    lia.
  - apply Z.leb_gt in E.
    pose proof (pow2_pos (- expo x) ltac:(lia)) as Hpos.
    replace (1 - expo x) with (1 + - expo x) by lia.
    rewrite Z.pow_add_r by lia. change (2 ^ 1) with 2.
    split.
    + apply Z.div_pos; lia.
    + enough ((2 * mant x + 2 ^ (- expo x)) / (2 * 2 ^ (- expo x)) < N + 1)
        by lia.
      apply Z.div_lt_upper_bound; nia.
Qed.

(** The percentage computed from [completed] out of [total] records. *)
Lemma percentage_bounds (completed total : Z) :
  0 <= completed <= total -> 0 < total ->
  0 <= Math_round (mul_count (div_counts completed total) 100) <= 100.
Proof.
  intros Hc Ht.
  destruct (round64_bounds completed total 1 ltac:(lia) Ht ltac:(lia)
              ltac:(lia)) as [He Hm].
  fold (div_counts completed total) in He, Hm.
  set (x := div_counts completed total) in *.
  assert (Hy : expo (mul_count x 100) <= 0
               /\ 0 <= mant (mul_count x 100)
                    <= 100 * 2 ^ (- expo (mul_count x 100))).
  { unfold mul_count. destruct (0 <=? expo x) eqn:E.
    - apply Z.leb_le in E. assert (expo x = 0) as E0 by lia.
      rewrite E0 in *. change (2 ^ 0) with 1. change (2 ^ (- 0)) with 1 in Hm.
      apply round64_bounds; lia.
    - apply Z.leb_gt in E.
      pose proof (pow2_pos (- expo x) ltac:(lia)).
      apply round64_bounds; lia. }
  apply Math_round_bounds; [lia|tauto|tauto].
Qed.

End Binary64Bounds.

(** ** The reported percentage is a nearest integer *)

Section NearestPercentage.
Import Binary64.
Local Open Scope Z_scope.

Lemma nearest_even_error (num den : Z) :
  0 <= num -> 0 < den ->
  - den <= 2 * (num - nearest_even num den * den) <= den.
Proof.
  intros Hnum Hden. unfold nearest_even.
  pose proof (Z.div_mod num den ltac:(lia)) as Hdm.
  pose proof (Z.mod_pos_bound num den Hden) as Hmod.
  destruct (2 * (num mod den) <? den) eqn:E1.
  - apply Z.ltb_lt in E1. nia.
  - apply Z.ltb_ge in E1.
    destruct (den <? 2 * (num mod den)) eqn:E2.
    + apply Z.ltb_lt in E2. nia.
    + apply Z.ltb_ge in E2. destruct (Z.even (num / den)); nia.
Qed.

(** The rounding of a positive ratio below [2^(n+1)], with [n <= 52]:
    the result has the exponent [floor_log2 p q - 52], which is negative,
    and is within half a unit of that exponent of the ratio. *)
Lemma round64_error (p q n : Z) :
  0 < p -> 0 < q -> 0 <= n < 52 -> p < 2 ^ (n + 1) * q ->
  exists m E,
    round64 p q = Double m (floor_log2 p q - 52)
    /\ E = 2 ^ (- (floor_log2 p q - 52))
    /\ 2 ^ (52 - n) <= E
    /\ 0 <= m
    /\ - q <= 2 * (p * E - m * q) <= q.
Proof.
  intros Hp Hq Hn Hlt.
  pose proof (floor_log2_le p q n Hp Hq ltac:(lia) Hlt) as Hk.
  unfold round64.
  assert ((p <=? 0) = false) as -> by (apply Z.leb_gt; lia).
  assert ((0 <=? floor_log2 p q - 52) = false) as -> by (apply Z.leb_gt; lia).
  eexists _, _. split; [reflexivity|]. split; [reflexivity|].
  pose proof (pow2_pos (- (floor_log2 p q - 52)) ltac:(lia)) as HE.
  split; [apply Z.pow_le_mono_r; lia|].
  split.
  - apply (nearest_even_bounds _ q (p * 2 ^ (- (floor_log2 p q - 52)))); nia.
  - apply nearest_even_error; nia.
Qed.

(** The arithmetic core: [m/E] is the rounded quotient, [m'/E'] the
    rounded product, [r] the rounded percentage. *)
Lemma nearest_percentage_core (c t m E m' E' r : Z) :
  0 <= c -> 0 < t < 4294967296 ->
  4503599627370496 <= E -> 70368744177664 <= E' ->
  0 <= m -> 0 <= m' ->
  - t <= 2 * (c * E - m * t) <= t ->
  - E <= 2 * (100 * m * E' - m' * E) <= E ->
  2 * E' * r <= 2 * m' + E' < 2 * E' * r + 2 * E' ->
  2 * t * r - t <= 200 * c <= 2 * t * r + t.
Proof.
  intros Hc Ht HE HE' Hm Hm' H1 H2 H3.
  assert (HEt : 0 <= E * t) by (apply Z.mul_nonneg_nonneg; lia).
  assert (HEE : 0 < E * E') by (apply Z.mul_pos_pos; lia).
  assert (P5 : E * (2 * t + 1) <= E * E')
    by (apply Z.mul_le_mono_nonneg_l; lia).
  assert (P6 : E' * (200 * t) <= E' * E)
    by (apply Z.mul_le_mono_nonneg_l; lia).
  assert (Q1 : 0 <= (2 * (c * E - m * t) + t) * (100 * E'))
    by (apply Z.mul_nonneg_nonneg; lia).
  assert (Q2 : 0 <= (2 * (100 * m * E' - m' * E) + E) * t)
    by (apply Z.mul_nonneg_nonneg; lia).
  assert (Q3 : 0 <= (2 * m' + E' - 2 * E' * r) * (E * t))
    by (apply Z.mul_nonneg_nonneg; lia).
  assert (R1 : 0 <= (t - 2 * (c * E - m * t)) * (100 * E'))
    by (apply Z.mul_nonneg_nonneg; lia).
  assert (R2 : 0 <= (E - 2 * (100 * m * E' - m' * E)) * t)
    by (apply Z.mul_nonneg_nonneg; lia).
  assert (R3 : 0 <= (2 * E' * r + 2 * E' - 1 - (2 * m' + E')) * (E * t))
    by (apply Z.mul_nonneg_nonneg; lia).
  split.
  - destruct (Z_le_gt_dec (2 * t * r - t) (200 * c)) as [|Hgt]; [assumption|].
    exfalso.
    assert (P1 : 0 <= (2 * t * r - t - 1 - 200 * c) * (E * E'))
      by (apply Z.mul_nonneg_nonneg; lia).
    clear - P1 P5 P6 Q1 Q2 Q3 HE. lia.
  - destruct (Z_le_gt_dec (200 * c) (2 * t * r + t)) as [|Hgt]; [assumption|].
    exfalso.
    assert (P1 : 0 <= (200 * c - (2 * t * r + t) - 1) * (E * E'))
      by (apply Z.mul_nonneg_nonneg; lia).
    clear - P1 P5 P6 R1 R2 R3 HE HEE Ht. lia.
Qed.

(** For fewer than [2^32] records, which every array has, the reported
    percentage [r] is within one half of the exact one, [100 * c / t]. *)
Lemma percentage_nearest (c t : Z) :
  0 <= c <= t -> 0 < t < 2 ^ 32 ->
  2 * t * Math_round (mul_count (div_counts c t) 100) - t <= 200 * c
  /\ 200 * c <= 2 * t * Math_round (mul_count (div_counts c t) 100) + t.
Proof.
  intros Hc Ht. change (2 ^ 32) with 4294967296 in Ht.
  destruct (Z.eq_dec c 0) as [->|Hc0].
  { change (Math_round (mul_count (div_counts 0 t) 100)) with 0. lia. }
  destruct (round64_error c t 0 ltac:(lia) ltac:(lia) ltac:(lia))
    as [m [E [Hx [HEdef [HE [Hm H1]]]]]].
  { change (2 ^ (0 + 1)) with 2. lia. }
  change (2 ^ (52 - 0)) with 4503599627370496 in HE.
  destruct (round64_bounds c t 1 ltac:(lia) ltac:(lia) ltac:(lia) ltac:(lia))
    as [He HmE].
  rewrite Hx in He, HmE. cbn [expo mant] in He, HmE.
  rewrite <- HEdef in HmE.
  unfold div_counts. rewrite Hx. unfold mul_count. cbn [expo mant].
  assert ((0 <=? floor_log2 c t - 52) = false) as ->.
  { apply Z.leb_gt. destruct (Z.eq_dec (floor_log2 c t - 52) 0) as [E0|]; [|lia].
    rewrite E0 in HEdef. change (2 ^ (- 0)) with 1 in HEdef. lia. }
  rewrite <- HEdef.
  destruct (Z.eq_dec m 0) as [->|Hm0].
  { change (Math_round (round64 (0 * 100) E)) with 0. nia. }
  destruct (round64_error (m * 100) E 6 ltac:(lia) ltac:(lia) ltac:(lia))
    as [m' [E' [Hy [HE'def [HE' [Hm' H2]]]]]].
  { change (2 ^ (6 + 1)) with 128. lia. }
  change (2 ^ (52 - 6)) with 70368744177664 in HE'.
  rewrite Hy. unfold Math_round. cbn [expo mant].
  assert ((0 <=? floor_log2 (m * 100) E - 52) = false) as ->.
  { apply Z.leb_gt.
    destruct (Z_lt_ge_dec (floor_log2 (m * 100) E - 52) 0) as [|Hge];
      [assumption|].
    exfalso.
    assert (- (floor_log2 (m * 100) E - 52) <= 0) as Hneg by lia.
    assert (E' <= 1); [|lia]. rewrite HE'def.
    destruct (Z.eq_dec (floor_log2 (m * 100) E - 52) 0) as [->|]; [reflexivity|].
    rewrite Z.pow_neg_r by lia. lia. }
  replace (1 - (floor_log2 (m * 100) E - 52))
    with (1 + - (floor_log2 (m * 100) E - 52)) by lia.
  assert (0 <= - (floor_log2 (m * 100) E - 52)) as Hnn.
  { destruct (Z_lt_ge_dec (- (floor_log2 (m * 100) E - 52)) 0) as [Hlt|];
      [|lia].
    rewrite Z.pow_neg_r in HE'def by assumption. lia. }
  rewrite Z.pow_add_r by lia. change (2 ^ 1) with 2. rewrite <- HE'def.
  pose proof (Z.div_mod (2 * m' + E') (2 * E') ltac:(lia)) as Hdm.
  pose proof (Z.mod_pos_bound (2 * m' + E') (2 * E') ltac:(lia)) as Hmod.
  apply (nearest_percentage_core c t m E m' E'); try lia.
Qed.

(** The reported percentage is the exact percentage rounded half up or, on
    an exact tie, possibly the integer below it. *)
Lemma percentage_exact_or_tie (c t : Z) :
  0 <= c <= t -> 0 < t < 2 ^ 32 ->
  Math_round (mul_count (div_counts c t) 100) = exact_percentage c t
  \/ (Math_round (mul_count (div_counts c t) 100) = exact_percentage c t - 1
      /\ 200 * c = (2 * exact_percentage c t - 1) * t).
Proof.
  intros Hc Ht. destruct (percentage_nearest c t Hc Ht) as [Hlo Hhi].
  set (r := Math_round (mul_count (div_counts c t) 100)) in *.
  unfold exact_percentage.
  assert (Hr : r <= (200 * c + t) / (2 * t)).
  { apply Z.div_le_lower_bound; lia. }
  assert (Hr' : (200 * c + t) / (2 * t) <= r + 1).
  { apply Z.div_le_upper_bound; lia. }
  destruct (Z.eq_dec r ((200 * c + t) / (2 * t))) as [E|E]; [now left|].
  right. assert (E1 : (200 * c + t) / (2 * t) = r + 1) by lia.
  split; [lia|].
  pose proof (Z.mul_div_le (200 * c + t) (2 * t) ltac:(lia)) as Hle.
  rewrite E1 in *. nia.
Qed.

End NearestPercentage.

(** ** Statistics *)

Lemma is_overdue_returns `{host : Host} (todo : obj) (w : world) :
  exists b w', is_overdue todo w = (Ok b, w').
Proof.
  unfold is_overdue. destruct (_ && _); run_effects; eauto.
Qed.

Lemma filterM_is_overdue_returns `{host : Host} (todos : list obj)
    (w : world) :
  exists l w', filterM is_overdue todos w = (Ok l, w').
Proof.
  revert w. induction todos as [|todo todos IH]; intros w; cbn [filterM].
  - unfold ret. eauto.
  - destruct (is_overdue_returns todo w) as [b [w1 E1]].
    rewrite (bind_Ok _ _ _ _ _ E1).
    destruct (IH w1) as [l [w2 E2]].
    rewrite (bind_Ok _ _ _ _ _ E2). unfold ret. eauto.
Qed.

Lemma count_completed_bounds (todos : list obj) :
  (0 <= count_completed todos <= Z.of_nat (length todos))%Z.
Proof.
  unfold count_completed.
  pose proof (List.filter_length_le
                (fun todo => truthy (get todo "completed")) todos).
  lia.
Qed.

Lemma completion_rate_bounds (completed total : Z) :
  (0 <= completed <= total)%Z ->
  (0 <= completion_rate completed total <= 100)%Z.
Proof.
  intros H. unfold completion_rate.
  destruct (0 <? total)%Z eqn:E; [|lia].
  apply Z.ltb_lt in E. now apply percentage_bounds.
Qed.

(** C7, as the code has it: for every list, [getTodoStats] returns
    statistics with [total = completed + active] and a [completionRate]
    within 0..100 that is 0 when [total] is 0 and otherwise is
    [Math.round] of the double [(completed / total) * 100]; for a list of
    fewer than [2^32] records, as every array is, that is
    [round(100 * completed / total)], or the integer below it when
    [100 * completed / total] lies exactly halfway between two integers. *)
Theorem getTodoStats_invariants `{host : Host} (todos : list obj)
    (w : world) :
  exists st w',
    getTodoStats todos w = (Ok st, w')
    /\ total st = Z.of_nat (length todos)
    /\ completed st = count_completed todos
    /\ total st = (completed st + active st)%Z
    /\ (0 <= completionRate st <= 100)%Z
    /\ (total st = 0%Z -> completionRate st = 0%Z)
    /\ ((0 < total st)%Z ->
        completionRate st
        = Binary64.Math_round
            (Binary64.mul_count
               (Binary64.div_counts (completed st) (total st)) 100))
    /\ ((0 < total st < 2 ^ 32)%Z ->
        completionRate st
        = Binary64.exact_percentage (completed st) (total st)
        \/ (completionRate st
            = (Binary64.exact_percentage (completed st) (total st) - 1)%Z
            /\ (200 * completed st
                = (2 * Binary64.exact_percentage (completed st) (total st) - 1)
                  * total st)%Z)).
Proof.
  unfold getTodoStats.
  destruct (filterM_is_overdue_returns todos w) as [l [w' E]].
  rewrite (bind_Ok _ _ _ _ _ E). unfold ret.
  eexists _, w'. split; [reflexivity|].
  cbn [total completed active completionRate].
  fold (count_completed todos).
  pose proof (count_completed_bounds todos) as Hc.
  split; [reflexivity|]. split; [reflexivity|]. split; [lia|].
  split; [now apply completion_rate_bounds|]. split; [|split].
  - intros ->. reflexivity.
  - intros H. unfold completion_rate.
    apply Z.ltb_lt in H. now rewrite H.
  - intros H. unfold completion_rate.
    assert ((0 <? Z.of_nat (length todos))%Z = true) as ->
      by (apply Z.ltb_lt; lia).
    now apply percentage_exact_or_tie.
Qed.

Lemma getTodoStats_invariants_witness :
  exists st w',
    getTodoStats (host := plain_host) [milk; rent; mum] world0 = (Ok st, w')
    /\ total st = 3%Z /\ completed st = 1%Z /\ active st = 2%Z
    /\ completionRate st = 33%Z.
Proof.
  destruct (getTodoStats_invariants (host := plain_host)
              [milk; rent; mum] world0)
    as [st [w' [H [Ht [Hc [Ha [_ [_ [Hr _]]]]]]]]].
  exists st, w'. split; [exact H|].
  change (Z.of_nat (length [milk; rent; mum])) with 3%Z in Ht.
  change (count_completed [milk; rent; mum]) with 1%Z in Hc.
  rewrite Ht, Hc in Hr. rewrite Hc, Ht in Ha.
  repeat split; [assumption|assumption|lia|].
  rewrite Hr by lia. reflexivity.
Defined.

(** The scenario of the specification: three records, one completed. *)
Example getTodoStats_scenario `{host : Host} :
  option_map (fun st => (total st, completed st, active st, completionRate st))
             (returned (getTodoStats [milk; rent; mum] world0))
  = Some (3, 1, 2, 33)%Z.
Proof. by_evaluation. Qed.

(** A tie that the doubles represent exactly rounds up. *)
Example completion_rate_1_of_8 :
  completion_rate 1 8 = 13%Z /\ Binary64.exact_percentage 1 8 = 13%Z.
Proof. split; reflexivity. Qed.

(** C7 as stated fails on ties: with 23 of 40 records completed the exact
    percentage is 57.5, which rounds to 58; the double nearest to 23/40
    times 100 is just below 57.5, and the code reports 57. *)
Lemma completionRate_23_of_40 :
  let todos := (repeat rent 23 ++ repeat milk 17)%list in
  option_map (fun st => (total st, completed st, completionRate st))
             (returned (getTodoStats (host := plain_host) todos world0))
  = Some (40, 23, 57)%Z
  /\ Binary64.exact_percentage 23 40 = 58%Z.
Proof.
  cbv zeta. split; by_evaluation.
Qed.


(** ** Insertion sort *)

Section InsertionSort.

Context {A : Type} (after : A -> A -> bool).

(** [x] may stand before [y]. *)
Let before (x y : A) : Prop := after x y = false.

Lemma insert_by_perm (x : A) (l : list A) :
  Permutation (x :: l) (insert_by after x l).
Proof.
  induction l as [|y l IH]; cbn; [reflexivity|].
  destruct (after x y); [|reflexivity].
  rewrite perm_swap. now apply perm_skip.
Qed.

Lemma sort_by_perm (l : list A) : Permutation l (sort_by after l).
Proof.
  induction l as [|x l IH]; cbn; [reflexivity|].
  rewrite <- insert_by_perm. now apply perm_skip.
Qed.

Lemma sort_by_In (l : list A) (x : A) : In x (sort_by after l) <-> In x l.
Proof.
  split; apply Permutation_in;
    [symmetry|]; apply sort_by_perm.
Qed.

(** Inserting [x] does not disturb a class of elements that [x] is never
    placed after when it belongs to the class. *)
Lemma insert_by_filter (P : A -> bool) (x : A) (l : list A) :
  (forall y, In y l -> after x y = true -> P x = true -> P y = false) ->
  List.filter P (insert_by after x l) = List.filter P (x :: l).
Proof.
  induction l as [|y l IH]; intros H; [reflexivity|].
  cbn [insert_by]. destruct (after x y) eqn:E; [|reflexivity].
  cbn [List.filter]. rewrite IH by (intros; apply H; cbn; auto).
  cbn [List.filter]. pose proof (H y (or_introl eq_refl) E) as Hy.
  destruct (P x); [|reflexivity].
  now rewrite Hy.
Qed.

Lemma sort_by_filter (P : A -> bool) (l : list A) :
  (forall x y, In x l -> In y l -> after x y = true -> P x = true ->
               P y = false) ->
  List.filter P (sort_by after l) = List.filter P l.
Proof.
  induction l as [|x l IH]; intros H; [reflexivity|].
  cbn [sort_by]. rewrite insert_by_filter.
  - cbn [List.filter].
    rewrite IH by (intros a b Ha Hb; apply H; now right).
    reflexivity.
  - intros y Hy. apply H; [now left|]. right. now apply sort_by_In.
Qed.

(** A list in which no element is placed after its successor is returned
    as it is. *)
Lemma sort_by_sorted_input (l : list A) :
  Sorted.Sorted before l -> sort_by after l = l.
Proof.
  induction 1 as [|x l Hl IH Hhd]; [reflexivity|].
  cbn [sort_by]. rewrite IH.
  destruct Hhd as [|y l' Hxy]; [reflexivity|].
  cbn [insert_by]. unfold before in Hxy. now rewrite Hxy.
Qed.

(** On a domain where [after] is asymmetric and [before] transitive, the
    result is sorted. *)
Variable D : A -> Prop.
Hypothesis after_asym :
  forall x y, D x -> D y -> after x y = true -> after y x = false.
Hypothesis before_trans :
  forall x y z, D x -> D y -> D z -> before x y -> before y z -> before x z.

Lemma insert_by_sorted (x : A) (l : list A) :
  D x -> Forall D l ->
  Sorted.StronglySorted before l ->
  Sorted.StronglySorted before (insert_by after x l).
Proof.
  intros Dx Dl Hl. induction Hl as [|y l Hl IH Hy]; cbn [insert_by].
  - constructor; constructor.
  - inversion Dl as [|? ? Dy Dl']; subst.
    destruct (after x y) eqn:E.
    + constructor; [now apply IH|].
      rewrite List.Forall_forall. intros z Hz.
      apply (Permutation_in _ (Permutation_sym (insert_by_perm x l))) in Hz.
      destruct Hz as [<-|Hz].
      * now apply after_asym.
      * rewrite List.Forall_forall in Hy. now apply Hy.
    + constructor; [now constructor|].
      constructor; [exact E|].
      rewrite List.Forall_forall in Hy, Dl' |- *. intros z Hz.
      apply (before_trans x y z); auto.
Qed.

Lemma sort_by_sorted (l : list A) :
  Forall D l -> Sorted.StronglySorted before (sort_by after l).
Proof.
  induction 1 as [|x l Dx Dl IH]; cbn [sort_by]; [constructor|].
  apply insert_by_sorted; [assumption| |assumption].
  rewrite List.Forall_forall in Dl |- *. intros y Hy.
  apply Dl. now apply sort_by_In.
Qed.

End InsertionSort.

(** [Array.prototype.sort] with a comparator that returns on the elements
    of the list is the insertion sort with the sign of the comparator. *)
Lemma sort_insert_pure {A} (cmp : A -> A -> result Z) (after : A -> A -> bool)
    (x : A) (l : list A) :
  (forall y, In y l -> exists c, cmp x y = Ok c /\ (0 <? c)%Z = after x y) ->
  sort_insert cmp x l = Ok (insert_by after x l).
Proof.
  induction l as [|y l IH]; intros H; [reflexivity|].
  cbn [sort_insert insert_by].
  destruct (H y (or_introl eq_refl)) as [c [-> <-]].
  destruct (0 <? c)%Z; [|reflexivity].
  rewrite IH by (intros; apply H; now right). reflexivity.
Qed.

Lemma Array_sort_pure {A} (cmp : A -> A -> result Z) (after : A -> A -> bool)
    (l : list A) :
  (forall x y, In x l -> In y l ->
               exists c, cmp x y = Ok c /\ (0 <? c)%Z = after x y) ->
  Array_sort cmp l = Ok (sort_by after l).
Proof.
  induction l as [|x l IH]; intros H; [reflexivity|].
  cbn [Array_sort sort_by].
  rewrite IH by (intros; apply H; now right).
  apply sort_insert_pure. intros y Hy. apply H; [now left|].
  right. now apply (sort_by_In after).
Qed.

(** ** The order of keys *)

Lemma code_inj (x y : ascii) : code x = code y -> x = y.
Proof.
  unfold code. intros H.
  rewrite <- (ascii_nat_embedding x), <- (ascii_nat_embedding y).
  now rewrite H.
Qed.

Lemma str_ltb_irrefl (s : string) : str_ltb s s = false.
Proof.
  induction s as [|c s IH]; cbn [str_ltb]; [reflexivity|].
  now rewrite Nat.ltb_irrefl.
Qed.

Lemma str_ltb_trans (a b c : string) :
  str_ltb a b = true -> str_ltb b c = true -> str_ltb a c = true.
Proof.
  revert b c. induction a as [|x a IH]; intros [|y b] [|z c]; cbn [str_ltb];
    try discriminate; try reflexivity.
  destruct (code x <? code y)%nat eqn:Exy.
  - intros _. apply Nat.ltb_lt in Exy.
    destruct (code y <? code z)%nat eqn:Eyz.
    + intros _. apply Nat.ltb_lt in Eyz.
      assert ((code x <? code z)%nat = true) as -> by (apply Nat.ltb_lt; lia).
      reflexivity.
    + destruct (code z <? code y)%nat eqn:Ezy; [discriminate|].
      apply Nat.ltb_ge in Eyz, Ezy. intros _.
      assert ((code x <? code z)%nat = true) as -> by (apply Nat.ltb_lt; lia).
      reflexivity.
  - destruct (code y <? code x)%nat eqn:Eyx; [discriminate|].
    apply Nat.ltb_ge in Exy, Eyx. assert (code x = code y) as Exy' by lia.
    rewrite Exy'. intros Hab.
    destruct (code y <? code z)%nat; [reflexivity|].
    destruct (code z <? code y)%nat; [discriminate|].
    now apply IH.
Qed.

Lemma str_ltb_asym (a b : string) : str_ltb a b = true -> str_ltb b a = false.
Proof.
  intros H. destruct (str_ltb b a) eqn:E; [|reflexivity].
  pose proof (str_ltb_trans a b a H E) as C.
  rewrite str_ltb_irrefl in C. discriminate.
Qed.

Lemma str_ltb_total (a b : string) :
  str_ltb a b = false -> str_ltb b a = false -> a = b.
Proof.
  revert b. induction a as [|x a IH]; intros [|y b]; cbn [str_ltb];
    try discriminate; try reflexivity.
  destruct (code x <? code y)%nat eqn:Exy; [discriminate|].
  destruct (code y <? code x)%nat eqn:Eyx; [discriminate|].
  apply Nat.ltb_ge in Exy, Eyx. intros Hab Hba.
  assert (x = y) as -> by (apply code_inj; lia).
  f_equal. now apply IH.
Qed.

Lemma key_ltb_irrefl (k : key) : key_ltb k k = false.
Proof.
  destruct k as [[n|]|s]; cbn;
    [apply Z.ltb_irrefl|reflexivity|apply str_ltb_irrefl].
Qed.

Lemma key_ltb_asym (a b : key) : key_ltb a b = true -> key_ltb b a = false.
Proof.
  destruct a as [[x|]|x], b as [[y|]|y]; cbn; try reflexivity;
    try discriminate.
  - intros H. apply Z.ltb_lt in H. apply Z.ltb_ge. lia.
  - apply str_ltb_asym.
Qed.

(** Keys of one kind are totally ordered. *)
Lemma key_ltb_total (a b : key) (kind : bool) :
  kind_of a = Some kind -> kind_of b = Some kind ->
  key_ltb a b = false -> key_ltb b a = false -> a = b.
Proof.
  destruct a as [[x|]|x], b as [[y|]|y], kind; cbn; try discriminate.
  - intros _ _ H1 H2. apply Z.ltb_ge in H1, H2. do 2 f_equal. lia.
  - intros _ _ H1 H2. f_equal. now apply str_ltb_total.
Qed.

Lemma key_le_trans (a b c : key) (kind : bool) :
  kind_of a = Some kind -> kind_of b = Some kind -> kind_of c = Some kind ->
  key_ltb b a = false -> key_ltb c b = false -> key_ltb c a = false.
Proof.
  destruct a as [[x|]|x], b as [[y|]|y], c as [[z|]|z], kind; cbn;
    try discriminate.
  - intros _ _ _ H1 H2. apply Z.ltb_ge in H1, H2. apply Z.ltb_ge. lia.
  - intros _ _ _ H1 H2. destruct (str_ltb z x) eqn:E; [|reflexivity].
    destruct (str_ltb x y) eqn:Exy.
    + now rewrite (str_ltb_trans z x y E Exy) in H2.
    + rewrite (str_ltb_total x y Exy H1) in E. congruence.
Qed.

Lemma key_eqb_eq (a b : key) : key_eqb a b = true -> a = b.
Proof.
  destruct a as [[x|]|x], b as [[y|]|y]; cbn; try discriminate.
  - intros H. apply Z.eqb_eq in H. now subst.
  - reflexivity.
  - intros H. apply String.eqb_eq in H. now subst.
Qed.

(** The sign of the comparator, by order. *)
Lemma compare_keys_positive (order : value) (a b : key) :
  (0 <? compare_keys order a b)%Z
  = if strict_eq order (VStr "asc") then key_ltb b a else key_ltb a b.
Proof.
  unfold compare_keys. destruct (strict_eq order (VStr "asc")).
  - destruct (key_ltb b a); [reflexivity|]. destruct (key_ltb a b); reflexivity.
  - destruct (key_ltb a b); [reflexivity|]. destruct (key_ltb b a); reflexivity.
Qed.

Lemma compare_keys_zero (order : value) (a b : key) :
  compare_keys order a b = 0%Z <-> key_ltb a b = false /\ key_ltb b a = false.
Proof.
  unfold compare_keys.
  destruct (strict_eq order (VStr "asc")), (key_ltb a b), (key_ltb b a);
    intuition discriminate.
Qed.

Lemma compare_todos_keys `{host : Host} (sortBy order : value) (a b : obj)
    (ka kb : key) :
  key_of sortBy a = Ok ka -> key_of sortBy b = Ok kb ->
  compare_todos sortBy order a b
  = Ok (compare_keys (default_arg order (VStr "desc")) ka kb).
Proof.
  unfold key_of, compare_todos, comparator. intros -> ->. reflexivity.
Qed.

(** ** Sorting records *)

Lemma StronglySorted_impl_In {A} (R R' : A -> A -> Prop) (l : list A) :
  (forall x y, In x l -> In y l -> R x y -> R' x y) ->
  Sorted.StronglySorted R l -> Sorted.StronglySorted R' l.
Proof.
  intros H HS. induction HS as [|x l HS IH Hx]; constructor.
  - apply IH. intros a b Ha Hb. apply H; now right.
  - rewrite List.Forall_forall in Hx |- *. intros y Hy.
    apply H; [now left|now right|now apply Hx].
Qed.

Lemma Sorted_impl {A} (R R' : A -> A -> Prop) (l : list A) :
  (forall x y, R x y -> R' x y) -> Sorted.Sorted R l -> Sorted.Sorted R' l.
Proof.
  intros H HS. induction HS as [|x l HS IH Hx]; constructor;
    [assumption|].
  destruct Hx; constructor. now apply H.
Qed.

Section SortTodos.

Context `{host : Host}.
Variables sortBy order : value.

Lemma placed_after_keys (a b : obj) (ka kb : key) :
  key_of sortBy a = Ok ka -> key_of sortBy b = Ok kb ->
  placed_after sortBy order a b
  = if strict_eq (default_arg order (VStr "desc")) (VStr "asc")
    then key_ltb kb ka else key_ltb ka kb.
Proof.
  intros Ha Hb. unfold placed_after.
  rewrite (compare_todos_keys _ _ _ _ _ _ Ha Hb).
  apply compare_keys_positive.
Qed.

Lemma not_after_placed (a b : obj) :
  not_after sortBy order a b -> placed_after sortBy order a b = false.
Proof.
  intros [c [H Hc]]. unfold placed_after. rewrite H. apply Z.ltb_ge. lia.
Qed.

(** Records with the same key are never placed after one another. *)
Lemma placed_after_other_key (k : key) (x y : obj) :
  placed_after sortBy order x y = true ->
  has_key sortBy k x = true -> has_key sortBy k y = false.
Proof.
  unfold placed_after, has_key, compare_todos, key_of, comparator.
  destruct (sort_key _ x) as [kx|]; [|discriminate].
  destruct (sort_key _ y) as [ky|]; [|discriminate].
  rewrite compare_keys_positive. intros H Hx.
  destruct (key_eqb ky k) eqn:Hy; [|reflexivity].
  apply key_eqb_eq in Hx, Hy. subst kx ky.
  rewrite key_ltb_irrefl in H. destruct (strict_eq _ _); discriminate.
Qed.

Variable kind : bool.

Lemma keyed_compare_returns (a b : obj) :
  keyed sortBy kind a -> keyed sortBy kind b ->
  exists c, compare_todos sortBy order a b = Ok c
            /\ (0 <? c)%Z = placed_after sortBy order a b.
Proof.
  intros [ka [Ha _]] [kb [Hb _]]. unfold placed_after.
  rewrite (compare_todos_keys _ _ _ _ _ _ Ha Hb). eauto.
Qed.

Lemma placed_after_asym (a b : obj) :
  keyed sortBy kind a -> keyed sortBy kind b ->
  placed_after sortBy order a b = true ->
  placed_after sortBy order b a = false.
Proof.
  intros [ka [Ha _]] [kb [Hb _]].
  rewrite (placed_after_keys _ _ _ _ Ha Hb), (placed_after_keys _ _ _ _ Hb Ha).
  destruct (strict_eq _ _); apply key_ltb_asym.
Qed.

Lemma placed_before_trans (a b c : obj) :
  keyed sortBy kind a -> keyed sortBy kind b -> keyed sortBy kind c ->
  placed_after sortBy order a b = false ->
  placed_after sortBy order b c = false ->
  placed_after sortBy order a c = false.
Proof.
  intros [ka [Ha Ka]] [kb [Hb Kb]] [kc [Hc Kc]].
  rewrite (placed_after_keys _ _ _ _ Ha Hb), (placed_after_keys _ _ _ _ Hb Hc),
    (placed_after_keys _ _ _ _ Ha Hc).
  destruct (strict_eq _ _); intros H1 H2.
  - exact (key_le_trans ka kb kc kind Ka Kb Kc H1 H2).
  - exact (key_le_trans kc kb ka kind Kc Kb Ka H2 H1).
Qed.

Lemma placed_not_after (a b : obj) :
  keyed sortBy kind a -> keyed sortBy kind b ->
  placed_after sortBy order a b = false -> not_after sortBy order a b.
Proof.
  intros Ka Kb H. destruct (keyed_compare_returns a b Ka Kb) as [c [Hc Hs]].
  exists c. split; [assumption|]. rewrite H in Hs. now apply Z.ltb_ge.
Qed.

Lemma tie_same_key (a b : obj) :
  keyed sortBy kind a -> keyed sortBy kind b ->
  tie sortBy order a b <-> key_of sortBy a = key_of sortBy b.
Proof.
  intros [ka [Ha Ka]] [kb [Hb Kb]]. unfold tie.
  rewrite (compare_todos_keys _ _ _ _ _ _ Ha Hb), Ha, Hb. split.
  - intros H. inversion H as [H0]. apply compare_keys_zero in H0 as [H1 H2].
    f_equal. exact (key_ltb_total ka kb kind Ka Kb H1 H2).
  - intros H. inversion H; subst. f_equal. apply compare_keys_zero.
    split; apply key_ltb_irrefl.
Qed.

End SortTodos.

(** The key of a sortable record is a string when sorting by text or
    category and a number other than [NaN] otherwise. *)
Lemma sortable_keyed `{host : Host} (sortBy : value) (todo : obj) :
  sortable sortBy todo = true ->
  keyed sortBy
        (negb (strict_eq (default_arg sortBy (VStr "createdAt")) (VStr "text")
               || strict_eq (default_arg sortBy (VStr "createdAt"))
                            (VStr "category")))
        todo.
Proof.
  unfold sortable, keyed, key_of, sort_key.
  set (sb := default_arg sortBy (VStr "createdAt")).
  destruct (strict_eq sb (VStr "text")) eqn:E1.
  { destruct (get todo "text"); try discriminate. intros _.
    eexists. split; reflexivity. }
  destruct (strict_eq sb (VStr "priority")) eqn:E2.
  { assert (strict_eq sb (VStr "category") = false) as ->.
    { apply strict_eq_VStr in E2. rewrite E2. reflexivity. }
    unfold priority_rank.
    destruct (inherited_member _); [discriminate|]. intros _.
    destruct (String.eqb _ "high"); [eexists; split; reflexivity|].
    destruct (String.eqb _ "medium"); [eexists; split; reflexivity|].
    destruct (String.eqb _ "low"); eexists; split; reflexivity. }
  destruct (strict_eq sb (VStr "category")) eqn:E3.
  { destruct (get todo "category"); try discriminate. intros _.
    eexists. split; reflexivity. }
  destruct (strict_eq sb (VStr "completed")).
  { intros _. eexists. split; reflexivity. }
  unfold is_valid_date.
  destruct (strict_eq sb (VStr "dueDate")).
  { destruct (truthy (get todo "dueDate")); cbn [negb orb].
    - destruct (Date_getTime _); [|discriminate]. intros _.
      eexists. split; reflexivity.
    - intros _. eexists. split; reflexivity. }
  destruct (strict_eq sb (VStr "updatedAt")).
  { destruct (Date_getTime _); [|discriminate]. intros _.
    eexists. split; reflexivity. }
  destruct (Date_getTime _); [|discriminate]. intros _.
  eexists. split; reflexivity.
Qed.

(** C8, as the code has it: for every list whose records have, in the
    property that [sortBy] reads, a value that the comparator can order
    (a string for the text and the category, a priority that does not
    name a member of [Object.prototype], a valid date for the timestamps
    and for a due date that is set), every key and every order,
    [sortTodos] returns a permutation of the list that the comparator
    finds in order, in which the records of every key stand in the order
    they had in the list; two records compare equal exactly when they have
    the same key; and a list that the comparator finds in order is
    returned as it is.  What a valid date is beyond the format of the
    language is the implementation's, and the theorem holds for every
    implementation. *)
Theorem sortTodos_stable `{host : Host} (todos : list obj)
    (sortBy order : value) :
  Forall (fun todo => sortable sortBy todo = true) todos ->
  exists sorted,
    sortTodos todos sortBy order = Ok sorted
    /\ Permutation todos sorted
    /\ Sorted.StronglySorted (not_after sortBy order) sorted
    /\ (forall a b, In a todos -> In b todos ->
                    (tie sortBy order a b
                     <-> key_of sortBy a = key_of sortBy b))
    /\ (forall k, List.filter (has_key sortBy k) sorted
                  = List.filter (has_key sortBy k) todos)
    /\ (Sorted.Sorted (not_after sortBy order) todos -> sorted = todos).
Proof.
  intros Hs.
  set (kind := negb (strict_eq (default_arg sortBy (VStr "createdAt"))
                               (VStr "text")
                     || strict_eq (default_arg sortBy (VStr "createdAt"))
                                  (VStr "category"))).
  assert (HK : Forall (keyed sortBy kind) todos).
  { eapply List.Forall_impl; [|exact Hs]. apply sortable_keyed. }
  pose proof HK as HK'. rewrite List.Forall_forall in HK'.
  exists (sort_by (placed_after sortBy order) todos).
  split; [|split; [|split; [|split; [|split]]]].
  - unfold sortTodos. apply Array_sort_pure. intros x y Hx Hy.
    apply (keyed_compare_returns sortBy order kind); auto.
  - apply sort_by_perm.
  - apply (StronglySorted_impl_In
             (fun a b => placed_after sortBy order a b = false)).
    + intros x y Hx Hy. apply sort_by_In in Hx, Hy.
      apply (placed_not_after sortBy order kind); auto.
    + apply (sort_by_sorted _ (keyed sortBy kind)).
      * apply placed_after_asym.
      * apply placed_before_trans.
      * assumption.
  - intros a b Ha Hb. apply (tie_same_key sortBy order kind); auto.
  - intros k. apply sort_by_filter. intros x y _ _.
    apply placed_after_other_key.
  - intros HS. apply sort_by_sorted_input.
    eapply Sorted_impl; [|exact HS]. apply not_after_placed.
Qed.

Lemma sortTodos_stable_witness :
  (exists sorted,
      sortTodos (host := plain_host) [milk; rent; mum]
                (VStr "category") (VStr "asc") = Ok sorted
      /\ Permutation [milk; rent; mum] sorted
      /\ List.filter (has_key (host := plain_host) (VStr "category")
                              (KStr "personal")) sorted
         = [rent; mum])
  /\ sortTodos (host := plain_host) [rent; mum; milk]
               (VStr "category") (VStr "asc")
     = Ok [rent; mum; milk].
Proof.
  split.
  - destruct (sortTodos_stable (host := plain_host) [milk; rent; mum]
                (VStr "category") (VStr "asc"))
      as [sorted [H1 [H2 [_ [_ [H3 _]]]]]].
    + repeat constructor.
    + exists sorted. split; [exact H1|]. split; [exact H2|].
      exact (H3 (KStr "personal")).
  - destruct (sortTodos_stable (host := plain_host) [rent; mum; milk]
                (VStr "category") (VStr "asc"))
      as [sorted [H1 [_ [_ [_ [_ H4]]]]]].
    + repeat constructor.
    + rewrite H1. f_equal. apply H4.
      repeat constructor; eexists; (split; [reflexivity|]); discriminate.
Defined.

(** The scenario of the specification: priorities low, high, medium sort
    to high, medium, low in descending order. *)
Example sortTodos_priority_desc `{host : Host} :
  column "priority"
         (sortTodos [milk; rent; mum] (VStr "priority") (VStr "desc"))
  = Some [VStr "high"; VStr "medium"; VStr "low"].
Proof. by_evaluation. Qed.

(** Records with equal keys keep their order, in both directions. *)
Example sortTodos_ties_keep_order `{host : Host} :
  column "id" (sortTodos [mum; milk; rent] (VStr "category") (VStr "asc"))
  = Some [VStr "c"; VStr "b"; VStr "a"]
  /\ column "id" (sortTodos [mum; milk; rent] (VStr "category") (VStr "desc"))
     = Some [VStr "a"; VStr "c"; VStr "b"].
Proof. split; by_evaluation. Qed.

(** C8 as stated fails on a list with a record that has no text: sorting
    it by text returns no order at all, the comparator throws on
    [a.text.toLowerCase()]. *)
Lemma sortTodos_missing_text :
  sortTodos (host := plain_host) [milk; delete "text" rent]
            (VStr "text") (VStr "asc")
  = Throw (TypeError
             "Cannot read properties of undefined (reading 'toLowerCase')")
  /\ get (delete "text" rent) "text" = VUndefined.
Proof. split; [by_evaluation|reflexivity]. Qed.
(** * Further properties of the module *)

(** ** Lists kept by a filter *)

Lemma filter_sublist {A} (p : A -> bool) (l : list A) :
  sublist (List.filter p l) l.
Proof.
  induction l as [|x l IH]; cbn; [constructor|].
  destruct (p x); now constructor.
Qed.

Lemma filter_filter_comm {A} (p q : A -> bool) (l : list A) :
  List.filter p (List.filter q l) = List.filter q (List.filter p l).
Proof.
  induction l as [|x l IH]; cbn; [reflexivity|].
  destruct (p x) eqn:P, (q x) eqn:Q; cbn; rewrite ?P, ?Q, IH; reflexivity.
Qed.

Lemma filter_idem {A} (p : A -> bool) (l : list A) :
  List.filter p (List.filter p l) = List.filter p l.
Proof.
  induction l as [|x l IH]; cbn; [reflexivity|].
  destruct (p x) eqn:P; cbn; rewrite ?P, IH; reflexivity.
Qed.

Lemma filter_partition_perm {A} (p : A -> bool) (l : list A) :
  Permutation l (List.filter (fun x => negb (p x)) l ++ List.filter p l).
Proof.
  induction l as [|x l IH]; cbn; [reflexivity|].
  destruct (p x); cbn.
  - now apply Permutation_cons_app.
  - now apply perm_skip.
Qed.

Lemma filter_none {A} (p : A -> bool) (l : list A) :
  Forall (fun x => p x = false) l -> List.filter p l = [].
Proof.
  induction 1 as [|x l Hx _ IH]; cbn; [reflexivity|]. now rewrite Hx.
Qed.

(** ** Filtering by status, category and priority *)

(** X1: the active and the completed records of [filterTodos] divide the
    list: every record is in exactly one of the two results, each result
    keeps the order of the list, no active record is completed and every
    completed one is. *)
Theorem filterTodos_divides (todos : list obj) :
  Permutation todos
    (filterTodos todos (VStr "active") ++ filterTodos todos (VStr "completed"))
  /\ length (filterTodos todos (VStr "active"))
     + length (filterTodos todos (VStr "completed")) = length todos
  /\ sublist (filterTodos todos (VStr "active")) todos
  /\ sublist (filterTodos todos (VStr "completed")) todos
  /\ Forall (fun todo => truthy (get todo "completed") = false)
            (filterTodos todos (VStr "active"))
  /\ Forall (fun todo => truthy (get todo "completed") = true)
            (filterTodos todos (VStr "completed")).
Proof.
  change (filterTodos todos (VStr "active"))
    with (List.filter (fun todo => negb (truthy (get todo "completed"))) todos).
  change (filterTodos todos (VStr "completed"))
    with (List.filter (fun todo => truthy (get todo "completed")) todos).
  pose proof (filter_partition_perm
                (fun todo => truthy (get todo "completed")) todos) as HP.
  split; [exact HP|]. split.
  - apply Permutation_length in HP. rewrite length_app in HP. lia.
  - split; [apply filter_sublist|]. split; [apply filter_sublist|].
    split; rewrite List.Forall_forall; intros todo Hin;
      apply filter_In in Hin as [_ H]; [|exact H].
    now apply negb_true_iff in H.
Qed.

(** The filter that [filterByCategory] and [filterByPriority] apply. *)
Lemma filterByCategory_filter (todos : list obj) (category : value) :
  filterByCategory todos category
  = List.filter (fun todo =>
                   negb (truthy category) || strict_eq category (VStr "all")
                   || strict_eq (get todo "category") category) todos.
Proof.
  unfold filterByCategory.
  destruct (negb (truthy category) || strict_eq category (VStr "all")).
  - symmetry. now apply filter_keeps_all.
  - reflexivity.
Qed.

Lemma filterByPriority_filter (todos : list obj) (priority : value) :
  filterByPriority todos priority
  = List.filter (fun todo =>
                   negb (truthy priority) || strict_eq priority (VStr "all")
                   || strict_eq (get todo "priority") priority) todos.
Proof.
  unfold filterByPriority.
  destruct (negb (truthy priority) || strict_eq priority (VStr "all")).
  - symmetry. now apply filter_keeps_all.
  - reflexivity.
Qed.

Lemma filterTodos_filter (todos : list obj) (status : value) :
  filterTodos todos status
  = List.filter (fun todo =>
                   if strict_eq status (VStr "active")
                   then negb (truthy (get todo "completed"))
                   else if strict_eq status (VStr "completed")
                        then truthy (get todo "completed") else true) todos.
Proof.
  unfold filterTodos.
  destruct (strict_eq status (VStr "active")); [reflexivity|].
  destruct (strict_eq status (VStr "completed")); [reflexivity|].
  symmetry. now apply filter_keeps_all.
Qed.

(** X2: the three filters can be applied in any order: filtering by
    category and by priority commute with each other and with the filter
    by status, and applying one of them twice is applying it once. *)
Theorem filters_commute (todos : list obj) (status category priority : value) :
  filterByCategory (filterByPriority todos priority) category
  = filterByPriority (filterByCategory todos category) priority
  /\ filterTodos (filterByCategory todos category) status
     = filterByCategory (filterTodos todos status) category
  /\ filterTodos (filterByPriority todos priority) status
     = filterByPriority (filterTodos todos status) priority
  /\ filterByCategory (filterByCategory todos category) category
     = filterByCategory todos category
  /\ filterByPriority (filterByPriority todos priority) priority
     = filterByPriority todos priority
  /\ filterTodos (filterTodos todos status) status = filterTodos todos status.
Proof.
  rewrite !filterByCategory_filter, !filterByPriority_filter,
    !filterTodos_filter.
  repeat split; auto using filter_filter_comm, filter_idem.
Qed.





(** ** What the operations do to the storage *)

Lemma confined_ret {A} (a : A) : confined (ret a).
Proof. intros w r w' H. inversion H. apply same_storage_refl. Qed.

Lemma confined_throw {A} (e : error) : confined (@throw A e).
Proof. intros w r w' H. inversion H. apply same_storage_refl. Qed.

Lemma confined_bind {A B} (m : M A) (k : A -> M B) :
  confined m -> (forall a, confined (k a)) -> confined (bind m k).
Proof.
  intros Hm Hk w r w' H. unfold bind in H.
  destruct (m w) as [[a|e] w1] eqn:E.
  - eapply same_storage_trans; [eapply Hm; exact E|]. eapply Hk. exact H.
  - inversion H; subst. eapply Hm. exact E.
Qed.

Lemma confined_now_iso : confined now_iso.
Proof.
  intros w r w' H. unfold now_iso, bind, Date_now, ret in H.
  inversion H. apply same_storage_ticks.
Qed.

Lemma confined_uuidv4 : confined uuidv4.
Proof. intros w r w' H. inversion H. apply same_storage_drawn. Qed.

Lemma confined_call_trim (v : value) : confined (call_trim v).
Proof.
  intros w r w' H. destruct v; inversion H; apply same_storage_refl.
Qed.

Lemma confined_if {A} (b : bool) (m1 m2 : M A) :
  confined m1 -> confined m2 -> confined (if b then m1 else m2).
Proof. now destruct b. Qed.

Lemma confined_mapM {A B} (f : A -> M B) (l : list A) :
  (forall x, confined (f x)) -> confined (mapM f l).
Proof.
  intros Hf. induction l as [|x l IH]; cbn [mapM].
  - apply confined_ret.
  - apply confined_bind; [apply Hf|]. intros y.
    apply confined_bind; [exact IH|]. intros ys. apply confined_ret.
Qed.

Create HintDb confined.
#[local] Hint Resolve confined_ret confined_throw confined_now_iso
  confined_uuidv4 confined_call_trim confined_mapM : confined.

Ltac confine :=
  cbv zeta;
  repeat first
    [ solve [auto with confined]
    | apply confined_bind; [|intros ?]
    | apply confined_if
    | apply confined_mapM; intros ? ].

Lemma confined_createTodo (text category priority : value) :
  confined (createTodo text category priority).
Proof. unfold createTodo. confine. Qed.

Lemma confined_updated (todo updates : obj) : confined (updated todo updates).
Proof. unfold updated. confine. Qed.

(** An operation that computes a list with confined effects, saves it and
    returns it. *)
Lemma compute_save_return (body : M (list obj)) (w : world)
    (r : result (list obj)) (w' : world) :
  confined body ->
  (let* updatedTodos := body in
   saveTodos updatedTodos;; ret updatedTodos) w = (r, w') ->
  match r with
  | Ok l => exists w1, same_storage w w1 /\ w' = saved l w1
  | Throw _ => same_storage w w'
  end.
Proof.
  intros Hb H. unfold bind at 1 in H.
  destruct (body w) as [[l|e] w1] eqn:E.
  - rewrite save_then_return in H. inversion H; subst.
    exists w1. split; [eapply Hb; exact E|reflexivity].
  - inversion H; subst. eapply Hb. exact E.
Qed.

Lemma apply_mutation_outcome (m : mutation) (todos : list obj) (w : world)
    (r : result (list obj)) (w' : world) :
  apply_mutation m todos w = (r, w') ->
  match r with
  | Ok l => exists w1, same_storage w w1 /\ w' = saved l w1
  | Throw _ => same_storage w w'
  end.
Proof.
  destruct m as [txt category priority|id updates|id|id|ids| |completed|id
                |ids updates]; cbn [apply_mutation].
  - (* addTodo *)
    unfold addTodo. intros H. unfold bind at 1 in H.
    match type of H with context [match ?c w with _ => _ end] =>
      assert (Hc : confined c) by confine;
      destruct (c w) as [[[|]|e] w0] eqn:E end.
    + inversion H; subst. eapply Hc. exact E.
    + apply Hc in E. unfold bind at 1 in H.
      destruct (createTodo txt _ _ w0) as [[newTodo|e] w1] eqn:E1;
        apply confined_createTodo in E1.
      * rewrite save_then_return in H. inversion H; subst.
        exists w1. split; [|reflexivity].
        eapply same_storage_trans; eassumption.
      * inversion H; subst. eapply same_storage_trans; eassumption.
    + inversion H; subst. eapply Hc. exact E.
  - apply compute_save_return. confine.
  - apply compute_save_return. confine.
  - unfold deleteTodo. rewrite save_then_return. intros H; inversion H; subst.
    eexists. split; [apply same_storage_refl|reflexivity].
  - unfold deleteTodos. rewrite save_then_return. intros H; inversion H; subst.
    eexists. split; [apply same_storage_refl|reflexivity].
  - unfold clearCompleted. rewrite save_then_return.
    intros H; inversion H; subst.
    eexists. split; [apply same_storage_refl|reflexivity].
  - apply compute_save_return. confine.
  - (* duplicateTodo *)
    unfold duplicateTodo. destruct (find_by_id todos id) as [todo|].
    + run_effects. rewrite saveTodos_spec. intros H; inversion H; subst.
      eexists. split; [|reflexivity]. unfold same_storage. cbn. tauto.
    + intros H; inversion H; subst. apply same_storage_refl.
  - apply compute_save_return. confine.
Qed.

(** X5: a mutation operation that returns has written the list it returns,
    and nothing else, to storage: the item under the key is the
    serialized list and every other item is as before; when the write
    fails, the items are as before, the failure is reported on the
    console, and the operation returns all the same. *)
Theorem mutation_persists_result (m : mutation) (todos : list obj) (w : world)
    (updatedTodos : list obj) (w' : world) :
  apply_mutation m todos w = (Ok updatedTodos, w') ->
  (ls_writable w = true ->
   ls_items w' = <[TODOS_STORAGE_KEY := exported updatedTodos]> (ls_items w)
   /\ console w' = console w)
  /\ (ls_writable w = false ->
      ls_items w' = ls_items w
      /\ console w'
         = (console w ++ ["Error saving todos to localStorage:"])%list).
Proof.
  intros H. apply apply_mutation_outcome in H as [w1 [Hs ->]].
  destruct Hs as (_ & Hw & Hi & Hc & _). unfold saved. rewrite Hw.
  split; intros E; rewrite E; cbn; rewrite ?Hi, ?Hc; auto.
Qed.

Lemma mutation_persists_result_witness :
  exists updatedTodos w',
    apply_mutation (Delete (VStr "a")) [milk; rent] world0
    = (Ok updatedTodos, w')
    /\ ls_items w' !! TODOS_STORAGE_KEY = Some (exported updatedTodos).
Proof.
  destruct (mutation_returns (Delete (VStr "a")) [milk; rent] world0 I)
    as [l [w' H]].
  exists l, w'. split; [exact H|].
  destruct (mutation_persists_result _ _ _ _ _ H) as [Hw _].
  destruct (Hw eq_refl) as [-> _]. apply lookup_insert_eq.
Defined.

(** X6: a mutation operation that throws has written nothing: the items of
    the storage, the console and the downloads are as before. *)
Theorem mutation_throws_untouched (m : mutation) (todos : list obj)
    (w : world) (e : error) (w' : world) :
  apply_mutation m todos w = (Throw e, w') ->
  ls_items w' = ls_items w
  /\ console w' = console w
  /\ downloads w' = downloads w.
Proof.
  intros H. apply apply_mutation_outcome in H.
  destruct H as (_ & _ & Hi & Hc & Hd & _). auto.
Qed.

Lemma mutation_throws_untouched_witness :
  ls_items (snd (apply_mutation (Duplicate (VStr "z")) [milk] world0))
  = ls_items world0
  /\ console (snd (apply_mutation (Duplicate (VStr "z")) [milk] world0))
     = console world0
  /\ downloads (snd (apply_mutation (Duplicate (VStr "z")) [milk] world0))
     = downloads world0.
Proof.
  apply (mutation_throws_untouched (Duplicate (VStr "z")) [milk] world0
           (Error "Todo not found")).
  reflexivity.
Defined.

(** ** Maps that stamp the selected records *)

Lemma stamped_weaken (selected : obj -> bool) (rebuild : obj -> value -> obj)
    (clk : nat -> Z) (lo lo' hi hi' : nat) (todo todo' : obj) :
  (lo <= lo')%nat -> (hi' <= hi)%nat ->
  stamped selected rebuild clk lo' hi' todo todo' ->
  stamped selected rebuild clk lo hi todo todo'.
Proof.
  unfold stamped. intros Hlo Hhi. destruct (selected todo); [|auto].
  intros [n [H1 [H2 H3]]]. exists n. repeat split; [lia|lia|assumption].
Qed.

Lemma mapM_stamped (selected : obj -> bool) (rebuild : obj -> value -> obj)
    (f : obj -> M obj) (todos : list obj) (w : world) :
  (forall todo w0, selected todo = true ->
     f todo w0
     = (Ok (rebuild todo (VStr (toISOString (clock w0 (ticks w0))))),
        set_ticks (S (ticks w0)) w0)) ->
  (forall todo, selected todo = false -> f todo = ret todo) ->
  exists updatedTodos w',
    mapM f todos w = (Ok updatedTodos, w')
    /\ same_storage w w'
    /\ (ticks w <= ticks w')%nat
    /\ uuid_drawn w' = uuid_drawn w
    /\ Forall2 (stamped selected rebuild (clock w) (ticks w) (ticks w'))
               todos updatedTodos.
Proof.
  intros Hsel Hnot. revert w.
  induction todos as [|todo todos IH]; intros w.
  - exists [], w. split; [reflexivity|]. split; [apply same_storage_refl|].
    split; [lia|]. split; [reflexivity|]. constructor.
  - cbn [mapM]. destruct (selected todo) eqn:E.
    + rewrite (bind_Ok _ _ _ _ _ (Hsel todo w E)).
      destruct (IH (set_ticks (S (ticks w)) w))
        as [l [w' [Hl [Hs [Ht [Hd HF]]]]]].
      rewrite (bind_Ok _ _ _ _ _ Hl). unfold ret.
      eexists _, w'. split; [reflexivity|].
      assert (Hc : clock w' = clock w) by (destruct Hs as (_&_&_&_&_&Hc&_); exact Hc).
      cbn in Ht, Hd. split.
      { eapply same_storage_trans; [apply same_storage_ticks|exact Hs]. }
      split; [lia|]. split; [assumption|].
      constructor.
      * unfold stamped. rewrite E. exists (ticks w).
        repeat split; [lia|lia].
      * eapply Forall2_impl; [exact HF|]. intros a b Hab. cbn in Hab.
        eapply stamped_weaken; [| |exact Hab]; lia.
    + rewrite (Hnot todo E). unfold bind at 1, ret at 1.
      destruct (IH w) as [l [w' [Hl [Hs [Ht [Hd HF]]]]]].
      rewrite (bind_Ok _ _ _ _ _ Hl). unfold ret.
      eexists _, w'. split; [reflexivity|].
      split; [exact Hs|]. split; [exact Ht|]. split; [exact Hd|].
      constructor; [|assumption]. unfold stamped. now rewrite E.
Qed.

Lemma ticks_saved (l : list obj) (w : world) : ticks (saved l w) = ticks w.
Proof. unfold saved. destruct (ls_writable w); reflexivity. Qed.

(** The shape of the operations that map, save and return. *)
Lemma map_save_return (selected : obj -> bool) (rebuild : obj -> value -> obj)
    (f : obj -> M obj) (todos : list obj) (w : world) :
  (forall todo w0, selected todo = true ->
     f todo w0
     = (Ok (rebuild todo (VStr (toISOString (clock w0 (ticks w0))))),
        set_ticks (S (ticks w0)) w0)) ->
  (forall todo, selected todo = false -> f todo = ret todo) ->
  exists updatedTodos w',
    (let* updatedTodos := mapM f todos in
     saveTodos updatedTodos;; ret updatedTodos) w = (Ok updatedTodos, w')
    /\ Forall2 (stamped selected rebuild (clock w) (ticks w) (ticks w'))
               todos updatedTodos.
Proof.
  intros Hsel Hnot.
  destruct (mapM_stamped selected rebuild f todos w Hsel Hnot)
    as [l [w' [Hl [_ [_ [_ HF]]]]]].
  exists l, (saved l w'). rewrite (bind_Ok _ _ _ _ _ Hl), save_then_return.
  split; [reflexivity|]. now rewrite ticks_saved.
Qed.

(** ** Setting every record, and clearing the completed ones *)

(** X7: [toggleAllTodos] returns, at every place, the record of the list
    with [completed] set to the given value ([true] when none is given)
    and [updatedAt] set to a reading of the clock taken during the call,
    so the ids, the length and the order are as before; [clearCompleted]
    then returns the empty list when the value is truthy and the whole
    list when it is falsy. *)
Theorem toggleAllTodos_sets_all (todos : list obj) (completed : value)
    (w w2 : world) :
  exists updatedTodos w',
    toggleAllTodos todos completed w = (Ok updatedTodos, w')
    /\ Forall2 (stamped (fun _ => true)
                        (completed_set (default_arg completed (VBool true)))
                        (clock w) (ticks w) (ticks w'))
               todos updatedTodos
    /\ Forall (fun todo => get todo "completed"
                           = default_arg completed (VBool true))
              updatedTodos
    /\ ids_of updatedTodos = ids_of todos
    /\ fst (clearCompleted updatedTodos w2)
       = Ok (if truthy (default_arg completed (VBool true)) then []
             else updatedTodos).
Proof.
  unfold toggleAllTodos.
  destruct (map_save_return (fun _ => true)
              (completed_set (default_arg completed (VBool true)))
              (fun todo =>
                 let* updatedAt := now_iso in
                 ret (<["updatedAt" := updatedAt]>
                      (<["completed" := default_arg completed (VBool true)]>
                       todo)))
              todos w) as [l [w' [H HF]]].
  { intros todo w0 _. reflexivity. }
  { discriminate. }
  exists l, w'. split; [exact H|]. split; [exact HF|].
  assert (HA : Forall (fun todo => get todo "completed"
                                   = default_arg completed (VBool true)) l).
  { clear H. induction HF as [|t t' ts ts' Ht _ IH]; constructor; [|exact IH].
    destruct Ht as [n [_ [_ ->]]]. unfold completed_set.
    rewrite get_insert_ne by discriminate. apply get_insert_eq. }
  split; [exact HA|]. split.
  - clear H HA. induction HF as [|t t' ts ts' Ht _ IH]; [reflexivity|].
    cbn. f_equal; [|exact IH].
    destruct Ht as [n [_ [_ ->]]]. unfold completed_set.
    now rewrite !get_insert_ne by discriminate.
  - unfold clearCompleted. rewrite save_then_return. cbn [fst]. f_equal.
    destruct (truthy (default_arg completed (VBool true))) eqn:E.
    + apply filter_none. eapply List.Forall_impl; [|exact HA].
      cbn. intros todo ->. now rewrite E.
    + apply filter_keeps_all. rewrite List.Forall_forall in HA.
      intros todo Hin. now rewrite (HA todo Hin), E.
Qed.

(** X8: [clearCompleted] returns the active records of [filterTodos], in
    their order; none of them is completed, and clearing the result again
    returns it unchanged. *)
Theorem clearCompleted_keeps_active (todos : list obj) (w w2 : world) :
  clearCompleted todos w
  = (Ok (filterTodos todos (VStr "active")),
     saved (filterTodos todos (VStr "active")) w)
  /\ sublist (filterTodos todos (VStr "active")) todos
  /\ Forall (fun todo => truthy (get todo "completed") = false)
            (filterTodos todos (VStr "active"))
  /\ clearCompleted (filterTodos todos (VStr "active")) w2
     = (Ok (filterTodos todos (VStr "active")),
        saved (filterTodos todos (VStr "active")) w2).
Proof.
  change (filterTodos todos (VStr "active"))
    with (List.filter (fun todo => negb (truthy (get todo "completed"))) todos).
  unfold clearCompleted. rewrite !save_then_return, filter_idem.
  split; [reflexivity|]. split; [apply filter_sublist|].
  split; [|reflexivity].
  rewrite List.Forall_forall. intros todo Hin.
  apply filter_In in Hin as [_ H]. now apply negb_true_iff in H.
Qed.

(** ** Deleting *)

Lemma strict_eq_sym (a b : value) : strict_eq a b = strict_eq b a.
Proof.
  destruct a as [| |x|x|x|x|x], b as [| |y|y|y|y|y]; cbn; try reflexivity.
  - destruct x, y; reflexivity.
  - apply Z.eqb_sym.
  - apply String.eqb_sym.
Qed.

Lemma filter_filter_and {A} (p q : A -> bool) (l : list A) :
  List.filter p (List.filter q l) = List.filter (fun x => q x && p x) l.
Proof.
  induction l as [|x l IH]; cbn; [reflexivity|].
  destruct (q x); cbn; [destruct (p x)|]; now rewrite IH.
Qed.


(** X10: [deleteTodos] with several ids returns what deleting the first
    id with [deleteTodo] and then the others with [deleteTodos] returns;
    with no ids it returns the list itself. *)
Theorem deleteTodos_one_by_one (todos : list obj) (id : value)
    (ids : list value) (w w1 w2 : world) :
  fst (deleteTodos todos [] w) = Ok todos
  /\ exists updatedTodos,
      fst (deleteTodo todos id w1) = Ok updatedTodos
      /\ fst (deleteTodos todos (id :: ids) w)
         = fst (deleteTodos updatedTodos ids w2).
Proof.
  split.
  - unfold deleteTodos. rewrite save_then_return. cbn [fst].
    f_equal. now apply filter_keeps_all.
  - exists (List.filter (fun todo => negb (strict_eq (get todo "id") id)) todos).
    unfold deleteTodos, deleteTodo. rewrite !save_then_return. cbn [fst].
    split; [reflexivity|]. f_equal.
    rewrite filter_filter_and. apply List.filter_ext. intros todo.
    cbn [includes existsb]. rewrite negb_orb, (strict_eq_sym id).
    reflexivity.
Qed.

(** ** Updating records *)

Lemma bind_Throw {A B} (m : M A) (k : A -> M B) (w : world) (e : error)
    (w' : world) :
  m w = (Throw e, w') -> bind m k w = (Throw e, w').
Proof. intros H. unfold bind. now rewrite H. Qed.

Lemma lookup_spread (todo updates : obj) (k : string) :
  spread todo updates !! k
  = match updates !! k with
    | Some v => Some v
    | None => todo !! k
    end.
Proof.
  unfold spread. destruct (updates !! k) as [v|] eqn:E.
  - now apply lookup_union_Some_l.
  - now rewrite lookup_union_r.
Qed.

Lemma updated_accepted (todo updates : obj) (w : world) :
  truthy (get updates "text") = false \/ (exists s, get updates "text" = VStr s) ->
  updated todo updates w
  = (Ok (update_of updates todo (VStr (toISOString (clock w (ticks w))))),
     set_ticks (S (ticks w)) w).
Proof.
  unfold updated, update_of, text_after_update.
  intros [H|[s H]]; run_effects; rewrite H.
  - destruct (get updates "text") as [| | | |s| |]; try reflexivity.
    cbn in H. apply negb_false_iff in H. now rewrite H.
  - cbn [truthy call_trim]. unfold ret. destruct (String.eqb s ""); reflexivity.
Qed.

(** X11: when the text among the fields is absent, falsy or a string,
    [updateTodo] returns, at every place, the record of the list if it
    has another id, and otherwise the record merged with the fields:
    every property of the fields other than [text] and [updatedAt]
    replaces that of the record, every other property of the record is
    kept, and [updatedAt] is a reading of the clock taken during the
    call. *)
Theorem updateTodo_merges_fields (todos : list obj) (id : value)
    (updates : obj) (w : world) :
  truthy (get updates "text") = false \/ (exists s, get updates "text" = VStr s) ->
  exists updatedTodos w',
    updateTodo todos id updates w = (Ok updatedTodos, w')
    /\ Forall2 (stamped (has_id id) (update_of updates)
                        (clock w) (ticks w) (ticks w'))
               todos updatedTodos
    /\ Forall2 (fun todo todo' =>
                  if has_id id todo then
                    forall k, k <> "text" -> k <> "updatedAt" ->
                              todo' !! k = match updates !! k with
                                           | Some v => Some v
                                           | None => todo !! k
                                           end
                  else todo' = todo)
               todos updatedTodos.
Proof.
  intros Hacc. unfold updateTodo.
  destruct (map_save_return (has_id id) (update_of updates)
              (fun todo => if strict_eq (get todo "id") id
                           then updated todo updates else ret todo)
              todos w) as [l [w' [H HF]]].
  { intros todo w0 E. unfold has_id in E. rewrite E.
    now apply updated_accepted. }
  { intros todo E. unfold has_id in E. now rewrite E. }
  exists l, w'. split; [exact H|]. split; [exact HF|].
  eapply Forall2_impl; [exact HF|]. cbn. intros todo todo'. unfold stamped.
  destruct (has_id id todo); [|auto].
  intros [n [_ [_ ->]]] k Hk1 Hk2. unfold update_of.
  rewrite !lookup_insert_ne by congruence. apply lookup_spread.
Qed.

Lemma updateTodo_merges_fields_witness :
  exists updatedTodos w',
    updateTodo [milk; rent] (VStr "b")
               (<["priority" := VStr "low"]> (<["dueDate" := VStr "2024-02-01"]> ∅))
               world0
    = (Ok updatedTodos, w')
    /\ Forall2 (fun todo todo' =>
                  if has_id (VStr "b") todo then
                    forall k, k <> "text" -> k <> "updatedAt" ->
                              todo' !! k
                              = match (<["priority" := VStr "low"]>
                                       (<["dueDate" := VStr "2024-02-01"]>
                                        (∅ : obj))) !! k with
                                | Some v => Some v
                                | None => todo !! k
                                end
                  else todo' = todo)
               [milk; rent] updatedTodos.
Proof.
  destruct (updateTodo_merges_fields [milk; rent] (VStr "b")
              (<["priority" := VStr "low"]>
               (<["dueDate" := VStr "2024-02-01"]> ∅)) world0)
    as [l [w' [H [_ HF]]]].
  - left. reflexivity.
  - exists l, w'. split; assumption.
Defined.

(** X12: when the text among the fields is truthy but not a string and
    some record has the id, [updateTodo] throws a [TypeError]: it calls
    [trim] on the text. *)
Theorem updateTodo_rejects_text (todos : list obj) (id : value)
    (updates : obj) (w : world) :
  truthy (get updates "text") = true ->
  is_string (get updates "text") = false ->
  existsb (has_id id) todos = true ->
  exists w',
    updateTodo todos id updates w
    = (Throw (TypeError "trim is not a function"), w').
Proof.
  intros Ht Hs Hex. unfold updateTodo.
  enough (exists w',
             mapM (fun todo => if strict_eq (get todo "id") id
                               then updated todo updates else ret todo)
                  todos w
             = (Throw (TypeError "trim is not a function"), w')) as [w' H].
  { exists w'. now rewrite (bind_Throw _ _ _ _ _ H). }
  revert w. induction todos as [|todo todos IH]; intros w; [discriminate|].
  cbn [existsb] in Hex. cbn [mapM]. unfold has_id in Hex at 1.
  destruct (strict_eq (get todo "id") id).
  - eexists. unfold bind at 1.
    unfold updated. run_effects. rewrite Ht.
    destruct (get updates "text"); try discriminate; reflexivity.
  - cbn [orb] in Hex. destruct (IH Hex w) as [w' H].
    exists w'. unfold bind at 1, ret at 1. unfold bind at 1. now rewrite H.
Qed.

Lemma updateTodo_rejects_text_witness :
  exists w',
    updateTodo [milk; rent] (VStr "b") (<["text" := VNum 5]> ∅) world0
    = (Throw (TypeError "trim is not a function"), w').
Proof.
  apply updateTodo_rejects_text; reflexivity.
Defined.

(** X13: [batchUpdateTodos] returns, at every place, the record of the
    list if its id is not among the ids, and otherwise the record merged
    with the fields, with [updatedAt] a reading of the clock taken during
    the call: every other property of the fields, the text as it is
    included, replaces that of the record.  With no ids it returns the
    list itself. *)
Theorem batchUpdateTodos_merges_fields (todos : list obj) (ids : list value)
    (updates : obj) (w : world) :
  (exists updatedTodos w',
      batchUpdateTodos todos ids updates w = (Ok updatedTodos, w')
      /\ Forall2 (stamped (fun todo => includes ids (get todo "id"))
                          (batch_update_of updates)
                          (clock w) (ticks w) (ticks w'))
                 todos updatedTodos
      /\ Forall2 (fun todo todo' =>
                    if includes ids (get todo "id") then
                      forall k, k <> "updatedAt" ->
                                todo' !! k = match updates !! k with
                                             | Some v => Some v
                                             | None => todo !! k
                                             end
                    else todo' = todo)
                 todos updatedTodos)
  /\ batchUpdateTodos todos [] updates w = (Ok todos, saved todos w).
Proof.
  split.
  - unfold batchUpdateTodos.
    destruct (map_save_return (fun todo => includes ids (get todo "id"))
                (batch_update_of updates)
                (fun todo =>
                   if includes ids (get todo "id") then
                     let* updatedAt := now_iso in
                     ret (<["updatedAt" := updatedAt]> (spread todo updates))
                   else ret todo)
                todos w) as [l [w' [H HF]]].
    { intros todo w0 E. rewrite E. reflexivity. }
    { intros todo E. now rewrite E. }
    exists l, w'. split; [exact H|]. split; [exact HF|].
    eapply Forall2_impl; [exact HF|]. cbn. intros todo todo'. unfold stamped.
    destruct (includes ids (get todo "id")); [|auto].
    intros [n [_ [_ ->]]] k Hk. unfold batch_update_of.
    rewrite lookup_insert_ne by congruence. apply lookup_spread.
  - unfold batchUpdateTodos. unfold bind at 1.
    rewrite mapM_pass_through by reflexivity. apply save_then_return.
Qed.

(** ** Toggling and duplicating one record *)

Lemma find_by_id_unique (todos : list obj) (id : value) (todo : obj) :
  List.NoDup (ids_of todos) -> In todo todos -> has_id id todo = true ->
  find_by_id todos id = Some todo.
Proof.
  unfold find_by_id, has_id.
  induction todos as [|a todos IH]; intros Hnd Hin Hid; [contradiction|].
  cbn [ids_of map] in Hnd. apply List.NoDup_cons_iff in Hnd as [Hna Hnd].
  cbn [List.find]. destruct (strict_eq (get a "id") id) eqn:Ea.
  - destruct Hin as [->|Hin]; [reflexivity|]. exfalso. apply Hna.
    apply strict_eq_eq in Ea, Hid. rewrite Ea, <- Hid.
    now apply (in_map (fun todo => get todo "id")).
  - destruct Hin as [->|Hin]; [congruence|]. now apply IH.
Qed.

Lemma find_by_id_first (before after : list obj) (original : obj) (id : value) :
  List.Forall (fun todo => has_id id todo = false) before ->
  has_id id original = true ->
  find_by_id (before ++ original :: after) id = Some original.
Proof.
  unfold find_by_id, has_id. intros Hb Ho.
  induction Hb as [|a before Ha _ IH]; cbn [List.find app].
  - now rewrite Ho.
  - now rewrite Ha.
Qed.

Lemma find_by_id_none (todos : list obj) (id : value) :
  List.Forall (fun todo => has_id id todo = false) todos ->
  find_by_id todos id = None.
Proof.
  unfold find_by_id, has_id. intros H.
  induction H as [|a todos Ha _ IH]; cbn [List.find]; [reflexivity|].
  now rewrite Ha.
Qed.

Lemma Forall2_compose {A} (P Q : A -> A -> Prop) (l1 l2 l3 : list A) :
  Forall2 P l1 l2 -> Forall2 Q l2 l3 ->
  Forall2 (fun a c => exists b, P a b /\ Q b c) l1 l3.
Proof.
  intros H. revert l3. induction H as [|a b l1 l2 Hab _ IH]; intros l3 H3.
  - inversion H3. constructor.
  - inversion H3 as [|b' c l2' l3' Hbc H3']; subst. constructor; eauto.
Qed.

(** What [updateTodo] does with the one field [completed]. *)
Lemma updateTodo_completed (todos : list obj) (id : value) (b : bool)
    (w : world) :
  exists updatedTodos w',
    updateTodo todos id (<["completed" := VBool b]> ∅) w = (Ok updatedTodos, w')
    /\ Forall2 (fun todo todo' =>
                  if has_id id todo then
                    get todo' "completed" = VBool b
                    /\ forall k, k <> "completed" -> k <> "updatedAt" ->
                                 get todo' k = get todo k
                  else todo' = todo)
               todos updatedTodos.
Proof.
  unfold updateTodo.
  destruct (map_save_return (has_id id)
              (update_of (<["completed" := VBool b]> ∅))
              (fun todo => if strict_eq (get todo "id") id
                           then updated todo (<["completed" := VBool b]> ∅)
                           else ret todo)
              todos w) as [l [w' [H HF]]].
  { intros todo w0 E. unfold has_id in E. rewrite E.
    apply updated_accepted. left. reflexivity. }
  { intros todo E. unfold has_id in E. now rewrite E. }
  exists l, w'. split; [exact H|].
  eapply Forall2_impl; [exact HF|]. cbn. intros todo todo'. unfold stamped.
  destruct (has_id id todo); [|auto].
  intros [n [_ [_ ->]]]. unfold update_of, text_after_update.
  replace (get (<["completed" := VBool b]> ∅) "text") with VUndefined
    by reflexivity.
  split.
  - rewrite !get_insert_ne by congruence.
    apply get_spread_present. apply lookup_insert_eq.
  - intros k Hc Hu. destruct (String.eqb_spec k "text") as [->|Ht].
    + apply get_insert_eq.
    + rewrite !get_insert_ne by congruence.
      apply get_spread_absent. rewrite lookup_insert_ne by congruence.
      apply lookup_empty.
Qed.

Lemma toggled_completed_unique (todos : list obj) (id : value) (todo : obj) :
  List.NoDup (ids_of todos) -> In todo todos -> has_id id todo = true ->
  toggled_completed todos id = VBool (negb (truthy (get todo "completed"))).
Proof.
  intros Hnd Hin Hid. unfold toggled_completed.
  now rewrite (find_by_id_unique _ _ _ Hnd Hin Hid).
Qed.

Lemma Forall2_In_l {A B} (P : A -> B -> Prop) (l : list A) (l' : list B) :
  Forall2 P l l' ->
  Forall2 (fun a b => In a l /\ P a b) l l'.
Proof.
  induction 1 as [|a b l l' Hab _ IH]; constructor.
  - split; [now left|exact Hab].
  - eapply Forall2_impl; [exact IH|]. cbn. intros x y [Hx Hxy].
    split; [now right|exact Hxy].
Qed.

Lemma toggleTodo_step (todos : list obj) (id : value) (w : world) :
  List.NoDup (ids_of todos) ->
  exists updatedTodos w',
    toggleTodo todos id w = (Ok updatedTodos, w')
    /\ Forall2 (fun todo todo' =>
                  if has_id id todo then
                    get todo' "completed"
                    = VBool (negb (truthy (get todo "completed")))
                    /\ forall k, k <> "completed" -> k <> "updatedAt" ->
                                 get todo' k = get todo k
                  else todo' = todo)
               todos updatedTodos.
Proof.
  intros Hnd. unfold toggleTodo.
  assert (exists b, toggled_completed todos id = VBool b) as [b Hb]
    by (unfold toggled_completed; eauto).
  rewrite Hb.
  destruct (updateTodo_completed todos id b w) as [l [w' [H HF]]].
  exists l, w'. split; [exact H|].
  apply Forall2_In_l in HF.
  eapply Forall2_impl; [exact HF|]. cbn. intros todo todo' [Hin Hstep].
  destruct (has_id id todo) eqn:Hid; [|exact Hstep].
  now rewrite <- (toggled_completed_unique _ _ _ Hnd Hin Hid), Hb.
Qed.

Lemma Forall2_ids (P : obj -> obj -> Prop) (l l' : list obj) :
  Forall2 P l l' ->
  (forall todo todo', P todo todo' -> get todo' "id" = get todo "id") ->
  ids_of l' = ids_of l.
Proof.
  intros H HP. induction H as [|a b l l' Hab _ IH]; [reflexivity|].
  cbn [ids_of map]. f_equal; [now apply HP|exact IH].
Qed.

(** X14: on a list whose ids are distinct, [toggleTodo] returns, at every
    place, the record of the list if it has another id, and otherwise a
    record whose [completed] is the negation of the truthiness of the
    one it had, every property but [completed] and [updatedAt] read as
    before; toggling the returned list again gives back the truthiness
    of [completed] that the list had. *)
Theorem toggleTodo_flips (todos : list obj) (id : value) (w : world) :
  List.NoDup (ids_of todos) ->
  exists once w1 twice w2,
    toggleTodo todos id w = (Ok once, w1)
    /\ toggleTodo once id w1 = (Ok twice, w2)
    /\ Forall2 (fun todo todo' =>
                  if has_id id todo then
                    get todo' "completed"
                    = VBool (negb (truthy (get todo "completed")))
                    /\ forall k, k <> "completed" -> k <> "updatedAt" ->
                                 get todo' k = get todo k
                  else todo' = todo)
               todos once
    /\ Forall2 (fun todo todo'' =>
                  if has_id id todo then
                    get todo'' "completed" = VBool (truthy (get todo "completed"))
                    /\ forall k, k <> "completed" -> k <> "updatedAt" ->
                                 get todo'' k = get todo k
                  else todo'' = todo)
               todos twice.
Proof.
  intros Hnd.
  destruct (toggleTodo_step todos id w Hnd) as [once [w1 [H1 F1]]].
  assert (ids_of once = ids_of todos) as Hids.
  { apply (Forall2_ids _ _ _ F1). intros todo todo'.
    destruct (has_id id todo); [|now intros ->].
    intros [_ Hk]. apply Hk; discriminate. }
  assert (List.NoDup (ids_of once)) as Hnd1 by now rewrite Hids.
  destruct (toggleTodo_step once id w1 Hnd1) as [twice [w2 [H2 F2]]].
  exists once, w1, twice, w2. repeat split; try assumption.
  eapply Forall2_impl; [exact (Forall2_compose _ _ _ _ _ F1 F2)|].
  cbn. intros todo todo'' [todo' [Hstep1 Hstep2]].
  destruct (has_id id todo) eqn:Hid.
  - destruct Hstep1 as [Hc1 Hk1].
    assert (has_id id todo' = true) as Hid'.
    { unfold has_id in *. rewrite Hk1 by discriminate. exact Hid. }
    rewrite Hid' in Hstep2. destruct Hstep2 as [Hc2 Hk2]. split.
    + rewrite Hc2, Hc1. cbn [truthy]. now rewrite negb_involutive.
    + intros k Hc Hu. now rewrite Hk2, Hk1.
  - subst todo'. now rewrite Hid in Hstep2.
Qed.

Lemma toggleTodo_flips_witness :
  exists once w1 twice w2,
    toggleTodo [milk; rent; mum] (VStr "b") world0 = (Ok once, w1)
    /\ toggleTodo once (VStr "b") w1 = (Ok twice, w2)
    /\ Forall2 (fun todo todo'' =>
                  if has_id (VStr "b") todo then
                    get todo'' "completed" = VBool (truthy (get todo "completed"))
                    /\ forall k, k <> "completed" -> k <> "updatedAt" ->
                                 get todo'' k = get todo k
                  else todo'' = todo)
               [milk; rent; mum] twice.
Proof.
  destruct (toggleTodo_flips [milk; rent; mum] (VStr "b") world0)
    as [once [w1 [twice [w2 [H1 [H2 [_ H3]]]]]]].
  - repeat constructor; cbn; intuition discriminate.
  - exists once, w1, twice, w2. repeat split; assumption.
Defined.

(** X15: with no record of the given id, [duplicateTodo] throws the error
    [Todo not found] and leaves the world as it was.  Otherwise it
    returns the list with a copy of the first record of that id put in
    front: the copy has the next identifier of the source as its id, the
    text of the original followed by [ (Copy)], [completed] false, the
    next two readings of the clock as [createdAt] and [updatedAt], and
    every other property of the original. *)
Theorem duplicateTodo_clones (todos : list obj) (id : value) (w : world) :
  (List.Forall (fun todo => has_id id todo = false) todos ->
   duplicateTodo todos id w = (Throw (Error "Todo not found"), w))
  /\ (forall before original after,
         todos = (before ++ original :: after)%list ->
         List.Forall (fun todo => has_id id todo = false) before ->
         has_id id original = true ->
         exists copy w',
           duplicateTodo todos id w = (Ok (copy :: todos), w')
           /\ get copy "id" = VStr (uuid_source w (uuid_drawn w))
           /\ get copy "text"
              = VStr (ToString (get original "text") ++ " (Copy)")
           /\ get copy "completed" = VBool false
           /\ get copy "createdAt" = VStr (toISOString (clock w (ticks w)))
           /\ get copy "updatedAt"
              = VStr (toISOString (clock w (S (ticks w))))
           /\ forall k, ~ In k ["id"; "text"; "completed"; "createdAt";
                                "updatedAt"] ->
                        copy !! k = original !! k).
Proof.
  split.
  - intros H. unfold duplicateTodo. now rewrite (find_by_id_none _ _ H).
  - intros before original after -> Hb Ho. unfold duplicateTodo.
    rewrite (find_by_id_first _ _ _ _ Hb Ho).
    run_effects. cbv zeta. rewrite saveTodos_spec. cbv beta iota.
    eexists _, _. split; [reflexivity|].
    repeat split.
    + now rewrite !get_insert_ne, get_insert_eq by discriminate.
    + now rewrite !get_insert_ne, get_insert_eq by discriminate.
    + now rewrite !get_insert_ne, get_insert_eq by discriminate.
    + now rewrite !get_insert_ne, get_insert_eq by discriminate.
    + now rewrite get_insert_eq.
    + intros k Hk. cbn [In] in Hk.
      rewrite !lookup_insert_ne; [reflexivity| | | | |]; intros <-; tauto.
Qed.

Lemma duplicateTodo_clones_witness :
  duplicateTodo [milk; rent] (VStr "z") world0
  = (Throw (Error "Todo not found"), world0)
  /\ exists copy w',
      duplicateTodo [milk; rent] (VStr "b") world0
      = (Ok (copy :: [milk; rent]), w')
      /\ get copy "text" = VStr "Pay rent (Copy)".
Proof.
  destruct (duplicateTodo_clones [milk; rent] (VStr "z") world0) as [H _].
  destruct (duplicateTodo_clones [milk; rent] (VStr "b") world0) as [_ H'].
  split.
  - apply H. repeat constructor.
  - destruct (H' [milk] rent []) as [copy [w' [E [_ [T _]]]]];
      [reflexivity|repeat constructor|reflexivity|].
    exists copy, w'. split; [exact E|exact T].
Defined.

(** ** Importing *)

Lemma imported_from_widen (w0 w1 w2 w3 : world) (o todo : obj) :
  advances w0 w1 -> advances w1 w2 -> advances w2 w3 ->
  imported_from w1 w2 o todo -> imported_from w0 w3 o todo.
Proof.
  intros A1 A2 A3 [Hk [Hid [Hc Hu]]].
  pose proof (advances_clock _ _ A1) as Ec.
  pose proof (advances_source _ _ A1) as Es.
  destruct A1 as [_ [T1 D1]], A2 as [_ [T2 D2]], A3 as [_ [T3 D3]].
  split; [exact Hk|]. split; [|split].
  - destruct (truthy (get o "id")); [exact Hid|].
    destruct Hid as [n [? [? E]]]. exists n. rewrite <- Es.
    repeat split; [lia|lia|exact E].
  - destruct (truthy (get o "createdAt")); [exact Hc|].
    destruct Hc as [n [? [? E]]]. exists n. rewrite <- Ec.
    repeat split; [lia|lia|exact E].
  - destruct Hu as [n [? [? E]]]. exists n. rewrite <- Ec.
    repeat split; [lia|lia|exact E].
Qed.

Lemma created_defaults (s : string) (o : obj) (w : world) (k : string) :
  ~ In k ["id"; "createdAt"; "updatedAt"; "text"] ->
  o !! k = None ->
  created s (get o "category") (get o "priority") w !! k
  = record_defaults !! k.
Proof.
  cbn [In]. intros Hk Ho. unfold created, record_defaults.
  destruct (decide (k = "description")) as [->|];
    [now rewrite !lookup_insert_eq|].
  rewrite !(lookup_insert_ne _ "description") by congruence.
  destruct (decide (k = "tags")) as [->|]; [now rewrite !lookup_insert_eq|].
  rewrite !(lookup_insert_ne _ "tags") by congruence.
  destruct (decide (k = "dueDate")) as [->|]; [now rewrite !lookup_insert_eq|].
  rewrite !(lookup_insert_ne _ "dueDate") by congruence.
  rewrite (lookup_insert_ne _ "updatedAt") by (intros <-; tauto).
  rewrite (lookup_insert_ne _ "createdAt") by (intros <-; tauto).
  destruct (decide (k = "priority")) as [->|].
  { rewrite !lookup_insert_eq. unfold get. now rewrite Ho. }
  rewrite !(lookup_insert_ne _ "priority") by congruence.
  destruct (decide (k = "category")) as [->|].
  { rewrite !lookup_insert_eq. unfold get. now rewrite Ho. }
  rewrite !(lookup_insert_ne _ "category") by congruence.
  destruct (decide (k = "completed")) as [->|];
    [now rewrite !lookup_insert_eq|].
  rewrite !(lookup_insert_ne _ "completed") by congruence.
  rewrite (lookup_insert_ne _ "text") by (intros <-; tauto).
  rewrite (lookup_insert_ne _ "id") by (intros <-; tauto).
  reflexivity.
Qed.

Lemma normalizeImported_string (o : obj) (s : string) (w : world) :
  get o "text" = VStr s ->
  exists todo w',
    normalizeImported o w = (Ok todo, w')
    /\ advances w w' /\ imported_from w w' o todo.
Proof.
  intros Ht. unfold normalizeImported. rewrite Ht.
  rewrite (bind_Ok _ _ _ _ _ (createTodo_spec _ _ _ _)).
  assert (forall id createdAt updatedAt k,
             ~ In k ["id"; "createdAt"; "updatedAt"] ->
             (<["updatedAt" := updatedAt]>
              (<["createdAt" := createdAt]>
               (<["id" := id]>
                (spread (created s (get o "category") (get o "priority") w) o))))
             !! k
             = match o !! k with
               | Some v => Some v
               | None => record_defaults !! k
               end) as Hkeys.
  { intros id createdAt updatedAt k Hk. cbn [In] in Hk.
    rewrite !lookup_insert_ne by (intros <-; tauto).
    rewrite lookup_spread. destruct (o !! k) eqn:Ho; [reflexivity|].
    apply created_defaults; [|exact Ho].
    cbn [In]. intros [<-|[<-|[<-|[<-|[]]]]]; try tauto.
    unfold get in Ht. rewrite Ho in Ht. discriminate. }
  destruct (truthy (get o "id")) eqn:Eid;
    destruct (truthy (get o "createdAt")) eqn:Ec;
    run_effects; cbv zeta; (eexists _, _; split; [reflexivity|]);
    (split; [split; [unfold same_storage; cbn; tauto|cbn; lia]|]);
    (split; [apply Hkeys|]); rewrite ?Eid, ?Ec; cbn [ticks uuid_drawn
      after_create set_ticks set_drawn clock uuid_source].
  - split; [now rewrite !get_insert_ne, get_insert_eq by discriminate|].
    split; [now rewrite !get_insert_ne, get_insert_eq by discriminate|].
    exists (S (S (ticks w))). rewrite get_insert_eq. repeat split; lia.
  - split; [now rewrite !get_insert_ne, get_insert_eq by discriminate|].
    split.
    + exists (S (S (ticks w))).
      rewrite !get_insert_ne, get_insert_eq by discriminate.
      repeat split; lia.
    + exists (S (S (S (ticks w)))). rewrite get_insert_eq. repeat split; lia.
  - split.
    + exists (S (uuid_drawn w)).
      rewrite !get_insert_ne, get_insert_eq by discriminate.
      repeat split; lia.
    + split; [now rewrite !get_insert_ne, get_insert_eq by discriminate|].
      exists (S (S (ticks w))). rewrite get_insert_eq. repeat split; lia.
  - split.
    + exists (S (uuid_drawn w)).
      rewrite !get_insert_ne, get_insert_eq by discriminate.
      repeat split; lia.
    + split.
      * exists (S (S (ticks w))).
        rewrite !get_insert_ne, get_insert_eq by discriminate.
        repeat split; lia.
      * exists (S (S (S (ticks w)))). rewrite get_insert_eq.
        repeat split; lia.
Qed.

Lemma importable_text (e : value) (o : obj) :
  importable e = Some o -> e = VObj o /\ truthy (get o "text") = true.
Proof.
  destruct e as [| | | | | |o']; try discriminate. cbn [importable].
  destruct (truthy (get o' "text")) eqn:E; [|discriminate].
  intros [= <-]. now split.
Qed.

Lemma in_omap_importable (entries : list value) (o : obj) :
  In o (omap importable entries) ->
  In (VObj o) entries /\ truthy (get o "text") = true.
Proof.
  induction entries as [|e entries IH]; [contradiction|].
  cbn [omap list_omap]. destruct (importable e) as [o'|] eqn:E.
  - intros [->|Hin].
    + apply importable_text in E as [-> Ht]. split; [now left|exact Ht].
    + destruct (IH Hin). split; [now right|assumption].
  - intros Hin. destruct (IH Hin). split; [now right|assumption].
Qed.

Lemma confined_try_catch {A} (body : M A) (handler : error -> M A) :
  confined body -> (forall e, confined (handler e)) ->
  confined (try_catch body handler).
Proof.
  intros Hb Hh w r w' H. unfold try_catch in H.
  destruct (body w) as [[a|e] w1] eqn:E.
  - inversion H; subst. eapply Hb. exact E.
  - eapply same_storage_trans; [eapply Hb; exact E|]. eapply Hh. exact H.
Qed.

Lemma try_catch_rethrows {A} (body : M A) (e0 e : error) (w w' : world) :
  try_catch body (fun _ => throw e0) w = (Throw e, w') -> e = e0.
Proof.
  unfold try_catch. destruct (body w) as [[a|e1] w1]; [discriminate|].
  intros H. now inversion H.
Qed.

Lemma confined_normalizeImported (o : obj) : confined (normalizeImported o).
Proof.
  unfold normalizeImported.
  apply confined_bind; [apply confined_createTodo|]. intros defaults. confine.
Qed.

Lemma confined_importTodos (f : file) : confined (importTodos f).
Proof.
  destruct f as [|t]; cbn [importTodos]; [apply confined_throw|].
  apply confined_try_catch; [|intros e; apply confined_throw].
  apply confined_bind.
  - destruct t; cbn [JSON_parse]; auto with confined.
  - intros v. destruct v; try apply confined_throw.
    apply confined_mapM. apply confined_normalizeImported.
Qed.

Lemma mapM_normalizeImported_throws (l : list obj) (w : world) :
  List.Exists (fun o => truthy (get o "text") = true
                        /\ is_string (get o "text") = false) l ->
  exists e w', mapM normalizeImported l w = (Throw e, w').
Proof.
  intros H. revert w. induction H as [o l [Ht Hs]|o l _ IH]; intros w.
  - assert (exists e w', normalizeImported o w = (Throw e, w')) as [e [w' E]].
    { unfold normalizeImported, createTodo. run_effects.
      destruct (get o "text"); try discriminate; cbn; eauto. }
    exists e, w'. cbn [mapM]. now apply bind_Throw.
  - cbn [mapM]. destruct (normalizeImported o w) as [[todo|e] w1] eqn:E.
    + destruct (IH w1) as [e [w' E']]. exists e, w'.
      rewrite (bind_Ok _ _ _ _ _ E). now apply bind_Throw.
    + exists e, w1. now apply bind_Throw.
Qed.

(** X16: [importTodos] rejects a file that cannot be read with
    [Error reading file] and, with [Invalid JSON file or file format], a
    file that is not JSON, a JSON value that is not an array, and an
    array with an entry whose text is truthy but not a string (the whole
    import, not the entry alone); it rejects with no other error, and
    whatever it does the storage, the console and the downloads are left
    as they were. *)
Theorem importTodos_rejects :
  (forall w, importTodos Unreadable w = (Throw (Error "Error reading file"), w))
  /\ (forall s w,
         importTodos (Content (Malformed s)) w
         = (Throw (Error "Invalid JSON file or file format"), w))
  /\ (forall v w,
         (forall entries, v <> VArr entries) ->
         importTodos (Content (Json v)) w
         = (Throw (Error "Invalid JSON file or file format"), w))
  /\ (forall entries w,
         List.Exists (fun entry =>
                        exists o, entry = VObj o
                                  /\ truthy (get o "text") = true
                                  /\ is_string (get o "text") = false)
                     entries ->
         exists w',
           importTodos (Content (Json (VArr entries))) w
           = (Throw (Error "Invalid JSON file or file format"), w'))
  /\ (forall f w e w',
         importTodos f w = (Throw e, w') ->
         e = Error "Error reading file"
         \/ e = Error "Invalid JSON file or file format")
  /\ forall f w r w', importTodos f w = (r, w') -> same_storage w w'.
Proof.
  split; [reflexivity|]. split; [reflexivity|]. split; [|split; [|split]].
  - intros v w Hv. destruct v as [| | | | |l|]; try reflexivity.
    now destruct (Hv l).
  - intros entries w H.
    destruct (mapM_normalizeImported_throws (omap importable entries) w)
      as [e [w' E]].
    { induction H as [entry l [o [-> [Ht Hs]]]|entry l _ IH].
      - cbn [omap list_omap importable]. rewrite Ht. now left.
      - cbn [omap list_omap]. destruct (importable entry) as [o|] eqn:Eo;
          [now right|exact IH]. }
    exists w'. unfold importTodos, try_catch. cbn [JSON_parse].
    unfold bind at 1, ret at 1. now rewrite E.
  - intros f w e w' H. destruct f as [|t]; cbn [importTodos] in H.
    + left. now inversion H.
    + right. now apply try_catch_rethrows in H.
  - intros f. apply confined_importTodos.
Qed.

Lemma importTodos_rejects_witness :
  (exists w',
      importTodos (Content (Json (VArr [VObj milk;
                                        VObj (<["text" := VNum 7]> ∅)])))
                  world0
      = (Throw (Error "Invalid JSON file or file format"), w'))
  /\ importTodos (Content (Json (VObj milk))) world0
     = (Throw (Error "Invalid JSON file or file format"), world0).
Proof.
  destruct importTodos_rejects as [_ [_ [H3 [H4 _]]]]. split.
  - apply H4. right. left. exists (<["text" := VNum 7]> ∅).
    repeat split; reflexivity.
  - apply H3. intros entries. discriminate.
Defined.

(** X17: from an array of JSON values whose entries with a truthy text
    have a string as text, [importTodos] returns one record for each
    entry that is an object with a truthy text, in their order, and
    drops every other entry.  A record has the properties of its entry
    (the text as it is written, not trimmed), the defaults [general],
    [medium], not completed, no due date, no tags and an empty
    description for those the entry lacks, the id and [createdAt] of the
    entry when they are truthy and otherwise the next identifier of the
    source and a reading of the clock, and a reading of the clock as
    [updatedAt]. *)
Theorem importTodos_normalizes (entries : list value) (w : world) :
  List.Forall (fun entry =>
                 forall o, entry = VObj o -> truthy (get o "text") = true ->
                           is_string (get o "text") = true)
              entries ->
  exists imported w',
    importTodos (Content (Json (VArr entries))) w = (Ok imported, w')
    /\ advances w w'
    /\ Forall2 (imported_from w w') (omap importable entries) imported.
Proof.
  intros H.
  destruct (mapM_between imported_from normalizeImported
              (omap importable entries) w) as [l [w' [Hl [Ha HF]]]].
  - intros o w0 Hin. apply in_omap_importable in Hin as [Hin Ht].
    rewrite List.Forall_forall in H. specialize (H _ Hin o eq_refl Ht).
    destruct (get o "text") as [| | | |s| |] eqn:E; try discriminate.
    now apply (normalizeImported_string o s).
  - intros w0 w1 w2 w3 o todo. apply imported_from_widen.
  - exists l, w'. split; [|split; assumption].
    unfold importTodos, try_catch. cbn [JSON_parse].
    unfold bind at 1, ret at 1. now rewrite Hl.
Qed.

Lemma importTodos_normalizes_witness :
  exists imported w',
    importTodos (Content (Json (VArr [VNum 3;
                                      VObj (<["text" := VStr " x "]> ∅);
                                      VObj (<["id" := VStr "q"]> ∅)])))
                world0
    = (Ok imported, w')
    /\ Forall2 (imported_from world0 w')
               [<["text" := VStr " x "]> ∅] imported.
Proof.
  destruct (importTodos_normalizes
              [VNum 3; VObj (<["text" := VStr " x "]> ∅);
               VObj (<["id" := VStr "q"]> ∅)] world0)
    as [l [w' [H [_ HF]]]].
  - repeat constructor; intros o [= <-]; intros Ht; try discriminate;
      reflexivity.
  - exists l, w'. split; [exact H|exact HF].
Defined.

(** ** Searching *)











Lemma is_space_lower_char (c : ascii) : is_space (lower_char c) = is_space c.
Proof. destruct c as [[] [] [] [] [] [] [] []]; reflexivity. Qed.

Lemma trimStart_blank (s : string) :
  trimStart s = "" <-> forallb is_space (list_ascii_of_string s) = true.
Proof.
  induction s as [|c s IH]; cbn; [tauto|].
  destruct (is_space c); [exact IH|]. split; discriminate.
Qed.

Lemma trimEnd_empty (s : string) : trimEnd s = "" -> trimStart s = "".
Proof.
  induction s as [|c s IH]; cbn; [reflexivity|].
  destruct (is_space c); cbn [andb]; [|discriminate].
  destruct (String.eqb_spec (trimEnd s) ""); [auto|discriminate].
Qed.

Lemma trimEnd_trimStart (s : string) :
  trimEnd (trimStart s) = "" -> trimStart s = "".
Proof.
  induction s as [|c s IH]; cbn [trimStart]; [reflexivity|].
  destruct (is_space c) eqn:E; [exact IH|].
  cbn [trimEnd]. rewrite E. discriminate.
Qed.

Lemma trim_blank_iff (s : string) :
  trim s = "" <-> forallb is_space (list_ascii_of_string s) = true.
Proof.
  rewrite <- trimStart_blank. unfold trim. split.
  - apply trimEnd_trimStart.
  - now intros ->.
Qed.

Lemma blank_toLowerCase (s : string) :
  forallb is_space (list_ascii_of_string (toLowerCase s))
  = forallb is_space (list_ascii_of_string s).
Proof.
  induction s as [|c s IH]; [reflexivity|].
  cbn. now rewrite is_space_lower_char, IH.
Qed.

Lemma trim_eqb_lower (s1 s2 : string) :
  toLowerCase s1 = toLowerCase s2 ->
  String.eqb (trim s1) "" = String.eqb (trim s2) "".
Proof.
  intros H.
  assert (trim s1 = "" <-> trim s2 = "") as E.
  { now rewrite !trim_blank_iff, <- (blank_toLowerCase s1),
      <- (blank_toLowerCase s2), H. }
  destruct (String.eqb_spec (trim s1) ""), (String.eqb_spec (trim s2) "");
    tauto.
Qed.

(** X19: [searchTodos] returns the list itself for a term that is empty
    or blank, and for any list, two terms that differ only in the case
    of their letters give the same outcome. *)
Theorem searchTodos_ignores_case (todos : list obj) (s1 s2 : string) :
  (trim s1 = "" -> searchTodos todos (VStr s1) = Ok todos)
  /\ (toLowerCase s1 = toLowerCase s2 ->
      searchTodos todos (VStr s1) = searchTodos todos (VStr s2)).
Proof.
  split.
  - intros H. cbn [searchTodos truthy]. now rewrite H.
  - intros H. cbn [searchTodos truthy].
    now rewrite (trim_eqb_lower _ _ H), H.
Qed.

Lemma searchTodos_ignores_case_witness :
  searchTodos [milk; rent] (VStr "  ") = Ok [milk; rent]
  /\ searchTodos [milk; rent] (VStr "Rent") = searchTodos [milk; rent] (VStr "rENT").
Proof.
  destruct (searchTodos_ignores_case [milk; rent] "  " "") as [H1 _].
  destruct (searchTodos_ignores_case [milk; rent] "Rent" "rENT") as [_ H2].
  split; [apply H1|apply H2]; reflexivity.
Defined.

(** ** The categories and tags in use *)

Lemma includes_string (seen : list value) (x : value) :
  is_string x = true -> includes seen x = true <-> In x seen.
Proof.
  intros Hx. unfold includes. rewrite existsb_exists. split.
  - intros [y [Hin E]]. apply strict_eq_eq in E. now subst.
  - intros Hin. exists x. split; [exact Hin|].
    destruct x; try discriminate. cbn. apply String.eqb_refl.
Qed.

Lemma value_eq_dec_string (v x : value) :
  is_string v = true -> v = x \/ v <> x.
Proof.
  intros Hv. destruct (strict_eq v x) eqn:E.
  - left. now apply strict_eq_eq.
  - right. intros <-. destruct v; try discriminate.
    cbn in E. now rewrite String.eqb_refl in E.
Qed.

Lemma distinct_from_In (seen values : list value) (x : value) :
  List.Forall (fun v => is_string v = true) values ->
  In x (distinct_from seen values) <-> In x values /\ ~ In x seen.
Proof.
  intros H. revert seen. induction H as [|v values Hv _ IH]; intros seen.
  - cbn. tauto.
  - cbn [distinct_from]. destruct (includes seen v) eqn:E.
    + apply (includes_string seen v Hv) in E. rewrite IH. cbn [In].
      split; [tauto|]. intros [[<-|Hin] Hn]; tauto.
    + assert (~ In v seen) as Hn.
      { intros Hin. apply (includes_string seen v Hv) in Hin. congruence. }
      cbn [In]. rewrite IH. cbn [In]. split.
      * intros [<-|[Hin Hs]]; tauto.
      * intros [[<-|Hin] Hs]; [tauto|].
        destruct (value_eq_dec_string v x Hv) as [<-|Hne]; tauto.
Qed.

Lemma distinct_from_NoDup (seen values : list value) :
  List.Forall (fun v => is_string v = true) values ->
  List.NoDup (distinct_from seen values).
Proof.
  intros H. revert seen. induction H as [|v values Hv Hvs IH]; intros seen.
  - constructor.
  - cbn [distinct_from]. destruct (includes seen v); [apply IH|].
    constructor; [|apply IH].
    rewrite (distinct_from_In _ _ _ Hvs). cbn [In]. tauto.
Qed.

Lemma default_compare_strings (x y : value) :
  is_string x = true -> is_string y = true ->
  exists c, default_compare x y = Ok c
            /\ (0 <? c)%Z = str_ltb (ToString y) (ToString x).
Proof.
  destruct x as [| | | |s1| |]; try discriminate.
  destruct y as [| | | |s2| |]; try discriminate.
  intros _ _. unfold default_compare. cbn [ToString].
  destruct (str_ltb s1 s2) eqn:E12.
  - exists (-1)%Z. split; [reflexivity|]. now rewrite (str_ltb_asym _ _ E12).
  - destruct (str_ltb s2 s1); eexists; split; reflexivity.
Qed.

Lemma ToString_string_inj (x y : value) :
  is_string x = true -> is_string y = true -> ToString x = ToString y -> x = y.
Proof.
  destruct x, y; try discriminate. cbn. now intros _ _ ->.
Qed.

(** What [[...new Set(values)].sort()] returns on strings. *)
Lemma sort_distinct_strings (values : list value) :
  List.Forall (fun v => is_string v = true) values ->
  exists sorted,
    Array_sort default_compare (distinct values) = Ok sorted
    /\ (forall x, In x sorted <-> In x values)
    /\ Sorted.StronglySorted ascending sorted
    /\ List.NoDup sorted.
Proof.
  intros H.
  set (after := fun x y : value => str_ltb (ToString y) (ToString x)).
  assert (forall x, In x (distinct values) <-> In x values) as Hin.
  { intros x. unfold distinct. rewrite (distinct_from_In _ _ _ H). cbn. tauto. }
  assert (List.Forall (fun v => is_string v = true) (distinct values)) as Hd.
  { rewrite List.Forall_forall in H |- *. intros x Hx. apply H.
    now apply Hin. }
  assert (List.NoDup (sort_by after (distinct values))) as Hnd.
  { eapply Permutation_NoDup; [apply sort_by_perm|].
    now apply distinct_from_NoDup. }
  exists (sort_by after (distinct values)). split; [|split; [|split]].
  - apply Array_sort_pure. intros x y Hx Hy.
    rewrite List.Forall_forall in Hd. apply default_compare_strings; auto.
  - intros x. now rewrite sort_by_In.
  - assert (Sorted.StronglySorted (fun x y => after x y = false)
              (sort_by after (distinct values))) as Hs.
    { apply (sort_by_sorted after (fun v => is_string v = true)).
      - intros x y _ _. unfold after. apply str_ltb_asym.
      - intros x y z _ _ _. unfold after. intros Hxy Hyz.
        destruct (str_ltb (ToString z) (ToString x)) eqn:Ezx; [|reflexivity].
        destruct (str_ltb (ToString x) (ToString y)) eqn:Exy.
        + now rewrite (str_ltb_trans _ _ _ Ezx Exy) in Hyz.
        + rewrite (str_ltb_total _ _ Exy Hxy) in Ezx. congruence.
      - exact Hd. }
    assert (List.Forall (fun v => is_string v = true)
              (sort_by after (distinct values))) as Hd'.
    { rewrite List.Forall_forall in Hd |- *. intros x Hx. apply Hd.
      now apply (sort_by_In after). }
    clear -Hs Hnd Hd'.
    induction Hs as [|x l Hs IH Hx]; [constructor|].
    apply List.NoDup_cons_iff in Hnd as [Hnx Hnd].
    inversion Hd' as [|? ? Sx Sl]; subst.
    constructor; [now apply IH|].
    rewrite List.Forall_forall in Hx, Sl |- *. intros y Hy.
    unfold ascending. specialize (Hx y Hy). unfold after in Hx.
    destruct (str_ltb (ToString x) (ToString y)) eqn:E; [reflexivity|].
    exfalso. apply Hnx.
    rewrite (ToString_string_inj x y Sx (Sl y Hy) (str_ltb_total _ _ E Hx)).
    exact Hy.
  - exact Hnd.
Qed.

(** X20: when every category is a string, [getCategories] returns the
    categories of the records, each one once, in strictly ascending
    order of their code units. *)
Theorem getCategories_sorted (todos : list obj) :
  List.Forall (fun todo => is_string (get todo "category") = true) todos ->
  exists categories,
    getCategories todos = Ok categories
    /\ (forall c, In c categories
                  <-> exists todo, In todo todos /\ get todo "category" = c)
    /\ Sorted.StronglySorted ascending categories
    /\ List.NoDup categories.
Proof.
  intros H.
  destruct (sort_distinct_strings (map (fun todo => get todo "category") todos))
    as [sorted [E [Hin [Hs Hnd]]]].
  { rewrite List.Forall_forall in H |- *. intros v Hv.
    apply in_map_iff in Hv as [todo [<- Hin]]. now apply H. }
  exists sorted. split; [exact E|]. split; [|now split].
  intros c. rewrite Hin, in_map_iff. split.
  - intros [todo [Hc Ht]]. now exists todo.
  - intros [todo [Ht Hc]]. now exists todo.
Qed.

Lemma getCategories_sorted_witness :
  exists categories,
    getCategories [milk; rent; mum] = Ok categories
    /\ (forall c, In c categories
                  <-> exists todo, In todo [milk; rent; mum]
                                   /\ get todo "category" = c)
    /\ Sorted.StronglySorted ascending categories
    /\ List.NoDup categories.
Proof.
  apply getCategories_sorted. repeat constructor.
Defined.

(** X21: when the tags of every record are an array of strings, [getTags]
    returns the tags of the records, each one once, in strictly ascending
    order of their code units. *)
Theorem getTags_sorted (todos : list obj) :
  List.Forall (fun todo => string_tags todo = true) todos ->
  exists all_tags,
    getTags todos = Ok all_tags
    /\ (forall tag, In tag all_tags
                    <-> exists todo tags,
                        In todo todos /\ get todo "tags" = VArr tags
                        /\ In tag tags)
    /\ Sorted.StronglySorted ascending all_tags
    /\ List.NoDup all_tags.
Proof.
  intros H.
  destruct (sort_distinct_strings
              (flat_map (fun todo => flat_one (get todo "tags")) todos))
    as [sorted [E [Hin [Hs Hnd]]]].
  { rewrite List.Forall_forall in H |- *. intros v Hv.
    apply in_flat_map in Hv as [todo [Ht Hv]]. specialize (H todo Ht).
    unfold string_tags in H.
    destruct (get todo "tags") as [| | | | |tags|]; try discriminate.
    cbn [flat_one] in Hv. rewrite forallb_forall in H. now apply H. }
  exists sorted. split; [exact E|]. split; [|now split].
  intros tag. rewrite Hin, in_flat_map. split.
  - intros [todo [Ht Hv]]. rewrite List.Forall_forall in H.
    specialize (H todo Ht). unfold string_tags in H.
    destruct (get todo "tags") as [| | | | |tags|] eqn:Eg; try discriminate.
    now exists todo, tags.
  - intros [todo [tags [Ht [Eg Hv]]]]. exists todo. split; [exact Ht|].
    now rewrite Eg.
Qed.

Lemma getTags_sorted_witness :
  exists all_tags,
    getTags [<["tags" := VArr [VStr "home"; VStr "bills"]]> rent;
             <["tags" := VArr [VStr "home"]]> milk] = Ok all_tags
    /\ Sorted.StronglySorted ascending all_tags
    /\ List.NoDup all_tags.
Proof.
  destruct (getTags_sorted
              [<["tags" := VArr [VStr "home"; VStr "bills"]]> rent;
               <["tags" := VArr [VStr "home"]]> milk])
    as [l [E [_ [Hs Hn]]]].
  - repeat constructor.
  - exists l. repeat split; assumption.
Defined.

(** ** Statistics *)

Lemma count_step_other (acc : obj) (name name' : string) :
  name' <> name -> count_step acc name' !! name = acc !! name.
Proof.
  intros H. unfold count_step.
  destruct (acc !! name'); [now rewrite lookup_insert_ne|].
  destruct (inherited_member name'); [|now rewrite lookup_insert_ne].
  destruct (String.eqb name' "__proto__"); [reflexivity|].
  now rewrite lookup_insert_ne.
Qed.

Lemma count_step_same (acc : obj) (name : string) (n : nat) :
  inherited_member name = None ->
  acc !! name = counted n ->
  count_step acc name !! name = counted (S n).
Proof.
  intros Hi Ha. unfold count_step. rewrite Ha, Hi.
  destruct n as [|n]; cbn [counted]; rewrite lookup_insert_eq.
  - reflexivity.
  - unfold increment. cbn [truthy].
    destruct (Z.eqb_spec (Z.of_nat (S n)) 0) as [E|_]; [lia|].
    cbn [negb]. do 2 f_equal. lia.
Qed.

Lemma count_by_from (field name : string) (todos : list obj) (acc : obj)
    (n : nat) :
  inherited_member name = None ->
  acc !! name = counted n ->
  fold_left (fun acc todo => count_step acc (ToString (get todo field)))
            todos acc !! name
  = counted (n + count_named field name todos).
Proof.
  intros Hi. revert acc n.
  induction todos as [|todo todos IH]; intros acc n Ha.
  - cbn. now rewrite Nat.add_0_r.
  - cbn [fold_left]. unfold count_named. cbn [List.filter].
    destruct (String.eqb_spec (ToString (get todo field)) name) as [E|E].
    + rewrite (IH _ (S n)).
      * cbn [length]. f_equal. unfold count_named. lia.
      * rewrite E. now apply count_step_same.
    + rewrite (IH _ n); [reflexivity|].
      now rewrite count_step_other.
Qed.

Lemma count_by_spec (field name : string) (todos : list obj) :
  inherited_member name = None ->
  count_by field todos !! name = counted (count_named field name todos).
Proof.
  intros Hi. unfold count_by.
  now rewrite (count_by_from field name todos ∅ 0 Hi (lookup_empty _)).
Qed.

(** X22: in the statistics of [getTodoStats], the tallies by category and
    by priority have, under every name that [Object.prototype] does not
    define, the number of records whose category (priority), converted
    to a string, is that name, and no property when there is none. *)
Theorem getTodoStats_tallies `{host : Host} (todos : list obj)
    (name : string) (w : world) :
  inherited_member name = None ->
  exists st w',
    getTodoStats todos w = (Ok st, w')
    /\ byCategory st !! name = counted (count_named "category" name todos)
    /\ byPriority st !! name = counted (count_named "priority" name todos).
Proof.
  intros Hi. unfold getTodoStats.
  destruct (filterM_is_overdue_returns todos w) as [l [w' E]].
  rewrite (bind_Ok _ _ _ _ _ E). unfold ret.
  eexists _, w'. split; [reflexivity|]. cbn [byCategory byPriority].
  split; now apply count_by_spec.
Qed.

Lemma getTodoStats_tallies_witness :
  exists st w',
    getTodoStats (host := plain_host) [milk; rent; mum] world0 = (Ok st, w')
    /\ byCategory st !! "personal" = Some (VNum 2)
    /\ byPriority st !! "urgent" = None.
Proof.
  destruct (getTodoStats_tallies (host := plain_host)
              [milk; rent; mum] "personal" world0)
    as [st [w' [E [Hc _]]]]; [reflexivity|].
  destruct (getTodoStats_tallies (host := plain_host)
              [milk; rent; mum] "urgent" world0)
    as [st' [w'' [E' [_ Hp]]]]; [reflexivity|].
  exists st, w'. split; [exact E|]. split; [exact Hc|].
  rewrite E in E'. injection E' as <- _. exact Hp.
Defined.

Lemma filter_partition_length {A} (p : A -> bool) (l : list A) :
  (length (List.filter p l) + length (List.filter (fun x => negb (p x)) l)
   = length l)%nat.
Proof.
  induction l as [|x l IH]; [reflexivity|].
  cbn [List.filter]. destruct (p x); cbn [negb length]; lia.
Qed.

Lemma is_overdue_step `{host : Host} (todo : obj) (w : world) :
  exists keep w',
    is_overdue todo w = (Ok keep, w')
    /\ advances w w'
    /\ (ticks w' <= S (ticks w))%nat
    /\ (keep = true -> truthy (get todo "completed") = false)
    /\ forall lo hi,
         (lo <= clock w (ticks w) <= hi)%Z ->
         (overdue_at lo todo = true -> keep = true)
         /\ (keep = true -> overdue_at hi todo = true).
Proof.
  unfold is_overdue, overdue_at.
  destruct (truthy (get todo "dueDate") && negb (truthy (get todo "completed")))
    eqn:C.
  - run_effects. eexists _, _. split; [reflexivity|].
    split; [split; [apply same_storage_ticks|cbn; lia]|].
    split; [cbn; lia|]. split.
    + intros _. apply andb_true_iff in C as [_ C].
      now apply negb_true_iff in C.
    + intros lo hi Hb. cbn [andb].
      destruct (Date_getTime (get todo "dueDate")) as [due|];
        [|split; intros; discriminate].
      rewrite !Z.ltb_lt. lia.
  - exists false, w. split; [reflexivity|].
    split; [apply advances_refl|]. split; [lia|].
    split; [discriminate|]. intros lo hi _. cbn [andb].
    split; intros; discriminate.
Qed.

Lemma filterM_is_overdue_spec `{host : Host} (todos : list obj) (w : world) :
  exists l w',
    filterM is_overdue todos w = (Ok l, w')
    /\ advances w w'
    /\ (ticks w' <= ticks w + length todos)%nat
    /\ (length l
        <= length (List.filter
                     (fun todo => negb (truthy (get todo "completed"))) todos))%nat
    /\ forall lo hi,
         (forall n, (ticks w <= n)%nat -> (n < ticks w + length todos)%nat ->
                    (lo <= clock w n <= hi)%Z) ->
         (length (List.filter (overdue_at lo) todos) <= length l)%nat
         /\ (length l <= length (List.filter (overdue_at hi) todos))%nat.
Proof.
  revert w. induction todos as [|todo todos IH]; intros w.
  - exists [], w. split; [reflexivity|]. split; [apply advances_refl|].
    cbn. repeat split; lia.
  - destruct (is_overdue_step todo w) as [keep [w1 [E1 [A1 [T1 [K1 B1]]]]]].
    destruct (IH w1) as [l [w2 [E2 [A2 [T2 [K2 B2]]]]]].
    cbn [filterM].
    rewrite (bind_Ok _ _ _ _ _ E1), (bind_Ok _ _ _ _ _ E2). unfold ret.
    eexists _, w2. split; [reflexivity|].
    split; [eapply advances_trans; eassumption|].
    pose proof (advances_clock _ _ A1) as Ec.
    destruct A1 as [_ [T1' _]].
    split; [cbn [length]; lia|]. split.
    + cbn [List.filter]. destruct keep.
      * rewrite (K1 eq_refl). cbn [negb length]. lia.
      * destruct (negb _); cbn [length]; lia.
    + intros lo hi Hb.
      destruct (B1 lo hi) as [L1 H1].
      { apply Hb; cbn [length]; lia. }
      destruct (B2 lo hi) as [L2 H2].
      { intros n Hn1 Hn2. rewrite Ec. apply Hb; cbn [length]; lia. }
      cbn [List.filter].
      destruct keep.
      * rewrite (H1 eq_refl). cbn [length].
        destruct (overdue_at lo todo); cbn [length]; lia.
      * destruct (overdue_at lo todo) eqn:El; [now specialize (L1 eq_refl)|].
        destruct (overdue_at hi todo); cbn [length]; lia.
Qed.

(** X23: in the statistics of [getTodoStats], [overdue] is at most
    [active], and when the readings of the clock during the call lie
    between [lo] and [hi] it lies between the number of records overdue
    at [lo] and the number overdue at [hi], a record being overdue at a
    time when it is not completed and has a due date that [new Date]
    reads as a date before that time (on the implementation at hand,
    whichever it is); the call leaves the storage, the console and the
    downloads as they were. *)
Theorem getTodoStats_overdue `{host : Host} (todos : list obj) (w : world) :
  exists st w',
    getTodoStats todos w = (Ok st, w')
    /\ same_storage w w'
    /\ (0 <= overdue st <= active st)%Z
    /\ forall lo hi,
         (forall n, (ticks w <= n)%nat -> (n < ticks w + length todos)%nat ->
                    (lo <= clock w n <= hi)%Z) ->
         (count_overdue lo todos <= overdue st <= count_overdue hi todos)%Z.
Proof.
  unfold getTodoStats.
  destruct (filterM_is_overdue_spec todos w) as [l [w' [E [A [_ [K B]]]]]].
  rewrite (bind_Ok _ _ _ _ _ E). unfold ret.
  eexists _, w'. split; [reflexivity|]. cbn [overdue active].
  split; [apply A|]. split.
  - pose proof (filter_partition_length
                  (fun todo => truthy (get todo "completed")) todos) as P.
    lia.
  - intros lo hi Hb. destruct (B lo hi Hb). unfold count_overdue. lia.
Qed.

Lemma getTodoStats_overdue_witness :
  exists st w',
    getTodoStats (host := plain_host)
                 [<["dueDate" := VStr "2020-01-01T00:00:00Z"]> milk; rent;
                  <["dueDate" := VStr "2030-06-30"]> mum] world0
    = (Ok st, w')
    /\ overdue st = 1%Z.
Proof.
  destruct (getTodoStats_overdue (host := plain_host)
              [<["dueDate" := VStr "2020-01-01T00:00:00Z"]> milk; rent;
               <["dueDate" := VStr "2030-06-30"]> mum] world0)
    as [st [w' [E [_ [_ H]]]]].
  exists st, w'. split; [exact E|].
  specialize (H 1704067200000%Z 1704067203000%Z).
  assert (count_overdue (host := plain_host) 1704067200000
            [<["dueDate" := VStr "2020-01-01T00:00:00Z"]> milk; rent;
             <["dueDate" := VStr "2030-06-30"]> mum] = 1%Z) as E1
    by (vm_compute; reflexivity).
  assert (count_overdue (host := plain_host) 1704067203000
            [<["dueDate" := VStr "2020-01-01T00:00:00Z"]> milk; rent;
             <["dueDate" := VStr "2030-06-30"]> mum] = 1%Z) as E2
    by (vm_compute; reflexivity).
  rewrite E1, E2 in H.
  assert (1 <= overdue st <= 1)%Z; [|lia].
  apply H. intros n Hn1 Hn2. cbn in Hn2 |- *. lia.
Defined.

(** ** Loading what was saved *)

Ltac by_key k x :=
  destruct (String.eqb_spec k x) as [->|?];
  [now rewrite lookup_insert_eq|rewrite lookup_insert_ne by congruence].

Lemma created_lookup (s : string) (category priority : value) (w : world)
    (k : string) :
  created s category priority w !! k
  = if String.eqb k "description" then Some (VStr "")
    else if String.eqb k "tags" then Some (VArr [])
    else if String.eqb k "dueDate" then Some VNull
    else if String.eqb k "updatedAt"
    then Some (VStr (toISOString (clock w (S (ticks w)))))
    else if String.eqb k "createdAt"
    then Some (VStr (toISOString (clock w (ticks w))))
    else if String.eqb k "priority"
    then Some (default_arg priority (VStr "medium"))
    else if String.eqb k "category"
    then Some (default_arg category (VStr "general"))
    else if String.eqb k "completed" then Some (VBool false)
    else if String.eqb k "text" then Some (VStr (trim s))
    else if String.eqb k "id" then Some (VStr (uuid_source w (uuid_drawn w)))
    else None.
Proof.
  unfold created.
  by_key k "description". by_key k "tags". by_key k "dueDate".
  by_key k "updatedAt". by_key k "createdAt". by_key k "priority".
  by_key k "category". by_key k "completed". by_key k "text". by_key k "id".
  apply lookup_empty.
Qed.

Lemma normalizeStored_object (o : obj) (w : world) :
  normalizeStored (VObj o) w
  = (let w1 := after_create w in
     let createdAt :=
       if truthy (get o "createdAt") then get o "createdAt"
       else VStr (toISOString (clock w (S (S (ticks w))))) in
     let w2 :=
       if truthy (get o "createdAt") then w1
       else set_ticks (S (ticks w1)) w1 in
     let updatedAt :=
       if truthy (get o "updatedAt") then get o "updatedAt"
       else VStr (toISOString (clock w (ticks w2))) in
     let w3 :=
       if truthy (get o "updatedAt") then w2
       else set_ticks (S (ticks w2)) w2 in
     (Ok (<["updatedAt" := updatedAt]>
          (<["createdAt" := createdAt]>
           (spread (created "" VUndefined VUndefined w) o))), w3)).
Proof.
  unfold normalizeStored.
  rewrite (bind_Ok _ _ _ _ _ (createTodo_spec _ _ _ _)).
  cbn [props_of get_prop]. cbv zeta. run_effects.
  destruct (truthy (get o "createdAt")), (truthy (get o "updatedAt"));
    reflexivity.
Qed.

Lemma normalizeStored_kept (o : obj) (w : world) :
  kept_by_storage o ->
  normalizeStored (VObj o) w = (Ok o, after_create w).
Proof.
  intros [_ [Hk [Hc Hu]]]. rewrite normalizeStored_object. cbv zeta.
  rewrite Hc, Hu. f_equal. f_equal. apply map_eq. intros k.
  destruct (String.eqb_spec k "updatedAt") as [->|Nu].
  { rewrite lookup_insert_eq. symmetry. apply get_lookup.
    intros E. rewrite E in Hu. discriminate. }
  rewrite lookup_insert_ne by congruence.
  destruct (String.eqb_spec k "createdAt") as [->|Nc].
  { rewrite lookup_insert_eq. symmetry. apply get_lookup.
    intros E. rewrite E in Hc. discriminate. }
  rewrite lookup_insert_ne by congruence.
  rewrite lookup_spread. destruct (o !! k) eqn:Eo; [reflexivity|].
  rewrite created_lookup.
  repeat match goal with
         | |- context [String.eqb k ?x] =>
             destruct (String.eqb_spec k x) as [->|?];
             [exfalso; apply (Hk x); [cbn; tauto|exact Eo]|]
         end.
  reflexivity.
Qed.

Lemma mapM_normalizeStored_kept (todos : list obj) (w : world) :
  List.Forall kept_by_storage todos ->
  exists w', mapM normalizeStored (map VObj todos) w = (Ok todos, w').
Proof.
  intros H. revert w. induction H as [|todo todos Ht _ IH]; intros w.
  - exists w. reflexivity.
  - destruct (IH (after_create w)) as [w' E]. exists w'.
    cbn [map mapM].
    rewrite (bind_Ok _ _ _ _ _ (normalizeStored_kept todo w Ht)).
    now rewrite (bind_Ok _ _ _ _ _ E).
Qed.

Lemma loadTodos_stored_array (entries : list value) (w : world)
    (todos : list obj) (w' : world) :
  ls_readable w = true ->
  ls_items w !! TODOS_STORAGE_KEY = Some (Json (VArr entries)) ->
  mapM normalizeStored entries w = (Ok todos, w') ->
  loadTodos w = (Ok todos, w').
Proof.
  intros Hr Hi E. unfold loadTodos, try_catch, bind at 1, localStorage_getItem.
  rewrite Hr, Hi. cbn [text_truthy negb JSON_parse].
  unfold bind at 1, ret at 1. cbn [map_value]. now rewrite E.
Qed.

(** X24: where the storage can be written and read, what [saveTodos]
    stores [loadTodos] returns: for records that have the properties
    [createTodo] gives, truthy timestamps and only values that JSON
    carries, saving the list and loading it gives the list itself. *)
Theorem save_load_round_trip (todos : list obj) (w : world) :
  ls_readable w = true -> ls_writable w = true ->
  List.Forall kept_by_storage todos ->
  exists w1 w2,
    saveTodos todos w = (Ok true, w1)
    /\ loadTodos w1 = (Ok todos, w2).
Proof.
  intros Hr Hw H.
  exists (saved todos w). rewrite saveTodos_spec, Hw.
  destruct (mapM_normalizeStored_kept todos (saved todos w) H) as [w2 E].
  exists w2. split; [reflexivity|].
  apply (loadTodos_stored_array (map VObj todos)); [| |exact E].
  - unfold saved. now rewrite Hw.
  - unfold saved. rewrite Hw. cbn [ls_items set_items].
    rewrite lookup_insert_eq. unfold JSON_stringify, as_array.
    do 2 f_equal. cbn [jsonify]. f_equal. rewrite map_map.
    apply map_ext_in. intros todo Hin.
    rewrite List.Forall_forall in H. destruct (H todo Hin) as [Hj _].
    change (jsonify (VObj todo) = VObj todo). now rewrite jsonify_VObj, Hj.
Qed.

Lemma save_load_round_trip_witness :
  exists w1 w2,
    saveTodos [milk; rent] world0 = (Ok true, w1)
    /\ loadTodos w1 = (Ok [milk; rent], w2).
Proof.
  apply save_load_round_trip; [reflexivity|reflexivity|].
  repeat constructor; try by_evaluation;
    intros k Hk; cbn in Hk;
    repeat (destruct Hk as [<-|Hk]; [discriminate|]); contradiction.
Defined.

Lemma normalizeStored_loaded (o : obj) (w : world) :
  exists todo w',
    normalizeStored (VObj o) w = (Ok todo, w')
    /\ advances w w' /\ loaded_from w w' o todo.
Proof.
  rewrite normalizeStored_object. cbv zeta. eexists _, _.
  split; [reflexivity|].
  assert (forall k, ~ In k ["id"; "text"; "createdAt"; "updatedAt"] ->
                    o !! k = None ->
                    created "" VUndefined VUndefined w !! k
                    = record_defaults !! k) as Hd.
  { intros k Hk Ho. rewrite created_lookup. unfold record_defaults.
    cbn [In] in Hk.
    repeat match goal with
           | |- context [String.eqb k ?x] =>
               destruct (String.eqb_spec k x) as [->|?];
               [first [tauto|reflexivity]|]
           end.
    rewrite !lookup_insert_ne by congruence. now rewrite lookup_empty. }
  split; [|split; [|split; [|split; [|split]]]].
  - destruct (truthy (get o "createdAt")), (truthy (get o "updatedAt"));
      (split; [unfold same_storage; cbn; tauto|cbn; lia]).
  - intros k Hk. cbn [In] in Hk.
    rewrite !lookup_insert_ne by (intros <-; tauto).
    rewrite lookup_spread. destruct (o !! k) eqn:Eo; [reflexivity|].
    apply Hd; [cbn [In]; tauto|exact Eo].
  - rewrite !get_insert_ne by discriminate. unfold get at 1.
    rewrite lookup_spread. destruct (o !! "text"); reflexivity.
  - unfold get. rewrite !lookup_insert_ne by discriminate.
    rewrite lookup_spread. destruct (o !! "id"); [reflexivity|].
    exists (uuid_drawn w).
    destruct (truthy _), (truthy _); cbn; repeat split; lia.
  - rewrite get_insert_ne, get_insert_eq by discriminate.
    destruct (truthy (get o "createdAt")); [reflexivity|].
    exists (S (S (ticks w))).
    destruct (truthy _); cbn; repeat split; lia.
  - rewrite get_insert_eq.
    destruct (truthy (get o "updatedAt")); [reflexivity|].
    destruct (truthy (get o "createdAt")); cbn;
      eexists; (split; [|split; [|reflexivity]]); lia.
Qed.

Lemma loaded_from_widen (w0 w1 w2 w3 : world) (o todo : obj) :
  advances w0 w1 -> advances w1 w2 -> advances w2 w3 ->
  loaded_from w1 w2 o todo -> loaded_from w0 w3 o todo.
Proof.
  intros A1 A2 A3 [Hk [Ht [Hid [Hc Hu]]]].
  pose proof (advances_clock _ _ A1) as Ec.
  pose proof (advances_source _ _ A1) as Es.
  destruct A1 as [_ [T1 D1]], A2 as [_ [T2 D2]], A3 as [_ [T3 D3]].
  split; [exact Hk|]. split; [exact Ht|]. split; [|split].
  - destruct (o !! "id"); [exact Hid|].
    destruct Hid as [n [? [? E]]]. exists n. rewrite <- Es.
    repeat split; [lia|lia|exact E].
  - destruct (truthy (get o "createdAt")); [exact Hc|].
    destruct Hc as [n [? [? E]]]. exists n. rewrite <- Ec.
    repeat split; [lia|lia|exact E].
  - destruct (truthy (get o "updatedAt")); [exact Hu|].
    destruct Hu as [n [? [? E]]]. exists n. rewrite <- Ec.
    repeat split; [lia|lia|exact E].
Qed.

(** X25: when the storage holds an array of objects, [loadTodos] returns
    one record for each of them, in their order: a record has the
    properties of the stored object, the defaults of [createTodo] for
    those the object lacks (an empty text, the next identifier of the
    source as id, [general], [medium], not completed, no due date, no
    tags, an empty description), and for a timestamp that is missing or
    falsy a reading of the clock.  Only the clock and the uuid source
    are used. *)
Theorem loadTodos_fills_defaults (stored : list obj) (w : world) :
  ls_readable w = true ->
  ls_items w !! TODOS_STORAGE_KEY = Some (Json (VArr (map VObj stored))) ->
  exists todos w',
    loadTodos w = (Ok todos, w')
    /\ advances w w'
    /\ Forall2 (loaded_from w w') stored todos.
Proof.
  intros Hr Hi.
  destruct (mapM_between (fun w0 w1 entry todo =>
                            exists o, entry = VObj o /\ loaded_from w0 w1 o todo)
              normalizeStored (map VObj stored) w) as [l [w' [Hl [Ha HF]]]].
  - intros entry w0 Hin. apply in_map_iff in Hin as [o [<- _]].
    destruct (normalizeStored_loaded o w0) as [todo [w1 [E [A L]]]].
    exists todo, w1. split; [exact E|]. split; [exact A|]. now exists o.
  - intros w0 w1 w2 w3 entry todo A1 A2 A3 [o [-> L]]. exists o.
    split; [reflexivity|]. now apply (loaded_from_widen w0 w1 w2 w3).
  - exists l, w'. split; [now apply (loadTodos_stored_array _ _ _ _ Hr Hi)|].
    split; [exact Ha|].
    clear -HF. revert l HF. induction stored as [|o stored IH]; intros l HF.
    + inversion HF. constructor.
    + cbn [map] in HF.
      inversion HF as [|? todo ? l' [o' [E L]] HF']; subst.
      injection E as <-. constructor; [exact L|now apply IH].
Qed.

Lemma loadTodos_fills_defaults_witness :
  exists todos w',
    loadTodos (set_items (insert TODOS_STORAGE_KEY
                            (Json (VArr (map VObj [<["text" := VStr "x"]> ∅]))))
                         world0)
    = (Ok todos, w')
    /\ Forall2 (loaded_from
                  (set_items (insert TODOS_STORAGE_KEY
                                (Json (VArr (map VObj
                                               [<["text" := VStr "x"]> ∅]))))
                             world0) w')
               [<["text" := VStr "x"]> ∅] todos.
Proof.
  destruct (loadTodos_fills_defaults [<["text" := VStr "x"]> ∅]
              (set_items (insert TODOS_STORAGE_KEY
                            (Json (VArr (map VObj [<["text" := VStr "x"]> ∅]))))
                         world0))
    as [todos [w' [E [_ HF]]]]; [reflexivity|reflexivity|].
  exists todos, w'. split; assumption.
Defined.

Lemma confined_get_prop (v : value) (k : string) : confined (get_prop v k).
Proof.
  intros w r w' H. destruct v; inversion H; apply same_storage_refl.
Qed.

Lemma confined_normalizeStored (entry : value) :
  confined (normalizeStored entry).
Proof.
  unfold normalizeStored.
  apply confined_bind; [apply confined_createTodo|]. intros defaults.
  cbv zeta.
  apply confined_bind; [apply confined_get_prop|]. intros c.
  apply confined_bind; [apply confined_if; auto with confined|]. intros c'.
  apply confined_bind; [apply confined_get_prop|]. intros u.
  apply confined_bind; [apply confined_if; auto with confined|]. intros u'.
  apply confined_ret.
Qed.

Lemma mapM_normalizeStored_null (entries : list value) (w : world) :
  In VNull entries \/ In VUndefined entries ->
  exists e w',
    mapM normalizeStored entries w = (Throw e, w')
    /\ same_storage w w'.
Proof.
  revert w. induction entries as [|entry entries IH]; intros w H.
  - destruct H as [[]|[]].
  - cbn [mapM]. destruct (normalizeStored entry w) as [[todo|e] w1] eqn:E.
    + assert (same_storage w w1) as S1.
      { eapply confined_normalizeStored. exact E. }
      destruct (IH w1) as [e [w' [E' S']]].
      { destruct H as [[->|H]|[->|H]]; [discriminate E|tauto|
                                        discriminate E|tauto]. }
      exists e, w'. rewrite (bind_Ok _ _ _ _ _ E).
      split; [now apply bind_Throw|].
      eapply same_storage_trans; eassumption.
    + exists e, w1. split; [now apply bind_Throw|].
      eapply confined_normalizeStored. exact E.
Qed.

(** X26: when the storage holds JSON that is not an array, or an array
    with a [null] among its entries, [loadTodos] returns the empty list,
    whatever else is stored, and writes one message to the console; the
    stored payload stays as it is. *)
Theorem loadTodos_discards (stored : value) (w : world) :
  ls_readable w = true ->
  ls_items w !! TODOS_STORAGE_KEY = Some (Json stored) ->
  (forall entries, stored = VArr entries -> In VNull entries) ->
  exists w',
    loadTodos w = (Ok [], w')
    /\ ls_items w' = ls_items w
    /\ console w' = (console w ++ ["Error loading todos from localStorage:"])%list.
Proof.
  intros Hr Hi Hs.
  unfold loadTodos, try_catch, bind at 1, localStorage_getItem.
  rewrite Hr, Hi. cbn [text_truthy negb JSON_parse].
  unfold bind at 1, ret at 1.
  destruct stored as [| | | | |entries|]; cbn [map_value];
    try (eexists; split; [reflexivity|split; reflexivity]).
  destruct (mapM_normalizeStored_null entries w) as [e [w1 [E S1]]].
  { left. now apply Hs. }
  rewrite E. eexists. split; [reflexivity|].
  unfold same_storage in S1. cbn. split; [tauto|].
  f_equal. tauto.
Qed.

Lemma loadTodos_discards_witness :
  exists w',
    loadTodos (set_items (insert TODOS_STORAGE_KEY
                            (Json (VArr [VObj milk; VNull; VObj rent])))
                         world0)
    = (Ok [], w')
    /\ console w' = ["Error loading todos from localStorage:"].
Proof.
  destruct (loadTodos_discards (VArr [VObj milk; VNull; VObj rent])
              (set_items (insert TODOS_STORAGE_KEY
                            (Json (VArr [VObj milk; VNull; VObj rent])))
                         world0))
    as [w' [E [_ C]]]; [reflexivity|reflexivity| |].
  - intros entries [= <-]. cbn. tauto.
  - exists w'. split; [exact E|exact C].
Defined.

(** ** Sorting by completion, and the two orders *)

Lemma insert_front_group {A} (p : A -> bool) (after : A -> A -> bool)
    (x : A) (front back : list A) :
  (forall x y, after x y = p x && negb (p y)) ->
  p x = true ->
  (forall y, In y front -> p y = false) ->
  (forall y, In y back -> p y = true) ->
  insert_by after x (front ++ back) = (front ++ x :: back)%list.
Proof.
  intros Hafter Px Hf Hb. induction front as [|y front IH]; cbn [app].
  - destruct back as [|z back]; [reflexivity|].
    cbn [insert_by]. rewrite Hafter, Px, (Hb z) by now left. reflexivity.
  - cbn [insert_by]. rewrite Hafter, Px, (Hf y) by now left.
    cbn [negb andb]. f_equal. apply IH. intros z Hz. apply Hf. now right.
Qed.

(** An insertion sort that places the elements of a class after the
    others keeps each group in its order. *)
Lemma sort_by_two_groups {A} (p : A -> bool) (after : A -> A -> bool)
    (l : list A) :
  (forall x y, after x y = p x && negb (p y)) ->
  sort_by after l
  = (List.filter (fun x => negb (p x)) l ++ List.filter p l)%list.
Proof.
  intros Hafter. induction l as [|x l IH]; [reflexivity|].
  cbn [sort_by List.filter]. rewrite IH. clear IH.
  destruct (p x) eqn:Px; cbn [negb].
  - apply (insert_front_group p); auto.
    + intros y Hy. apply List.filter_In in Hy as [_ Hy].
      now apply negb_true_iff.
    + intros y Hy. now apply List.filter_In in Hy.
  - cbn [app].
    destruct (List.filter (fun x => negb (p x)) l ++ List.filter p l)%list
      as [|y rest]; [reflexivity|].
    cbn [insert_by]. now rewrite Hafter, Px.
Qed.

Lemma key_of_completed `{host : Host} (todo : obj) :
  key_of (VStr "completed") todo
  = Ok (KNum (Some (if truthy (get todo "completed") then 1 else 0)%Z)).
Proof. reflexivity. Qed.

Lemma not_asc (order : value) :
  order <> VStr "asc" ->
  strict_eq (default_arg order (VStr "desc")) (VStr "asc") = false.
Proof.
  intros H. destruct order as [| | | |s| |]; try reflexivity.
  cbn. apply String.eqb_neq. congruence.
Qed.

(** X27: sorted by [completed] in ascending order, the records that are
    not completed come first and the completed ones after them, each
    group in the order it had in the list; in any other order (the
    default, [desc]) the completed ones come first.  No record makes
    this sort throw. *)
Theorem sortTodos_by_completed `{host : Host} (todos : list obj)
    (order : value) :
  sortTodos todos (VStr "completed") (VStr "asc")
  = Ok (List.filter (fun todo => negb (truthy (get todo "completed"))) todos
        ++ List.filter (fun todo => truthy (get todo "completed")) todos)%list
  /\ (order <> VStr "asc" ->
      sortTodos todos (VStr "completed") order
      = Ok (List.filter (fun todo => truthy (get todo "completed")) todos
            ++ List.filter (fun todo => negb (truthy (get todo "completed")))
                           todos)%list).
Proof.
  split.
  - rewrite <- (sort_by_two_groups
                  (fun todo => truthy (get todo "completed"))
                  (placed_after (VStr "completed") (VStr "asc"))).
    + unfold sortTodos. apply Array_sort_pure. intros x y _ _.
      eexists. split; [reflexivity|reflexivity].
    + intros x y.
      rewrite (placed_after_keys _ _ _ _ _ _ (key_of_completed x)
                 (key_of_completed y)).
      cbn [default_arg strict_eq String.eqb Ascii.eqb Bool.eqb key_ltb].
      destruct (truthy (get x "completed")), (truthy (get y "completed"));
        reflexivity.
  - intros Ho.
    rewrite <- (List.filter_ext
                  (fun todo => negb (negb (truthy (get todo "completed"))))
                  (fun todo => truthy (get todo "completed")))
      by (intros todo; apply negb_involutive).
    rewrite <- (sort_by_two_groups
                  (fun todo => negb (truthy (get todo "completed")))
                  (placed_after (VStr "completed") order)).
    + unfold sortTodos. apply Array_sort_pure. intros x y _ _.
      eexists. split; [reflexivity|reflexivity].
    + intros x y.
      rewrite (placed_after_keys _ _ _ _ _ _ (key_of_completed x)
                 (key_of_completed y)).
      rewrite (not_asc order Ho). cbn [key_ltb].
      destruct (truthy (get x "completed")), (truthy (get y "completed"));
        reflexivity.
Qed.

Lemma sortTodos_by_completed_witness :
  sortTodos (host := plain_host) [rent; milk; mum] (VStr "completed")
            (VStr "asc")
  = Ok [milk; mum; rent]
  /\ sortTodos (host := plain_host) [milk; rent; mum] (VStr "completed")
               VUndefined
     = Ok [rent; milk; mum].
Proof.
  destruct (sortTodos_by_completed (host := plain_host)
              [rent; milk; mum] VUndefined) as [H1 _].
  destruct (sortTodos_by_completed (host := plain_host)
              [milk; rent; mum] VUndefined) as [_ H2].
  split; [exact H1|apply H2; discriminate].
Defined.

Lemma StronglySorted_app {A} (R : A -> A -> Prop) (l1 l2 : list A) :
  Sorted.StronglySorted R l1 -> Sorted.StronglySorted R l2 ->
  (forall a b, In a l1 -> In b l2 -> R a b) ->
  Sorted.StronglySorted R (l1 ++ l2).
Proof.
  intros H1 H2 H. induction H1 as [|x l1 H1 IH Hx]; [exact H2|].
  cbn [app]. constructor.
  - apply IH. intros a b Ha Hb. apply H; [now right|exact Hb].
  - rewrite List.Forall_forall in Hx |- *. intros y Hy.
    apply in_app_or in Hy as [Hy|Hy]; [now apply Hx|].
    apply H; [now left|exact Hy].
Qed.

Lemma StronglySorted_rev {A} (R : A -> A -> Prop) (l : list A) :
  Sorted.StronglySorted (fun a b => R b a) l ->
  Sorted.StronglySorted R (rev l).
Proof.
  induction 1 as [|x l Hl IH Hx]; [constructor|].
  cbn [rev]. apply StronglySorted_app; [exact IH|repeat constructor|].
  intros a b Ha [<-|[]]. rewrite List.Forall_forall in Hx.
  apply Hx. now apply in_rev.
Qed.

(** A list has one arrangement that an antisymmetric relation finds in
    order. *)
Lemma sorted_arrangement_unique {A} (R : A -> A -> Prop) (l1 l2 : list A) :
  (forall a b, In a l1 -> In b l1 -> R a b -> R b a -> a = b) ->
  Permutation l1 l2 ->
  Sorted.StronglySorted R l1 -> Sorted.StronglySorted R l2 ->
  l1 = l2.
Proof.
  intros Hanti HP H1. revert l2 HP.
  induction H1 as [|x l1 H1 IH Hx]; intros l2 HP H2.
  - apply Permutation_nil in HP. now subst.
  - destruct H2 as [|y l2 H2 Hy].
    + apply Permutation_sym, Permutation_nil in HP. discriminate.
    + assert (x = y) as <-.
      { rewrite List.Forall_forall in Hx, Hy.
        assert (In y (x :: l1)) as Iy
          by (apply (Permutation_in _ (Permutation_sym HP)); now left).
        assert (In x (y :: l2)) as Ix
          by (apply (Permutation_in _ HP); now left).
        destruct Iy as [E|Iy]; [exact E|].
        destruct Ix as [E|Ix]; [now symmetry|].
        apply Hanti; [now left|now right|now apply Hx|now apply Hy]. }
      f_equal. apply IH.
      * intros a b Ha Hb. apply Hanti; now right.
      * now apply Permutation_cons_inv in HP.
      * exact H2.
Qed.

Lemma NoDup_map_injective {A B} (f : A -> B) (l : list A) (a b : A) :
  List.NoDup (map f l) -> In a l -> In b l -> f a = f b -> a = b.
Proof.
  induction l as [|x l IH]; [contradiction|].
  cbn [map]. intros Hnd Ha Hb E.
  apply List.NoDup_cons_iff in Hnd as [Hx Hnd].
  destruct Ha as [<-|Ha], Hb as [<-|Hb]; [reflexivity| | |now apply IH].
  - exfalso. apply Hx. rewrite E. now apply in_map.
  - exfalso. apply Hx. rewrite <- E. now apply in_map.
Qed.

(** X28: when the records are sortable by [sortBy] and no two of them
    have the same key, the descending order that [sortTodos] returns is
    the reverse of the ascending one. *)
Theorem sortTodos_desc_reverses `{host : Host} (todos : list obj)
    (sortBy : value) :
  List.Forall (fun todo => sortable sortBy todo = true) todos ->
  List.NoDup (map (key_of sortBy) todos) ->
  exists sorted,
    sortTodos todos sortBy (VStr "asc") = Ok sorted
    /\ sortTodos todos sortBy (VStr "desc") = Ok (rev sorted).
Proof.
  intros Hs Hnd.
  set (kind := negb (strict_eq (default_arg sortBy (VStr "createdAt"))
                               (VStr "text")
                     || strict_eq (default_arg sortBy (VStr "createdAt"))
                                  (VStr "category"))).
  assert (List.Forall (keyed sortBy kind) todos) as HK.
  { eapply List.Forall_impl; [|exact Hs]. apply sortable_keyed. }
  pose proof HK as HK'. rewrite List.Forall_forall in HK'.
  set (up := placed_after sortBy (VStr "asc")).
  set (down := placed_after sortBy (VStr "desc")).
  assert (forall a b, In a todos -> In b todos -> up a b = down b a) as Hflip.
  { intros a b Ha Hb.
    destruct (HK' a Ha) as [ka [Ka _]], (HK' b Hb) as [kb [Kb _]].
    unfold up, down.
    rewrite (placed_after_keys _ _ _ _ _ _ Ka Kb),
      (placed_after_keys _ _ _ _ _ _ Kb Ka).
    reflexivity. }
  exists (sort_by up todos). split.
  { unfold sortTodos. apply Array_sort_pure. intros x y Hx Hy.
    apply (keyed_compare_returns sortBy (VStr "asc") kind); auto. }
  assert (sortTodos todos sortBy (VStr "desc") = Ok (sort_by down todos)) as ->.
  { unfold sortTodos. apply Array_sort_pure. intros x y Hx Hy.
    apply (keyed_compare_returns sortBy (VStr "desc") kind); auto. }
  f_equal.
  apply (sorted_arrangement_unique (fun a b => down a b = false)).
  - intros a b Ha Hb Hab Hba.
    apply (proj1 (sort_by_In down todos a)) in Ha.
    apply (proj1 (sort_by_In down todos b)) in Hb.
    apply (NoDup_map_injective (key_of sortBy) todos); auto.
    destruct (HK' a Ha) as [ka [Ka Kka]], (HK' b Hb) as [kb [Kb Kkb]].
    unfold down in Hab, Hba.
    rewrite (placed_after_keys _ _ _ _ _ _ Ka Kb) in Hab.
    rewrite (placed_after_keys _ _ _ _ _ _ Kb Ka) in Hba.
    cbn in Hab, Hba. rewrite Ka, Kb. f_equal.
    exact (key_ltb_total ka kb kind Kka Kkb Hab Hba).
  - rewrite <- (sort_by_perm down todos), <- Permutation_rev.
    apply sort_by_perm.
  - apply (sort_by_sorted down (keyed sortBy kind)).
    + apply placed_after_asym.
    + apply placed_before_trans.
    + exact HK.
  - apply StronglySorted_rev.
    apply (StronglySorted_impl_In (fun a b => up a b = false)).
    + intros x y Hx Hy H.
      apply (proj1 (sort_by_In up todos x)) in Hx.
      apply (proj1 (sort_by_In up todos y)) in Hy.
      now rewrite <- (Hflip x y Hx Hy).
    + apply (sort_by_sorted up (keyed sortBy kind)).
      * apply placed_after_asym.
      * apply placed_before_trans.
      * exact HK.
Qed.

Lemma sortTodos_desc_reverses_witness :
  exists sorted,
    sortTodos (host := plain_host) [milk; rent; mum] (VStr "text") (VStr "asc")
    = Ok sorted
    /\ sortTodos (host := plain_host) [milk; rent; mum] (VStr "text")
                 (VStr "desc")
       = Ok (rev sorted).
Proof.
  apply sortTodos_desc_reverses.
  - repeat constructor.
  - repeat constructor; cbn; intuition discriminate.
Defined.

(** ** Sorting records that cannot be compared *)

Lemma sort_insert_length {A} (cmp : A -> A -> result Z) (x : A)
    (l sorted : list A) :
  sort_insert cmp x l = Ok sorted -> length sorted = S (length l).
Proof.
  revert sorted. induction l as [|y l IH]; intros sorted; cbn [sort_insert].
  - now intros [= <-].
  - destruct (cmp x y) as [c|]; [|discriminate].
    destruct (0 <? c)%Z; [|now intros [= <-]].
    destruct (sort_insert cmp x l) as [r|]; [|discriminate].
    intros [= <-]. cbn [length]. f_equal. now apply IH.
Qed.

Lemma Array_sort_length {A} (cmp : A -> A -> result Z) (l sorted : list A) :
  Array_sort cmp l = Ok sorted -> length sorted = length l.
Proof.
  revert sorted. induction l as [|x l IH]; intros sorted; cbn [Array_sort].
  - now intros [= <-].
  - destruct (Array_sort cmp l) as [r|]; [|discriminate].
    intros H. apply sort_insert_length in H. rewrite H, (IH r); reflexivity.
Qed.

Lemma Array_sort_In {A} (cmp : A -> A -> result Z) (l sorted : list A)
    (x : A) :
  Array_sort cmp l = Ok sorted -> In x l -> In x sorted.
Proof.
  assert (forall y l' r, sort_insert cmp y l' = Ok r ->
                         forall z, In z (y :: l') -> In z r) as Hins.
  { intros y l'. induction l' as [|a l' IH]; intros r; cbn [sort_insert].
    - now intros [= <-].
    - destruct (cmp y a) as [c|]; [|discriminate].
      destruct (0 <? c)%Z; [|now intros [= <-]].
      destruct (sort_insert cmp y l') as [r'|]; [|discriminate].
      intros [= <-] z [<-|[<-|Hz]].
      + right. apply (IH r' eq_refl). now left.
      + now left.
      + right. apply (IH r' eq_refl). now right. }
  revert sorted. induction l as [|a l IH]; intros sorted; [contradiction|].
  cbn [Array_sort]. destruct (Array_sort cmp l) as [r|]; [|discriminate].
  intros H [<-|Hx].
  - apply (Hins _ _ _ H). now left.
  - apply (Hins _ _ _ H). right. now apply IH.
Qed.

(** A sort of two or more elements compares every one of them. *)
Lemma Array_sort_throws {A} (cmp : A -> A -> result Z) (bad : A -> bool)
    (l : list A) :
  (forall x y, bad x = true \/ bad y = true -> exists e, cmp x y = Throw e) ->
  (2 <= length l)%nat ->
  existsb bad l = true ->
  exists e, Array_sort cmp l = Throw e.
Proof.
  intros Hcmp. induction l as [|x l IH]; intros Hlen Hbad; [cbn in Hlen; lia|].
  cbn [Array_sort].
  destruct (Array_sort cmp l) as [sorted|e] eqn:E; [|eauto].
  pose proof (Array_sort_length _ _ _ E) as Hl.
  destruct sorted as [|y sorted]; [cbn in Hl, Hlen; lia|].
  cbn [sort_insert].
  destruct (bad x) eqn:Bx.
  { destruct (Hcmp x y (or_introl Bx)) as [e ->]. eauto. }
  cbn [existsb] in Hbad. rewrite Bx in Hbad. cbn [orb] in Hbad.
  destruct l as [|a [|b l]].
  - discriminate.
  - cbn [Array_sort sort_insert] in E. injection E as <- <-.
    cbn in Hbad. rewrite orb_false_r in Hbad.
    destruct (Hcmp x a (or_intror Hbad)) as [e ->]. eauto.
  - destruct IH as [e E']; [cbn [length]; lia|exact Hbad|]. congruence.
Qed.

(** X29: [sortTodos] by text, or by category, throws when the list has
    two records or more and the text (the category) of one of them is
    not a string. *)
Theorem sortTodos_throws `{host : Host} (todos : list obj) (field : string)
    (order : value) :
  field = "text" \/ field = "category" ->
  (2 <= length todos)%nat ->
  existsb (fun todo => negb (is_string (get todo field))) todos = true ->
  exists e, sortTodos todos (VStr field) order = Throw e.
Proof.
  intros Hf Hlen Hbad. unfold sortTodos.
  apply (Array_sort_throws _ (fun todo => negb (is_string (get todo field))));
    [|exact Hlen|exact Hbad].
  assert (forall todo, negb (is_string (get todo field)) = true ->
                       exists e, sort_key (VStr field) todo = Throw e) as Hk.
  { intros todo Ht. destruct Hf as [-> | ->]; cbn;
      destruct (get todo _); try discriminate; cbn; eauto. }
  intros x y Hxy. cbn [default_arg]. unfold comparator.
  destruct (sort_key (VStr field) x) as [kx|ex] eqn:Ex; [|eauto].
  destruct Hxy as [Hx|Hy].
  - destruct (Hk x Hx) as [e E]. congruence.
  - destruct (Hk y Hy) as [e ->]. eauto.
Qed.

Lemma sortTodos_throws_witness :
  exists e,
    sortTodos (host := plain_host) [milk; delete "text" rent; mum]
              (VStr "text") (VStr "asc")
    = Throw e.
Proof.
  apply sortTodos_throws; [now left|cbn; lia|reflexivity].
Defined.

(** ** Adding and deleting *)

Lemma saved_writable (l : list obj) (w : world) :
  ls_writable (saved l w) = ls_writable w.
Proof. unfold saved. destruct (ls_writable w) eqn:E; cbn; now rewrite E. Qed.

Lemma saved_holds (l : list obj) (w : world) :
  ls_writable w = true ->
  ls_items (saved l w) !! TODOS_STORAGE_KEY
  = Some (JSON_stringify (as_array l)).
Proof.
  intros H. unfold saved. rewrite H. cbn [ls_items set_items].
  apply lookup_insert_eq.
Qed.

(** X30: when the next identifier of the uuid source is not an id of the
    list, deleting the record that [addTodo] has just added returns the
    list as it was, and where the storage can be written it then holds
    that list. *)
Theorem add_then_delete (todos : list obj) (s : string)
    (category priority : value) (w : world) :
  trim s <> "" ->
  ~ In (VStr (uuid_source w (uuid_drawn w))) (ids_of todos) ->
  exists newTodo w1 w2,
    addTodo todos (VStr s) category priority w = (Ok (newTodo :: todos), w1)
    /\ deleteTodo (newTodo :: todos) (get newTodo "id") w1 = (Ok todos, w2)
    /\ (ls_writable w = true ->
        ls_items w2 !! TODOS_STORAGE_KEY
        = Some (JSON_stringify (as_array todos))).
Proof.
  intros Hs Hfresh.
  exists (created s category priority w).
  eexists _, _. split; [now apply addTodo_nonblank|].
  assert (get (created s category priority w) "id"
          = VStr (uuid_source w (uuid_drawn w))) as Hid.
  { unfold created. now rewrite !get_insert_ne, get_insert_eq by discriminate. }
  unfold deleteTodo. rewrite save_then_return. rewrite Hid.
  assert (List.filter
            (fun todo =>
               negb (strict_eq (get todo "id")
                               (VStr (uuid_source w (uuid_drawn w)))))
            (created s category priority w :: todos) = todos) as ->.
  { cbn [List.filter]. rewrite Hid. cbn [strict_eq].
    rewrite String.eqb_refl. cbn [negb]. apply filter_keeps_all.
    intros todo Hin. apply negb_true_iff.
    destruct (strict_eq (get todo "id") _) eqn:E; [|reflexivity].
    exfalso. apply Hfresh. apply strict_eq_eq in E. rewrite <- E.
    now apply (in_map (fun todo => get todo "id")). }
  split; [reflexivity|].
  intros Hw. apply saved_holds. rewrite saved_writable. exact Hw.
Qed.

Lemma add_then_delete_witness :
  exists newTodo w1 w2,
    addTodo [milk; rent] (VStr "Water plants") VUndefined VUndefined world0
    = (Ok (newTodo :: [milk; rent]), w1)
    /\ deleteTodo (newTodo :: [milk; rent]) (get newTodo "id") w1
       = (Ok [milk; rent], w2)
    /\ (ls_writable world0 = true ->
        ls_items w2 !! TODOS_STORAGE_KEY
        = Some (JSON_stringify (as_array [milk; rent]))).
Proof.
  apply add_then_delete; [discriminate|].
  cbn. intuition discriminate.
Defined.
